(** * Tabular loader: stratified split, K-fold target encoding, robust scaling

    A shallow embedding of [tabular_loader.js] (the deterministic pipeline
    [buildTabularTensors] with its helpers [shuffleWithSeed],
    [stratifiedSplit], [quantile], [clip], [robustStats], the reader
    [parseCarsCSV] and the schema analyzer [analyzeColumns]), of the training
    monitor [onEpoch] of [tabular_app.js] and of the input shapes of
    [buildTabularModel] in [tabular_model.js], together with the properties
    the specification states about the loader and further properties of the
    code.

    Modelling conventions.
    - A JavaScript number is a [number]: an exact rational, or one of the three
      non-finite values NaN, +Infinity, -Infinity.  Arithmetic on rationals is
      exact: there is no rounding, no overflow and no signed zero.  Every
      finite result is kept in lowest terms, so that equal numbers are equal
      terms.  What the properties say of a computed value is meant to hold of
      the binary64 value too: they relate values through the operations of the
      code, and where a bound or a finiteness depends on the absence of
      overflow it is stated for numbers [in_range].  Where rounding or
      overflow decides, the expression of the code is evaluated on binary64
      numbers in the module [Binary64].
    - [Number] of a string is the exact value of the literal, and an infinity
      from the magnitude on that rounds out of the binary64 range.
    - [undefined] (a missing property, an array index out of range, a missing
      [Map] entry) is [None]; it turns into [NaN] under arithmetic.
    - A plain object used as a dictionary is a [gmap] with string keys: the
      map holds the own properties.  The names an object inherits from
      [Object.prototype] are listed in [Object_prototype]; what is said of a
      read or a write of a key is said for keys that are [plain].  A [Map],
      whose iteration order is its insertion order, is an association list.
    - The 32-bit state of the sequence generator is a [Z] reduced modulo 2^32,
      which is what [>>>0] computes on the integers the generator reaches from
      a seed in the unsigned 32-bit range.
    - [Math.log1p] of a finite number above -1 is kept symbolic ([Log1p q]
      stands for log(1+q)); only its finiteness is observed by the pipeline.
    - A string is a [string] of 8-bit characters, the code units of a
      JavaScript string that has none above 255; [sort()] without a comparator
      orders strings by their character codes.
    - Of the tensor library only the calls that throw are modelled:
      [tf.tensor2d] on an array that holds no row, and the concatenation
      layer on a single input. *)

From Stdlib Require Import ZArith QArith Qabs Qround Lqa Lia String Ascii.
From Stdlib Require Import Floats.
From stdpp Require Import base list gmap strings sorting.

Open Scope Z_scope.

(** ** Numbers *)

Inductive number : Type :=
| Fin (q : Q)
| NaN
| PInf
| NInf.

(** A finite result, in lowest terms. *)
Definition fin (q : Q) : number := Fin (Qred q).

Definition Number_isFinite (x : number) : bool :=
  match x with Fin _ => true | _ => false end.

(** [ToNumber] of a value that may be [undefined]. *)
Definition to_number (v : option number) : number :=
  match v with Some x => x | None => NaN end.

Definition num_add (x y : number) : number :=
  match x, y with
  | Fin a, Fin b => fin (a + b)
  | NaN, _ | _, NaN => NaN
  | PInf, NInf | NInf, PInf => NaN
  | PInf, _ | _, PInf => PInf
  | NInf, _ | _, NInf => NInf
  end.

Definition num_sub (x y : number) : number :=
  match x, y with
  | Fin a, Fin b => fin (a - b)
  | NaN, _ | _, NaN => NaN
  | PInf, PInf | NInf, NInf => NaN
  | PInf, _ | _, NInf => PInf
  | NInf, _ | _, PInf => NInf
  end.

(** The infinity of the sign of [q] times [s]; [0 * Infinity] is NaN. *)
Definition signed_inf (s : bool) (q : Q) : number :=
  match (q ?= 0)%Q with
  | Eq => NaN
  | Gt => if s then PInf else NInf
  | Lt => if s then NInf else PInf
  end.

Definition num_mul (x y : number) : number :=
  match x, y with
  | Fin a, Fin b => fin (a * b)
  | NaN, _ | _, NaN => NaN
  | PInf, Fin q | Fin q, PInf => signed_inf true q
  | NInf, Fin q | Fin q, NInf => signed_inf false q
  | PInf, PInf | NInf, NInf => PInf
  | PInf, NInf | NInf, PInf => NInf
  end.

(** Division; a zero divisor is the positive zero. *)
Definition num_div (x y : number) : number :=
  match x, y with
  | Fin a, Fin b =>
      if Qeq_bool b 0 then signed_inf true a else fin (a / b)
  | NaN, _ | _, NaN => NaN
  | Fin _, (PInf | NInf) => Fin 0
  | PInf, Fin q => if Qle_bool 0 q then PInf else NInf
  | NInf, Fin q => if Qle_bool 0 q then NInf else PInf
  | (PInf | NInf), (PInf | NInf) => NaN
  end.

Definition Math_abs (x : number) : number :=
  match x with
  | Fin q => fin (Qabs q)
  | NaN => NaN
  | PInf | NInf => PInf
  end.

Definition Math_floor (x : number) : number :=
  match x with
  | Fin q => Fin (inject_Z (Qfloor q))
  | _ => x
  end.

Definition Math_max (x y : number) : number :=
  match x, y with
  | NaN, _ | _, NaN => NaN
  | PInf, _ | _, PInf => PInf
  | NInf, z | z, NInf => z
  | Fin a, Fin b => if Qle_bool a b then y else x
  end.

Definition Math_min (x y : number) : number :=
  match x, y with
  | NaN, _ | _, NaN => NaN
  | NInf, _ | _, NInf => NInf
  | PInf, z | z, PInf => z
  | Fin a, Fin b => if Qle_bool a b then x else y
  end.

(** [v > 0], the test a comparator's result undergoes in [sort]. *)
Definition num_pos (x : number) : bool :=
  match x with
  | Fin q => negb (Qle_bool q 0)
  | PInf => true
  | _ => false
  end.

(** [x || d] on numbers: 0 and NaN are falsy. *)
Definition num_or (x d : number) : number :=
  match x with
  | Fin q => if Qeq_bool q 0 then d else x
  | NaN => d
  | _ => x
  end.

(** The length of an array, as a number. *)
Definition num_of_nat (n : nat) : number := Fin (inject_Z (Z.of_nat n)).

(** ** Arrays *)

(** [Array.prototype.sort(compareFn)]: a stable sort; [a] is placed after [b]
    exactly when [compareFn(a, b) > 0]. *)
Fixpoint sort_insert {A} (compareFn : A -> A -> number) (x : A) (l : list A)
  : list A :=
  match l with
  | [] => [x]
  | y :: l' =>
      if num_pos (compareFn x y) then y :: sort_insert compareFn x l'
      else x :: y :: l'
  end.

Fixpoint js_sort {A} (compareFn : A -> A -> number) (l : list A) : list A :=
  match l with
  | [] => []
  | x :: l' => sort_insert compareFn x (js_sort compareFn l')
  end.

(** [(a,b) => a-b], the numeric comparator. *)
Definition by_value (a b : number) : number := num_sub a b.

(** [s[k]] for a computed (integer-valued) index. *)
Definition at_index {A} (s : list A) (k : Z) : option A :=
  if k <? 0 then None else s !! Z.to_nat k.

(** ** The deterministic sequence generator *)

(** [rnd()]: advances the state and returns the draw with the new state. *)
Definition rnd (seed : Z) : number * Z :=
  let seed' := (seed * 1664525 + 1013904223) mod 4294967296 in
  (num_div (Fin (inject_Z seed')) (Fin 4294967296), seed').

(** [arr.map(x => [rnd(), x])]: one draw per element, left to right, each
    from the state the previous one left. *)
Fixpoint keyed {A} (arr : list A) (seed : Z) : list (number * A) :=
  match arr with
  | [] => []
  | x :: arr' => let '(r, seed') := rnd seed in (r, x) :: keyed arr' seed'
  end.

Definition by_key {A} (a b : number * A) : number := num_sub a.1 b.1.

Definition shuffleWithSeed {A} (arr : list A) (seed : Z) : list A :=
  (js_sort by_key (keyed arr seed)).*2.



(** ** Strings as numbers *)

(** The white space and line terminators among the 8-bit characters: tab,
    line feed, vertical tab, form feed, carriage return, space and the
    no-break space U+00A0. *)
Definition is_space (c : ascii) : bool :=
  let n := nat_of_ascii c in
  bool_decide (n = 9 ∨ n = 10 ∨ n = 11 ∨ n = 12 ∨ n = 13 ∨ n = 32
               ∨ n = 160)%nat.

Fixpoint trim_start (l : list ascii) : list ascii :=
  match l with
  | c :: l' => if is_space c then trim_start l' else l
  | [] => []
  end.

(** [String.prototype.trim] *)
Definition trim (l : list ascii) : list ascii :=
  rev (trim_start (rev (trim_start l))).

Definition digit_of (base : Z) (c : ascii) : option Z :=
  let n := Z.of_nat (nat_of_ascii c) in
  let d := if (48 <=? n) && (n <=? 57) then Some (n - 48)
           else if (97 <=? n) && (n <=? 102) then Some (n - 87)
           else if (65 <=? n) && (n <=? 70) then Some (n - 55)
           else None in
  match d with
  | Some v => if v <? base then Some v else None
  | None => None
  end.

(** The longest prefix of digits: its value, its length, and what follows. *)
Fixpoint read_digits (base : Z) (l : list ascii) (acc : Z) (n : nat)
  : Z * nat * list ascii :=
  match l with
  | c :: l' =>
      match digit_of base c with
      | Some d => read_digits base l' (base * acc + d) (S n)
      | None => (acc, n, l)
      end
  | [] => (acc, n, [])
  end.

(** The Number value of the mathematical value of a literal: a magnitude of
    2^1024 - 2^970 or more, half-way between the largest binary64 number and
    2^1024, rounds to an infinity. *)
Definition number_value (q : Q) : number :=
  if Qle_bool (inject_Z (2 ^ 1024 - 2 ^ 970)) (Qabs q)
  then (if Qle_bool 0 q then PInf else NInf)
  else fin q.

Definition non_decimal (base : Z) (l : list ascii) : number :=
  match read_digits base l 0 0 with
  | (v, S _, []) => number_value (inject_Z v)
  | _ => NaN
  end.

(** An optional exponent part that must end the literal. *)
Definition read_exponent (l : list ascii) : option Z :=
  match l with
  | [] => Some 0
  | c :: l' =>
      if bool_decide (c = "e" ∨ c = "E")%char then
        let '(sgn, l'') :=
          match l' with
          | "+"%char :: r => (1, r)
          | "-"%char :: r => (-1, r)
          | _ => (1, l')
          end in
        match read_digits 10 l'' 0 0 with
        | (v, S _, []) => Some (sgn * v)
        | _ => None
        end
      else None
  end.

Definition pow10 (e : Z) : Q :=
  if 0 <=? e then inject_Z (10 ^ e) else (/ inject_Z (10 ^ (- e)))%Q.

Definition unsigned_decimal (l : list ascii) : option Q :=
  let '(ip, ni, r1) := read_digits 10 l 0 0 in
  let '(fp, nf, r2) :=
    match r1 with
    | "."%char :: r => read_digits 10 r 0 0
    | _ => (0, 0%nat, r1)
    end in
  if (ni + nf =? 0)%nat then None
  else
    match read_exponent r2 with
    | Some e =>
        Some ((inject_Z ip + inject_Z fp / inject_Z (10 ^ Z.of_nat nf))
              * pow10 e)%Q
    | None => None
    end.

(** [Number(v)] for a string [v]: the string numeric literal grammar, with the
    exact value of a literal inside the binary64 range. *)
Definition Number (v : string) : number :=
  match trim (list_ascii_of_string v) with
  | [] => Fin 0
  | "0"%char :: ("x" | "X")%char :: r => non_decimal 16 r
  | "0"%char :: ("o" | "O")%char :: r => non_decimal 8 r
  | "0"%char :: ("b" | "B")%char :: r => non_decimal 2 r
  | l =>
      let '(neg, r) :=
        match l with
        | "+"%char :: r => (false, r)
        | "-"%char :: r => (true, r)
        | _ => (false, l)
        end in
      if bool_decide (r = list_ascii_of_string "Infinity") then
        if neg then NInf else PInf
      else
        match unsigned_decimal r with
        | Some q => number_value (if neg then - q else q)
        | None => NaN
        end
  end.

(** [isNumeric(v)] for a cell [v] that is a string or [undefined]. *)
Definition isNumeric (v : option string) : bool :=
  match v with
  | None => false
  | Some s =>
      if bool_decide (s = "" ∨ s = "?") then false
      else Number_isFinite (Number s)
  end.

(** [isNumeric(v) ? Number(v) : NaN] *)
Definition numeric_cell (v : option string) : number :=
  match v with
  | Some s => if isNumeric v then Number s else NaN
  | None => NaN
  end.

(** [(v && v !== '?') ? v : '__NA__'] *)
Definition key_or_NA (v : option string) : string :=
  match v with
  | Some s => if bool_decide (s = "" ∨ s = "?") then "__NA__" else s
  | None => "__NA__"
  end.

(** ** Helpers *)

(** [s[k]] for an index that is itself a number. *)
Definition at_number {A} (s : list A) (k : number) : option A :=
  match k with
  | Fin q => if Qeq_bool (inject_Z (Qfloor q)) q then at_index s (Qfloor q)
             else None
  | _ => None
  end.

(** [a ?? b] *)
Definition nullish {A} (a b : option A) : option A :=
  match a with Some _ => a | None => b end.

Record stats : Type := { median : number; scale : number }.

Definition robustStats (arr : list number) : stats :=
  let s := js_sort by_value arr in
  let len := Z.of_nat (length s) in
  let mid := len / 2 in
  let median :=
    if len mod 2 =? 1 then to_number (at_index s mid)
    else num_div (num_add (to_number (at_index s (mid - 1)))
                          (to_number (at_index s mid))) (Fin 2) in
  let absDev := js_sort by_value (fmap (fun x => Math_abs (num_sub x median)) s) in
  let alen := Z.of_nat (length absDev) in
  let mad :=
    if alen mod 2 =? 1 then to_number (at_index absDev mid)
    else num_div (num_add (to_number (at_index absDev (mid - 1)))
                          (to_number (at_index absDev mid))) (Fin 2) in
  let scale := num_or (num_mul (Fin (7413 # 5000)) mad) (Fin 1) in
  {| median := median; scale := scale |}.

Definition quantile (a : list number) (q : number) : number :=
  let s := js_sort by_value a in
  let p := num_mul (num_sub (num_of_nat (length s)) (Fin 1)) q in
  let k := Math_floor p in
  let d := num_sub p k in
  num_add (to_number (at_number s k))
    (num_mul d
       (num_sub (to_number (nullish (at_number s (num_add k (Fin 1)))
                                    (at_number s k)))
                (to_number (at_number s k)))).

Definition clip (v lo hi : number) : number := Math_min hi (Math_max lo v).

(** [ToIntegerOrInfinity] followed by the clamping [slice] applies to an
    argument, for an array of length [len]. *)
Definition relative_index (len : nat) (x : number) : nat :=
  match x with
  | NaN | NInf => 0%nat
  | PInf => len
  | Fin q =>
      let k := Z.quot (Qnum q) (Zpos (Qden q)) in
      if k <? 0 then Z.to_nat (Z.max (Z.of_nat len + k) 0)
      else Nat.min (Z.to_nat k) len
  end.

(** [s.slice(start, end)]; [end] omitted is the length. *)
Definition slice {A} (s : list A) (start : number) (end_ : option number)
  : list A :=
  let from := relative_index (length s) start in
  let to := match end_ with
            | Some e => relative_index (length s) e
            | None => length s
            end in
  take (to - from) (drop from s).

(** ** Rows and the stratified split *)

Abbreviation row := (gmap string string).

(** [groups.get(k).push(i)], creating the group at the end of the [Map] when
    the key is new. *)
Fixpoint group_push (groups : list (string * list nat)) (k : string) (i : nat)
  : list (string * list nat) :=
  match groups with
  | [] => [(k, [i])]
  | (k', idxs) :: groups' =>
      if decide (k = k') then (k', idxs ++ [i]) :: groups'
      else (k', idxs) :: group_push groups' k i
  end.

(** The groups of row indices by the value of the [key] column, in the order
    the keys first appear. *)
Definition groups_of (rows : list row) (key : string)
  : list (string * list nat) :=
  foldl (fun groups '(i, r) => group_push groups (key_or_NA (r !! key)) i)
        [] (imap pair rows).

(** The loop body over one group: its shuffled indices, cut in two. *)
Definition split_group (frac : number) (seed : Z) (idxs : list nat)
  : list nat * list nat :=
  let s := shuffleWithSeed idxs seed in
  let cut := Math_max (Fin 1)
               (Math_floor (num_mul (num_of_nat (length s)) frac)) in
  (slice s (Fin 0) (Some cut), slice s cut None).

Record partition : Type := { train : list nat; test : list nat }.

Definition stratifiedSplit (rows : list row) (frac : number) (seed : Z)
    (key : string) : partition :=
  foldl (fun acc idxs =>
           let '(tr, te) := split_group frac seed idxs in
           {| train := train acc ++ tr; test := test acc ++ te |})
        {| train := []; test := [] |}
        (groups_of rows key).*2.

(** ** The schema, the target and the result *)

Record seeds : Type := { split : Z; kfold : Z; trainOrder : Z }.

(** [catMaps[h] = { map, size }] *)
Record catMap : Type := { cat_map : gmap string Z; cat_size : Z }.

Record schema : Type := {
  numCols : list string;
  catCols : list string;
  catMaps : gmap string catMap;
  __seeds : option seeds;
  numInputDim : option nat
}.

(** [schema.numInputDim = d] *)
Definition set_numInputDim (d : nat) (sch : schema) : schema :=
  {| numCols := numCols sch; catCols := catCols sch; catMaps := catMaps sch;
     __seeds := __seeds sch; numInputDim := Some d |}.

(** The value of [Math.log1p]: [Log1p q] is log(1+q) for a rational [q] above
    -1, a finite number. *)
Inductive log_number : Type :=
| Log1p (q : Q)
| LNaN
| LPInf
| LNInf.

Definition Math_log1p (x : number) : log_number :=
  match x with
  | Fin q =>
      match (q ?= -1)%Q with
      | Gt => Log1p q
      | Eq => LNInf
      | Lt => LNaN
      end
  | NaN | NInf => LNaN
  | PInf => LPInf
  end.

Definition log_isFinite (y : log_number) : bool :=
  match y with Log1p _ => true | _ => false end.

(** The arrays the tensors are built from, and the scaling statistics. *)
Record tensors : Type := {
  XnumTrainArr : list (list number);
  XcatsTrainArrs : list (list Z);
  yTrainArr : list log_number;
  XnumTestArr : list (list number);
  XcatsTestArrs : list (list Z);
  yTestArr : list log_number;
  numStats : list stats
}.

Inductive error : Type :=
| TypeError
| Error (message : string).

Inductive result (A : Type) : Type :=
| Ok (a : A)
| Throw (e : error).
Arguments Ok {A} a.
Arguments Throw {A} e.

#[global] Instance result_bind : MBind result := fun A B k r =>
  match r with Ok a => k a | Throw e => Throw e end.

Fixpoint mapM {A B} (f : A -> result B) (l : list A) : result (list B) :=
  match l with
  | [] => Ok []
  | a :: l' => b ← f a; bs ← mapM f l'; Ok (b :: bs)
  end.

(** [tf.tensor2d(values)] for an array of rows and no shape. *)
Definition tensor2d {A} (values : list (list A)) : result (list (list A)) :=
  match values with
  | [] =>
      Throw (Error "tensor2d() requires shape to be provided when `values` are a flat/TypedArray")
  | _ => Ok values
  end.

(** ** A [Map] with string keys *)

Fixpoint Map_get {V} (m : list (string * V)) (k : string) : option V :=
  match m with
  | [] => None
  | (k', v) :: m' => if decide (k = k') then Some v else Map_get m' k
  end.

Fixpoint Map_set {V} (m : list (string * V)) (k : string) (v : V)
  : list (string * V) :=
  match m with
  | [] => [(k, v)]
  | (k', v') :: m' =>
      if decide (k = k') then (k', v) :: m' else (k', v') :: Map_set m' k v
  end.

(** ** The pipeline *)

Definition encCols : list string :=
  ["make"; "body-style"; "drive-wheels"; "engine-type"; "fuel-system";
   "aspiration"; "num-of-doors"].

Definition K : nat := 5.

#[global] Opaque encCols K.

Definition smoothed (sum cnt base alpha : number) : number :=
  num_div (num_add sum (num_mul alpha base)) (num_add cnt alpha).

(** The median the imputer takes of the finite values of one column. *)
Definition column_median (column : list number) : number :=
  let vals := js_sort by_value (filter (fun x => Number_isFinite x) column) in
  let len := Z.of_nat (length vals) in
  let k := len / 2 in
  if len =? 0 then Fin 0
  else if len mod 2 =? 1 then to_number (at_index vals k)
  else num_div (num_add (to_number (at_index vals (k - 1)))
                        (to_number (at_index vals k))) (Fin 2).

(** [s.forEach((i,k) => arr[k%K].push(i))] *)
Definition deal (s : list nat) : list (list nat) :=
  foldl (fun arr '(k, i) => alter (fun a => a ++ [i]) (k mod K)%nat arr)
        (replicate K []) (imap pair s).

Section pipeline.
Variable rows : list row.
Variable sch : schema.
Variable trainFrac : number.

Definition seeds_of : seeds :=
  default {| split := 42; kfold := 1337; trainOrder := 777 |} (__seeds sch).

(** [rows[i][c]], keyed as a category; [i] is a row index. *)
Definition category (i : nat) (c : string) : string :=
  key_or_NA (rows !! i ≫= fun r => r !! c).

(* 1) stratified split *)
Definition trIdx : list nat :=
  train (stratifiedSplit rows trainFrac (split seeds_of) "make").
Definition teIdx : list nat :=
  test (stratifiedSplit rows trainFrac (split seeds_of) "make").

(* 2) numeric matrix + median imputation *)
Definition rawNum : list (list number) :=
  fmap (fun r => fmap (fun h => numeric_cell (r !! h)) (numCols sch)) rows.
Definition medians : list number :=
  let rawNum := rawNum in
  imap (fun j _ =>
          column_median (fmap (fun row => to_number (row !! j)) rawNum))
       (numCols sch).
Definition Xnum : list (list number) :=
  let medians := medians in
  fmap (fun row =>
         imap (fun j x => if Number_isFinite x then x
                          else to_number (medians !! j)) row)
      rawNum.

(* 3) categorical indices (full length) *)
Definition Xcats : result (list (list Z)) :=
  mapM (fun h =>
          match rows with
          | [] => Ok []
          | _ =>
              match catMaps sch !! h with
              | None => Throw TypeError
              | Some cm =>
                  Ok (fmap (fun r =>
                             default 0 (cat_map cm !! key_or_NA (r !! h)))
                          rows)
              end
          end)
       (catCols sch).

(* 4) price winsorization on train + log1p *)
Definition pricesRaw : list number :=
  fmap (fun r => numeric_cell (r !! "price")) rows.
Definition trainPrices : list number :=
  let pricesRaw := pricesRaw in
  filter (fun x => Number_isFinite x)
         (fmap (fun i => to_number (pricesRaw !! i)) trIdx).
Definition pLo : number := quantile trainPrices (Fin (1 # 20)).
Definition pHi : number := quantile trainPrices (Fin (19 # 20)).
Definition pricesClipped : list number :=
  let pLo := pLo in
  let pHi := pHi in
  fmap (fun v => if Number_isFinite v then clip v pLo pHi else NaN) pricesRaw.
Definition yLog : list log_number :=
  fmap (fun v => if Number_isFinite v then Math_log1p v else LNaN)
      pricesClipped.

(* 5) K-fold target encoding *)
Definition folds : list (list nat) :=
  deal (shuffleWithSeed trIdx (kfold seeds_of)).
Definition foldOf : gmap nat nat :=
  foldl (fun m '(f, a) => foldl (fun m i => <[i := f]> m) m a)
        ∅ (imap pair folds).
Definition globalMean : number :=
  let trainPrices := trainPrices in
  num_div (foldl num_add (Fin 0) trainPrices)
          (Math_max (Fin 1) (num_of_nat (length trainPrices))).

(** The loop over the fitting rows [idxs]: the per-category sums and counts
    of the raw target. *)
Definition accumulate (c : string) (idxs : list nat)
  : list (string * number) * list (string * number) :=
  let pricesRaw := pricesRaw in
  foldl (fun '(sums, counts) i =>
           let key := category i c in
           let yv := to_number (pricesRaw !! i) in
           if Number_isFinite yv then
             (Map_set sums key
                (num_add (num_or (to_number (Map_get sums key)) (Fin 0)) yv),
              Map_set counts key
                (num_add (num_or (to_number (Map_get counts key)) (Fin 0))
                         (Fin 1)))
           else (sums, counts))
        ([], []) idxs.

(** The map [m] built from the sums and counts of the fitting rows. *)
Definition encoding_map (c : string) (idxs : list nat) : gmap string number :=
  let globalMean := globalMean in
  let '(sums, counts) := accumulate c idxs in
  foldl (fun m '(k, sum) =>
           <[k := smoothed sum (num_or (to_number (Map_get counts k)) (Fin 0))
                           globalMean (Fin 10)]> m)
        {[ "__UNK__" := globalMean ]} sums.

(** The fitting rows of fold [f]: the training rows of the other folds. *)
Definition trF (f : nat) : list nat :=
  let foldOf := foldOf in
  filter (fun i => foldOf !! i ≠ Some f) trIdx.

Definition encMapsByFold : gmap string (list (gmap string number)) :=
  foldl (fun obj c =>
           <[c := fmap (fun f => encoding_map c (trF f)) (seq 0 K)]> obj)
        ∅ encCols.

(* full-train maps for test *)
Definition fullMaps : gmap string (gmap string number) :=
  let trIdx := trIdx in
  foldl (fun obj c => <[c := encoding_map c trIdx]> obj) ∅ encCols.

(* 6) append TE columns to numeric matrix *)

(** [encValue(i, col)]; the three constants the closure captures come first. *)
Definition encValue (foldOf : gmap nat nat)
    (encMapsByFold : gmap string (list (gmap string number)))
    (fullMaps : gmap string (gmap string number))
    (i : nat) (col : string) : option number :=
  let key := category i col in
  match foldOf !! i with
  | Some f =>
      let m := default ∅ (encMapsByFold !! col ≫= fun maps => maps !! f) in
      nullish (m !! key) (m !! "__UNK__")
  | None =>
      let m := default ∅ (fullMaps !! col) in
      nullish (m !! key) (m !! "__UNK__")
  end.
Definition XnumPlus : list (list number) :=
  let foldOf := foldOf in
  let encMapsByFold := encMapsByFold in
  let fullMaps := fullMaps in
  imap (fun i r =>
          r ++ fmap (fun c => to_number (encValue foldOf encMapsByFold fullMaps i c))
                    encCols)
       Xnum.

(* 7) robust-scale numerics (fit on training only) *)
Definition trainNum : list (list number) :=
  let XnumPlus := XnumPlus in
  fmap (fun i => default [] (XnumPlus !! i)) trIdx.
Definition numStats_of (first : list number) : list stats :=
  let trainNum := trainNum in
  imap (fun j _ => robustStats (fmap (fun r => to_number (r !! j)) trainNum))
       first.
Definition XnumScaled (st : list stats) : list (list number) :=
  fmap (fun row =>
         imap (fun j x =>
                 num_div (num_sub x (to_number (median <$> st !! j)))
                         (to_number (scale <$> st !! j)))
              row)
      XnumPlus.

(* 8) final arrays; one shuffle for train *)
Definition valid : list Z :=
  filter (fun i => 0 <= i)
         (imap (fun i v => if log_isFinite v then Z.of_nat i else -1) yLog).
Definition tr : list nat :=
  let valid := valid in
  filter (fun i => Z.of_nat i ∈ valid) trIdx.
Definition te : list nat :=
  let valid := valid in
  filter (fun i => Z.of_nat i ∈ valid) teIdx.
Definition trainOrder_ : list nat :=
  shuffleWithSeed tr (trainOrder seeds_of).

Definition gather {A} (d : A) (arr : list A) (idxs : list nat) : list A :=
  fmap (fun i => default d (arr !! i)) idxs.

(** The tensors.  Of [tf.tensor2d] the embedding keeps the array it is given
    and the one way the calls of the pipeline fail: the numeric matrices come
    without a shape, and from an array that holds no row the library infers
    no second dimension and throws.  The target and code arrays come with
    their shape [[length, 1]] and may be empty.  [schema.numInputDim] is
    written before; a throw gives no schema back. *)

Definition buildTabularTensors : result (tensors * schema) :=
  xcats ← Xcats;
  match XnumPlus !! 0%nat with
  | None => Throw TypeError
  | Some first =>
      let sch' := set_numInputDim (length first) sch in
      let st := numStats_of first in
      let XnumScaled := XnumScaled st in
      let yLog := yLog in
      let trainOrder := trainOrder_ in
      let te := te in
      XnumTrainT ← tensor2d (gather [] XnumScaled trainOrder);
      XnumTestT ← tensor2d (gather [] XnumScaled te);
      Ok ({| XnumTrainArr := XnumTrainT;
             XcatsTrainArrs := fmap (fun col => gather 0 col trainOrder) xcats;
             yTrainArr := gather LNaN yLog trainOrder;
             XnumTestArr := XnumTestT;
             XcatsTestArrs := fmap (fun col => gather 0 col te) xcats;
             yTestArr := gather LNaN yLog te;
             numStats := st |}, sch')
  end.
End pipeline.

(** ** The header check of the CSV reader *)

(** [split(sep)] for a one-character separator. *)
Fixpoint split_on (sep : ascii) (l : list ascii) : list (list ascii) :=
  match l with
  | [] => [[]]
  | c :: l' =>
      if decide (c = sep) then [] :: split_on sep l'
      else match split_on sep l' with
           | cell :: cells => (c :: cell) :: cells
           | [] => [[c]]
           end
  end.

Definition push_char (c : ascii) (lines : list (list ascii))
  : list (list ascii) :=
  match lines with
  | line :: lines' => (c :: line) :: lines'
  | [] => [[c]]
  end.

(** [split(/\r?\n/)]: a line ends at a line feed, or at a carriage return
    that a line feed follows. *)
Fixpoint split_lines (l : list ascii) : list (list ascii) :=
  match l with
  | [] => [[]]
  | c :: l' =>
      if decide (c = "010"%char) then [] :: split_lines l'
      else
        match l' with
        | c' :: l'' =>
            if bool_decide (c = "013"%char /\ c' = "010"%char)
            then [] :: split_lines l''
            else push_char c (split_lines l')
        | [] => push_char c (split_lines l')
        end
  end.

Definition cells_of (sep : ascii) (line : list ascii) : list string :=
  fmap (fun s => string_of_list_ascii (trim s)) (split_on sep line).

Definition separator (text : list ascii) : ascii :=
  if bool_decide (";"%char ∈ text) && negb (bool_decide (","%char ∈ text))
  then ";"%char else ","%char.

(** The header the reader takes from the first line of the text. *)
Definition header_of (text : string) : list string :=
  let text := list_ascii_of_string text in
  match split_lines (trim text) with
  | first :: _ => cells_of (separator text) first
  | [] => []
  end.

(** [parseCarsCSV], from the text of the file on. *)
Definition parseCarsCSV (text : string) : result (list row) :=
  let header := header_of text in
  let text := list_ascii_of_string text in
  match split_lines (trim text) with
  | [] => Throw TypeError
  | first :: lines =>
      if bool_decide ("price" ∈ header) then
        Ok (fmap (fun line =>
                   let cells := cells_of (separator text) line in
                   foldl (fun obj '(i, h) => <[h := default "" (cells !! i)]> obj)
                         (∅ : row) (imap pair header))
                lines)
      else Throw (Error "Column 'price' not found")
  end.

(** ** The schema analyzer *)

(** [x >= y] *)
Definition num_ge (x y : number) : bool :=
  match x, y with
  | Fin a, Fin b => Qle_bool b a
  | PInf, (Fin _ | PInf | NInf) => true
  | (Fin _ | NInf), NInf => true
  | _, _ => false
  end.

(** The comparison of [sort()] without a comparator, on strings. *)
Definition default_compare (a b : string) : number :=
  if String.ltb a b then Fin (-1)
  else if String.ltb b a then Fin 1
  else Fin 0.

(** [set.add(v)] on a [Set] in insertion order. *)
Definition Set_add (set : list string) (v : string) : list string :=
  if decide (v ∈ set) then set else set ++ [v].

(** The inner loop [for (const r of rows) { cnt++; if (isNumeric(r[h])) num++; }]
    of one header. *)
Definition count_cells (rows : list row) (h : string) : nat * nat :=
  foldl (fun '(cnt, num) (r : row) =>
           ((cnt + 1)%nat, if isNumeric (r !! h) then (num + 1)%nat else num))
        (0%nat, 0%nat) rows.

(** The first loop: every header but the target goes to [numCols] when at
    least 0.8 of its cells are numeric, and to [catCols] otherwise. *)
Definition classify (headers : list string) (rows : list row)
    (targetName : string) : list string * list string :=
  foldl (fun '(numCols, catCols) h =>
           if decide (h = targetName) then (numCols, catCols)
           else
             let '(cnt, num) := count_cells rows h in
             if num_ge (num_div (num_of_nat num) (num_of_nat cnt))
                       (Fin (4 # 5))
             then (numCols ++ [h], catCols)
             else (numCols, catCols ++ [h]))
        ([], []) headers.

(** The body of the second loop: the code table of one categorical column. *)
Definition catMap_of (rows : list row) (h : string) : catMap :=
  let set := foldl (fun set (r : row) => Set_add set (key_or_NA (r !! h)))
                   [] rows in
  let arr := js_sort default_compare set in
  let map := foldl (fun (map : gmap string Z) '(i, v) =>
                      <[v := Z.of_nat i + 1]> map)
                   {[ "__UNK__" := 0 ]} (imap pair arr) in
  {| cat_map := map; cat_size := Z.of_nat (length arr) + 1 |}.

(** [analyzeColumns(rows, targetName)].  [headers] stands for
    [Object.keys(rows[0])], the keys of the first row in the order the object
    holds them, which the map of a row does not record. *)
Definition analyzeColumns (headers : list string) (rows : list row)
    (targetName : string) : result schema :=
  match rows with
  | [] => Throw TypeError
  | _ =>
      let '(numCols, catCols) := classify headers rows targetName in
      Ok {| numCols := numCols; catCols := catCols;
            catMaps := foldl (fun catMaps h => <[h := catMap_of rows h]> catMaps)
                             ∅ catCols;
            __seeds := None; numInputDim := None |}
  end.

(** [schema.__seeds = { ...SEEDS }] of the application. *)
Definition SEEDS : seeds := {| split := 42; kfold := 1337; trainOrder := 777 |}.

Definition with_seeds (s : seeds) (sch : schema) : schema :=
  {| numCols := numCols sch; catCols := catCols sch; catMaps := catMaps sch;
     __seeds := Some s; numInputDim := numInputDim sch |}.

(** ** The training monitor of the application *)

(** [x < y] *)
Definition num_lt (x y : number) : bool :=
  match x, y with
  | Fin a, Fin b => negb (Qle_bool b a)
  | NInf, (Fin _ | PInf) => true
  | Fin _, PInf => true
  | _, _ => false
  end.

(** What the [onEpoch] callback of [tabular_app.js] reads and writes:
    [st.__best], [st.__stall], the optimizer's [learningRate] and the model's
    [stopTraining]. *)
Record monitor : Type := {
  __best : number;
  __stall : nat;
  learningRate : option number;
  stopTraining : bool
}.

(** [(opt.learningRate ?? 0.0006) * 0.5] *)
Definition halved (lr : option number) : option number :=
  Some (num_mul (default (Fin (3 # 5000)) lr) (Fin (1 # 2))).

(** The bookkeeping of [onEpoch(ep, logs)] for [logs.val_loss]; [None] is a
    validation loss that is [null] or [undefined].  The two lines that update
    the progress display are not part of it. *)
Definition onEpoch (st : monitor) (val_loss : option number) : monitor :=
  match val_loss with
  | None => st
  | Some v =>
      let '(best, stall) :=
        if num_lt (num_add v (Fin (1 # 1000000))) (__best st)
        then (v, 0%nat)
        else (__best st, S (__stall st)) in
      let lr := if (stall =? 8)%nat then halved (learningRate st)
                else learningRate st in
      let stop := if (20 <? stall)%nat then true else stopTraining st in
      {| __best := best; __stall := stall; learningRate := lr;
         stopTraining := stop |}
  end.

(** The callback over the epochs of one fit. *)
Definition run_epochs (st : monitor) (losses : list (option number)) : monitor :=
  foldl onEpoch st losses.

(** ** The inputs of the model *)

(** [Math.ceil(Math.sqrt(n))] for an integer [n >= 0] (the square root of an
    integer below 2^52 is rounded to an integer only when it is one). *)
Definition ceil_sqrt (n : Z) : Z :=
  let r := Z.sqrt n in if r * r =? n then r else r + 1.

(** [Math.min(24, Math.ceil(Math.sqrt(size)) + 1)] *)
Definition embedding_dim (size : Z) : number :=
  if size <? 0 then NaN
  else Fin (inject_Z (Z.min 24 (ceil_sqrt size + 1))).

(** What an embedding layer is created with. *)
Record embedding : Type := { inputDim : Z; outputDim : number; seed : Z }.

(** The loop over [schema.catCols] of [buildTabularModel]: one embedding per
    categorical column, seeded with [seedBase++]. *)
Fixpoint embedding_branches (sch : schema) (cols : list string) (seedBase : Z)
  : result (list (string * embedding)) :=
  match cols with
  | [] => Ok []
  | h :: cols' =>
      match catMaps sch !! h with
      | None => Throw TypeError
      | Some cm =>
          let size := cat_size cm in
          rest ← embedding_branches sch cols' (seedBase + 1);
          Ok ((h, {| inputDim := size; outputDim := embedding_dim size;
                     seed := seedBase |}) :: rest)
      end
  end.

(** The shapes [buildTabularModel(schema, seeds)] gives its input layers: the
    width of the numeric input and the embeddings of the categorical inputs.
    [parts] holds the numeric branch and one branch per categorical column;
    [tf.layers.concatenate().apply(parts)] throws when [parts] is the numeric
    branch alone.  The layers behind the concatenation are those of the
    framework and are not part of this. *)
Record model_inputs : Type := {
  numDim : nat;
  embeddings : list (string * embedding)
}.

Definition buildTabularModel (sch : schema) (initBase : Z)
  : result model_inputs :=
  let numDim := default (length (numCols sch)) (numInputDim sch) in
  embeddings ← embedding_branches sch (catCols sch) initBase;
  match embeddings with
  | [] =>
      Throw (Error "A `Concatenate` layer should be called on a list of at least 2 inputs")
  | _ => Ok {| numDim := numDim; embeddings := embeddings |}
  end.

(** ** The arithmetic of the code on binary64 numbers *)

(** The expressions of [robustStats] and of the global mean on the numbers
    the code computes with, IEEE 754 binary64 with rounding to nearest: what
    the exact rationals above leave out.  [nan] stands for [undefined] too,
    which arithmetic turns into NaN. *)
Module Binary64.

(** [arr.sort((a,b)=>a-b)] *)
Fixpoint sort_insert (x : float) (l : list float) : list float :=
  match l with
  | [] => [x]
  | y :: l' =>
      if (0 <? x - y)%float then y :: sort_insert x l' else x :: y :: l'
  end.

Fixpoint sort (l : list float) : list float :=
  match l with
  | [] => []
  | x :: l' => sort_insert x (sort l')
  end.

(** [s.length%2 ? s[mid] : (s[mid-1]+s[mid])/2] with [mid = floor(s.length/2)] *)
Definition middle (s : list float) : float :=
  let mid := (length s / 2)%nat in
  if Nat.odd (length s) then nth mid s nan
  else ((match mid with O => nan | S k => nth k s nan end + nth mid s nan) / 2)%float.

(** [x || 1] *)
Definition or_1 (x : float) : float :=
  if (x =? 0)%float || PrimFloat.is_nan x then 1%float else x.

(** The binary64 number of the literal [1.4826]. *)
#[warnings="-inexact-float"] Definition scale_factor : float := 1.4826%float.

Definition robustStats (arr : list float) : float * float :=
  let s := sort arr in
  let median := middle s in
  let absDev := sort (List.map (fun x => PrimFloat.abs (x - median)%float) s) in
  let mad := middle absDev in
  (median, or_1 (scale_factor * mad)%float).

(** [(x - median) / scale] *)
Definition scale_by (st : float * float) (x : float) : float :=
  ((x - st.1) / st.2)%float.

(** The length of an array, as a number. *)
Definition of_nat (n : nat) : float :=
  PrimFloat.of_uint63 (Uint63.of_Z (Z.of_nat n)).

Definition max (x y : float) : float :=
  if PrimFloat.is_nan x || PrimFloat.is_nan y then nan
  else if (x <? y)%float then y else x.

(** [trainPrices.reduce((a,b)=>a+b,0)/Math.max(1,trainPrices.length)] *)
Definition globalMean (trainPrices : list float) : float :=
  (fold_left PrimFloat.add trainPrices 0 / max 1 (of_nat (length trainPrices)))%float.


End Binary64.

(** ** The rows behind an encoding *)

Definition finite (x : number) : Prop := Number_isFinite x = true.

#[global] Instance finite_dec (x : number) : Decision (finite x).
Proof. unfold finite. apply _. Defined.

(** [pricesRaw[i]] *)
Definition price (rows : list row) (i : nat) : number :=
  to_number (pricesRaw rows !! i).

(** The rows among [idxs] that count for category [k] of column [c]: those
    with a finite raw target whose category is [k], in the order of [idxs]. *)
Definition rows_of_category (rows : list row) (c k : string) (idxs : list nat)
  : list nat :=
  filter (fun i => finite (price rows i) /\ category rows i c = k) idxs.

(** ** Notions the properties are stated with *)

(** The cut, for a finite fraction. *)
Definition cut_of (n : nat) (f : Q) : Z :=
  Z.max 1 (Qfloor (inject_Z (Z.of_nat n) * f)).

Definition train_parts (frac : number) (seed : Z) (groups : list (list nat))
  : list (list nat) :=
  fmap (fun idxs => (split_group frac seed idxs).1) groups.

Definition test_parts (frac : number) (seed : Z) (groups : list (list nat))
  : list (list nat) :=
  fmap (fun idxs => (split_group frac seed idxs).2) groups.

(** The sum [sums.get(k)] holds after the loop over [idxs]. *)
Definition sum_of (rows : list row) (c k : string) (idxs : list nat) : number :=
  foldl num_add (Fin 0) (price rows <$> rows_of_category rows c k idxs).

(** [s.length%2 ? s[mid] : (s[mid-1]+s[mid])/2] with [mid = floor(s.length/2)] *)
Definition middle (s : list number) : number :=
  let len := Z.of_nat (length s) in
  let mid := len / 2 in
  if len mod 2 =? 1 then to_number (at_index s mid)
  else num_div (num_add (to_number (at_index s (mid - 1)))
                        (to_number (at_index s mid))) (Fin 2).

Definition nonneg (x : number) : Prop := exists q, x = Fin q /\ (0 <= q)%Q.

(** [(x - median) / scale] *)
Definition scale_by (st : stats) (x : number) : number :=
  num_div (num_sub x (median st)) (scale st).

(** [trainNum.map(r => r[j])] for [trainNum = trIdx.map(i => m[i])]: the
    training values of column [j] of the matrix [m]. *)
Definition train_column (trIdx : list nat) (m : list (list number)) (j : nat)
  : list number :=
  (fun r : list number => to_number (r !! j))
    <$> ((fun i => default [] (m !! i)) <$> trIdx).

(** [x <= y] on finite numbers. *)
Definition num_le (x y : number) : Prop :=
  match x, y with
  | Fin a, Fin b => (a <= b)%Q
  | _, _ => False
  end.

(** The first index of every group, in the order of the groups. *)
Definition firsts (groups : list (string * list nat)) : list nat :=
  (fun e => default 0%nat (head e.2)) <$> groups.

(** A string that [trim] leaves as it is: no white space at either end. *)
Definition trimmed (v : string) : Prop :=
  trim (list_ascii_of_string v) = list_ascii_of_string v.


(** The share test [num/cnt >= 0.8], for a non-empty list of rows. *)
Definition mostly_numeric (rows : list row) (h : string) : Prop :=
  (4 * length rows
   <= 5 * length (filter (fun r : row => isNumeric (r !! h)) rows))%nat.

#[global] Instance mostly_numeric_dec (rows : list row) (h : string) :
  Decision (mostly_numeric rows h).
Proof. unfold mostly_numeric. apply _. Defined.

(** The order of strings [sort()] follows: by character codes. *)
Definition string_le (a b : string) : Prop := String.leb a b = true.

(** The property names every object inherits from [Object.prototype]: a read
    [m[k]] of such a name that [m] does not hold itself gives the inherited
    member instead of [undefined], and the assignment [m['__proto__'] = v]
    of a string or a number stores nothing. *)
Definition Object_prototype : list string :=
  ["constructor"; "__defineGetter__"; "__defineSetter__"; "hasOwnProperty";
   "__lookupGetter__"; "__lookupSetter__"; "isPrototypeOf";
   "propertyIsEnumerable"; "toString"; "valueOf"; "__proto__";
   "toLocaleString"].

(** A key for which an object behaves as the map of its own properties. *)
Definition plain (k : string) : Prop := k ∉ Object_prototype.

#[global] Instance plain_dec (k : string) : Decision (plain k).
Proof. unfold plain. apply _. Defined.

(** The values of column [c] are plain keys in every row. *)
Definition plain_column (rows : list row) (c : string) : Prop :=
  Forall (fun r : row => plain (key_or_NA (r !! c))) rows.

#[global] Instance plain_column_dec (rows : list row) (c : string) :
  Decision (plain_column rows c).
Proof. unfold plain_column. apply _. Defined.

(** A finite number of magnitude at most 2^1020.  On such numbers a sum or a
    difference of two, its half, and 1.4826 times it are below the largest
    binary64 number: no operation of [robustStats] or [quantile] overflows. *)
Definition in_range (x : number) : Prop :=
  match x with
  | Fin q => Qle_bool (Qabs q) (inject_Z (2 ^ 1020)) = true
  | _ => False
  end.

#[global] Instance in_range_dec (x : number) : Decision (in_range x).
Proof. destruct x; simpl; apply _. Defined.

(** ** Sample inputs *)

Definition mk_row (l : list (string * string)) : row := list_to_map l.

(** Six rows, two makes: the end-to-end scenario, with one numeric column. *)
Definition demo_rows : list row :=
  [ mk_row [("make","A"); ("price","10000"); ("hp", "100")];
    mk_row [("make","A"); ("price","12000"); ("hp", "110")];
    mk_row [("make","A"); ("price","11000"); ("hp", "?")];
    mk_row [("make","A"); ("price","9000"); ("hp", "90")];
    mk_row [("make","B"); ("price","20000"); ("hp", "200")];
    mk_row [("make","B"); ("price","21000"); ("hp", "210")] ].

Definition demo_schema : schema :=
  {| numCols := ["hp"]; catCols := ["make"];
     catMaps :=
       {[ "make" := {| cat_map := list_to_map [("__UNK__", 0); ("A", 1); ("B", 2)];
                       cat_size := 3 |} ]};
     __seeds := Some {| split := 42; kfold := 1337; trainOrder := 777 |};
     numInputDim := None |}.

(** A schema with one numeric column and no categorical column. *)
Definition plain_schema : schema :=
  {| numCols := ["hp"]; catCols := []; catMaps := ∅;
     __seeds := Some {| split := 42; kfold := 1337; trainOrder := 777 |};
     numInputDim := None |}.

(** Two rows without a [make] column. *)
Definition no_make_rows : list row :=
  [ mk_row [("price","10"); ("hp","1")];
    mk_row [("price","20"); ("hp","3")] ].

(** Two makes of three rows each, interleaved: A A B B B A. *)
Definition interleaved_rows : list row :=
  [ mk_row [("make","A"); ("price","10")];
    mk_row [("make","A"); ("price","20")];
    mk_row [("make","B"); ("price","30")];
    mk_row [("make","B"); ("price","40")];
    mk_row [("make","B"); ("price","50")];
    mk_row [("make","A"); ("price","60")] ].

(** Three rows of one make; the two lists differ in the [hp] cell of row 2,
    which the split puts in the test partition. *)
Definition leak_rows1 : list row :=
  [ mk_row [("make","A"); ("price","10"); ("hp","?")];
    mk_row [("make","A"); ("price","20"); ("hp","3")];
    mk_row [("make","A"); ("price","30"); ("hp","1")] ].

Definition leak_rows2 : list row :=
  [ mk_row [("make","A"); ("price","10"); ("hp","?")];
    mk_row [("make","A"); ("price","20"); ("hp","3")];
    mk_row [("make","A"); ("price","30"); ("hp","5")] ].

(** A schema without feature columns. *)
Definition bare_schema : schema :=
  {| numCols := []; catCols := []; catMaps := ∅;
     __seeds := Some {| split := 42; kfold := 1337; trainOrder := 777 |};
     numInputDim := None |}.

(** Two rows of one make; the two lists differ in the target of row 1, which
    the split makes the only training row. *)
Definition own_target_rows1 : list row :=
  [ mk_row [("make","A"); ("price","10")];
    mk_row [("make","A"); ("price","20")] ].

Definition own_target_rows2 : list row :=
  [ mk_row [("make","A"); ("price","10")];
    mk_row [("make","A"); ("price","30")] ].





(** Two rows without a [price] cell. *)
Definition no_price_rows : list row :=
  [ mk_row [("make","A"); ("hp","1")];
    mk_row [("make","B"); ("hp","3")] ].

(** A file whose header has no [price] cell. *)
Definition no_price_text : string :=
  "make,cost" +:+ String "010"%char "audi,100".

(** The keys of the rows of the running example, in the order of a file. *)
Definition demo_headers : list string := ["make"; "price"; "hp"].

(** A file of two lines after the header; the second one has no price cell. *)
Definition short_line_text : string :=
  "make, price" +:+ String "010"%char ("audi, 100 " +:+ String "010"%char "bmw").

(** A monitor at the start of a plateau, with the optimizer's rate unset. *)
Definition plateau_state : monitor :=
  {| __best := Fin 1; __stall := 0; learningRate := None;
     stopTraining := false |}.

(** A schema that carries no seeds. *)
Definition unseeded_schema : schema :=
  {| numCols := ["hp"]; catCols := []; catMaps := ∅; __seeds := None;
     numInputDim := None |}.

(** * Properties *)

(** ** The deterministic sequence generator *)

Example rnd_42 : rnd 42 = (Fin (1083814273 # 4294967296), 1083814273).
Proof. reflexivity. Qed.

Lemma Qred_canon (q q' : Q) : (q == q')%Q -> Qred q = Qred q'.
Proof. apply Qred_complete. Qed.

Lemma fin_eq (q q' : Q) : (q == q')%Q -> fin q = fin q'.
Proof. intros H. unfold fin. f_equal. by apply Qred_complete. Qed.

Lemma rnd_state (state : Z) :
  (rnd state).2 = (state * 1664525 + 1013904223) mod 2 ^ 32.
Proof. reflexivity. Qed.

Lemma rnd_value (state : Z) :
  exists q, (rnd state).1 = Fin q
            /\ (q == inject_Z (rnd state).2 / inject_Z (2 ^ 32))%Q
            /\ (0 <= q < 1)%Q.
Proof.
  unfold rnd. cbn [fst snd].
  set (s := (state * 1664525 + 1013904223) mod 4294967296).
  assert (Hs : 0 <= s < 4294967296) by (apply Z.mod_pos_bound; lia).
  exists (Qred (inject_Z s / 4294967296)). split; [reflexivity|].
  rewrite Qred_correct. change (inject_Z (2 ^ 32)) with 4294967296%Q.
  split; [reflexivity|].
  assert (H0 : (0 <= inject_Z s)%Q) by (rewrite <- (Zle_Qle 0); lia).
  assert (H1 : (inject_Z s < 4294967296)%Q)
    by (change 4294967296%Q with (inject_Z 4294967296); rewrite <- Zlt_Qlt; lia).
  split.
  - apply Qle_shift_div_l; [reflexivity|]. lra.
  - apply Qlt_shift_div_r; [reflexivity|]. lra.
Qed.

Lemma keyed_cons {A} (x : A) (arr : list A) (state : Z) :
  keyed (x :: arr) state = ((rnd state).1, x) :: keyed arr (rnd state).2.
Proof. reflexivity. Qed.

(** C4 — the generator's update rule is
    [newState = (state * 1664525 + 1013904223) mod 2^32] with
    [value = newState / 2^32], a number in [0,1); from state 42 the first draw
    gives state 1083814273 and value 1083814273/4294967296; the draws inside
    one permutation chain the state, so the second element's key is drawn from
    state 1083814273 and not from 42 again. *)
Theorem C4_dsg_reference_vector :
  (forall state : Z,
      (rnd state).2 = (state * 1664525 + 1013904223) mod 2 ^ 32
      /\ exists q, (rnd state).1 = Fin q
                   /\ (q == inject_Z (rnd state).2 / inject_Z (2 ^ 32))%Q
                   /\ (0 <= q < 1)%Q)
  /\ rnd 42 = (Fin (1083814273 # 4294967296), 1083814273)
  /\ (forall (A : Type) (x y : A) (arr : list A) (state : Z),
         keyed (x :: y :: arr) state
         = ((rnd state).1, x) :: ((rnd (rnd state).2).1, y)
             :: keyed arr (rnd (rnd state).2).2)
  /\ (forall (A : Type) (x y : A),
         keyed [x; y] 42
         = [(Fin (1083814273 # 4294967296), x); ((rnd 1083814273).1, y)])
  /\ (rnd 1083814273).1 <> (rnd 42).1.
Proof.
  split; [intros state; split; [apply rnd_state | apply rnd_value]|].
  split; [reflexivity|].
  split; [intros; by rewrite !keyed_cons|].
  split; [reflexivity|].
  vm_compute. discriminate.
Qed.

(** ** Sorting and shuffling rearrange *)

Lemma sort_insert_perm {A} (cmp : A -> A -> number) (x : A) (l : list A) :
  sort_insert cmp x l ≡ₚ x :: l.
Proof.
  induction l as [|y l IH]; [done|]. simpl.
  destruct (num_pos (cmp x y)); [|done].
  rewrite IH. apply Permutation_swap.
Qed.

Lemma js_sort_perm {A} (cmp : A -> A -> number) (l : list A) :
  js_sort cmp l ≡ₚ l.
Proof.
  induction l as [|x l IH]; [done|]. simpl.
  by rewrite sort_insert_perm, IH.
Qed.

Lemma js_sort_length {A} (cmp : A -> A -> number) (l : list A) :
  length (js_sort cmp l) = length l.
Proof. apply Permutation_length, js_sort_perm. Qed.

Lemma keyed_snd {A} (arr : list A) (seed : Z) : (keyed arr seed).*2 = arr.
Proof.
  revert seed. induction arr as [|x arr IH]; intros seed; [done|].
  rewrite keyed_cons. simpl. by rewrite IH.
Qed.

Lemma shuffleWithSeed_perm {A} (arr : list A) (seed : Z) :
  shuffleWithSeed arr seed ≡ₚ arr.
Proof.
  unfold shuffleWithSeed.
  rewrite (js_sort_perm by_key (keyed arr seed)). by rewrite keyed_snd.
Qed.

Lemma shuffleWithSeed_length {A} (arr : list A) (seed : Z) :
  length (shuffleWithSeed arr seed) = length arr.
Proof. apply Permutation_length, shuffleWithSeed_perm. Qed.

(** ** Slices *)

Lemma relative_index_le (len : nat) (x : number) :
  (relative_index len x <= len)%nat.
Proof.
  destruct x as [q| | |]; simpl; try lia.
  destruct (Z.ltb_spec (Qnum q ÷ Z.pos (Qden q)) 0); lia.
Qed.

Lemma relative_index_int (len : nat) (z : Z) :
  0 <= z -> relative_index len (Fin (inject_Z z)) = Nat.min (Z.to_nat z) len.
Proof.
  intros Hz. simpl. rewrite Z.quot_1_r.
  destruct (Z.ltb_spec z 0); [lia|done].
Qed.

Lemma slice_cut {A} (s : list A) (cut : number) :
  slice s (Fin 0) (Some cut) = take (relative_index (length s) cut) s
  /\ slice s cut None = drop (relative_index (length s) cut) s.
Proof.
  unfold slice. split.
  - change (relative_index (length s) (Fin 0)) with (Nat.min 0 (length s)).
    rewrite Nat.min_0_l, Nat.sub_0_r. done.
  - apply take_ge. rewrite length_drop. lia.
Qed.

Lemma split_group_app (frac : number) (seed : Z) (idxs : list nat) :
  (split_group frac seed idxs).1 ++ (split_group frac seed idxs).2
  = shuffleWithSeed idxs seed.
Proof.
  unfold split_group. cbn [fst snd].
  destruct (slice_cut (shuffleWithSeed idxs seed)
              (Math_max (Fin 1)
                 (Math_floor
                    (num_mul (num_of_nat (length (shuffleWithSeed idxs seed)))
                       frac)))) as [-> ->].
  apply take_drop.
Qed.


Lemma cut_number (n : nat) (f : Q) :
  Math_max (Fin 1) (Math_floor (num_mul (num_of_nat n) (Fin f)))
  = Fin (inject_Z (cut_of n f)).
Proof.
  unfold cut_of, num_of_nat, num_mul, fin, Math_floor, Math_max.
  rewrite (Qfloor_comp _ _ (Qred_correct _)).
  set (z := Qfloor (inject_Z (Z.of_nat n) * f)).
  destruct (Qle_bool 1 (inject_Z z)) eqn:E.
  - apply Qle_bool_iff in E. change 1%Q with (inject_Z 1) in E.
    rewrite <- Zle_Qle in E. by rewrite Z.max_r.
  - assert (~ (1 <= z)).
    { intros H. rewrite Zle_Qle in H. apply Qle_bool_iff in H.
      change (inject_Z 1) with 1%Q in H. congruence. }
    rewrite Z.max_l by lia. done.
Qed.


Lemma split_group_cut (f : Q) (seed : Z) (idxs : list nat) :
  split_group (Fin f) seed idxs
  = (take (Z.to_nat (cut_of (length idxs) f)) (shuffleWithSeed idxs seed),
     drop (Z.to_nat (cut_of (length idxs) f)) (shuffleWithSeed idxs seed)).
Proof.
  unfold split_group.
  destruct (slice_cut (shuffleWithSeed idxs seed)
              (Math_max (Fin 1)
                 (Math_floor
                    (num_mul (num_of_nat (length (shuffleWithSeed idxs seed)))
                       (Fin f))))) as [-> ->].
  rewrite cut_number, shuffleWithSeed_length.
  rewrite relative_index_int by (unfold cut_of; lia).
  set (c := Z.to_nat (cut_of (length idxs) f)).
  assert (Hlen : length (shuffleWithSeed idxs seed) = length idxs)
    by apply shuffleWithSeed_length.
  destruct (Nat.le_ge_cases c (length idxs)) as [Hc|Hc].
  - by rewrite Nat.min_l.
  - rewrite Nat.min_r by done.
    rewrite <- Hlen. rewrite firstn_all, drop_all.
    rewrite take_ge, drop_ge by lia. done.
Qed.

(** ** The stratified split *)

Lemma imap_pair_fst {A B} (g : nat -> B) (l : list A) :
  (imap (fun i x => (g i, x)) l).*1 = g <$> seq 0 (length l).
Proof.
  revert g. induction l as [|x l IH]; intros g; [done|].
  simpl. f_equal. rewrite <- fmap_S_seq, <- list_fmap_compose.
  apply (IH (g ∘ S)).
Qed.

Lemma imap_pair_indices {A} (l : list A) :
  (imap pair l).*1 = seq 0 (length l).
Proof. by rewrite (imap_pair_fst id), list_fmap_id. Qed.

Lemma group_push_perm (groups : list (string * list nat)) (k : string) (i : nat) :
  concat (group_push groups k i).*2 ≡ₚ i :: concat groups.*2.
Proof.
  induction groups as [|[k' idxs] groups IH]; simpl; [done|].
  destruct (decide (k = k')); simpl.
  - rewrite <- app_assoc. simpl. by rewrite <- (Permutation_middle idxs).
  - rewrite IH. by rewrite <- (Permutation_middle idxs).
Qed.

Lemma group_push_nonempty (groups : list (string * list nat)) k i :
  Forall (fun e => e.2 <> []) groups ->
  Forall (fun e => e.2 <> []) (group_push groups k i).
Proof.
  induction 1 as [|[k' idxs] groups Hx Hg IH]; simpl.
  - repeat constructor. done.
  - destruct (decide (k = k')); constructor; simpl in *; try done.
    by destruct idxs.
Qed.

Lemma groups_of_fold (key : string) (l : list (nat * row))
    (groups : list (string * list nat)) :
  let groups' :=
    foldl (fun groups '(i, r) => group_push groups (key_or_NA (r !! key)) i)
          groups l in
  concat groups'.*2 ≡ₚ concat groups.*2 ++ l.*1
  /\ (Forall (fun e => e.2 <> []) groups -> Forall (fun e => e.2 <> []) groups').
Proof.
  revert groups. induction l as [|[i r] l IH]; intros groups; simpl.
  - by rewrite app_nil_r.
  - destruct (IH (group_push groups (key_or_NA (r !! key)) i)) as [IH1 IH2].
    split.
    + rewrite IH1, group_push_perm. by rewrite <- Permutation_middle.
    + intros H. by apply IH2, group_push_nonempty.
Qed.

Lemma groups_of_perm (rows : list row) (key : string) :
  concat (groups_of rows key).*2 ≡ₚ seq 0 (length rows).
Proof.
  unfold groups_of.
  destruct (groups_of_fold key (imap pair rows) []) as [H _].
  rewrite H. simpl. by rewrite imap_pair_indices.
Qed.

Lemma groups_of_nonempty (rows : list row) (key k : string) (idxs : list nat) :
  (k, idxs) ∈ groups_of rows key -> idxs <> [].
Proof.
  intros Hin. unfold groups_of in Hin.
  destruct (groups_of_fold key (imap pair rows) []) as [_ H].
  specialize (H (List.Forall_nil _)). rewrite Forall_forall in H.
  apply (H _ Hin).
Qed.


Lemma split_fold (frac : number) (seed : Z) (groups : list (list nat))
    (acc : partition) :
  foldl (fun acc idxs =>
           let '(tr, te) := split_group frac seed idxs in
           {| train := train acc ++ tr; test := test acc ++ te |})
        acc groups
  = {| train := train acc ++ concat (train_parts frac seed groups);
       test := test acc ++ concat (test_parts frac seed groups) |}.
Proof.
  revert acc. induction groups as [|idxs groups IH]; intros acc; simpl.
  - rewrite !app_nil_r. by destruct acc.
  - rewrite IH. destruct (split_group frac seed idxs) as [tr te]. simpl.
    by rewrite <- !app_assoc.
Qed.

Lemma stratifiedSplit_parts (rows : list row) (frac : number) (seed : Z)
    (key : string) :
  train (stratifiedSplit rows frac seed key)
  = concat (train_parts frac seed (groups_of rows key).*2)
  /\ test (stratifiedSplit rows frac seed key)
     = concat (test_parts frac seed (groups_of rows key).*2).
Proof. unfold stratifiedSplit. rewrite split_fold. done. Qed.

Lemma parts_perm (frac : number) (seed : Z) (groups : list (list nat)) :
  concat (train_parts frac seed groups) ++ concat (test_parts frac seed groups)
  ≡ₚ concat groups.
Proof.
  induction groups as [|idxs groups IH]; [done|]. simpl.
  assert (H : (split_group frac seed idxs).1 ++ (split_group frac seed idxs).2
              ≡ₚ idxs)
    by (rewrite split_group_app; apply shuffleWithSeed_perm).
  etrans; [|apply Permutation_app; [exact H | exact IH]].
  rewrite <- !app_assoc. apply Permutation_app_head.
  rewrite !app_assoc. apply Permutation_app_tail, Permutation_app_comm.
Qed.

Lemma stratifiedSplit_perm (rows : list row) (frac : number) (seed : Z)
    (key : string) :
  train (stratifiedSplit rows frac seed key)
  ++ test (stratifiedSplit rows frac seed key) ≡ₚ seq 0 (length rows).
Proof.
  destruct (stratifiedSplit_parts rows frac seed key) as [-> ->].
  by rewrite parts_perm, groups_of_perm.
Qed.



(** ** The shape of the result *)

Section shape.
Context (rows : list row) (sch : schema) (trainFrac : number).

Lemma length_Xnum : length (Xnum rows sch) = length rows.
Proof. unfold Xnum, rawNum. by rewrite !length_fmap. Qed.

Lemma length_XnumPlus : length (XnumPlus rows sch trainFrac) = length rows.
Proof. unfold XnumPlus. by rewrite length_imap, length_Xnum. Qed.

Lemma length_yLog : length (yLog rows sch trainFrac) = length rows.
Proof. unfold yLog, pricesClipped, pricesRaw. by rewrite !length_fmap. Qed.

Lemma XnumPlus_first :
  is_Some (XnumPlus rows sch trainFrac !! 0%nat) <-> rows <> [].
Proof.
  rewrite lookup_lt_is_Some, length_XnumPlus.
  destruct rows; simpl; split; (done || lia).
Qed.

Lemma Xcats_Ok :
  (exists xcats, Xcats rows sch = Ok xcats)
  <-> rows = [] \/ forall h, h ∈ catCols sch -> is_Some (catMaps sch !! h).
Proof.
  unfold Xcats. induction (catCols sch) as [|h hs IH]; simpl.
  - split; [|by eexists]. intros _. right. intros h Hh. by apply elem_of_nil in Hh.
  - split.
    + intros [xcats H]. destruct rows as [|r rs]; [by left|]. right.
      destruct (catMaps sch !! h) as [cm|] eqn:E; [|done]. simpl in H.
      match type of H with
      | context [mapM ?f hs] => destruct (mapM f hs) as [bs|e] eqn:E'
      end; [|done].
      destruct IH as [[IH|IH] _]; [by eexists|done|].
      intros h' [->|Hh']%elem_of_cons; [by rewrite E|by apply IH].
    + intros H.
      assert (H' : rows = [] \/ (forall h0, h0 ∈ hs -> is_Some (catMaps sch !! h0))).
      { destruct H as [H|H]; [by left|right]. intros; apply H; by right. }
      apply IH in H' as [bs Hbs]. rewrite Hbs.
      destruct rows as [|r rs]; [by eexists|].
      destruct H as [H|H]; [done|].
      destruct (H h) as [cm ->]; [by left|]. by eexists.
Qed.

Lemma Xcats_shape (xcats : list (list Z)) :
  Xcats rows sch = Ok xcats ->
  length xcats = length (catCols sch)
  /\ Forall (fun col => length col = length rows) xcats.
Proof.
  unfold Xcats. revert xcats.
  induction (catCols sch) as [|h hs IH]; simpl; intros xcats H.
  - by inversion H.
  - match type of H with
    | context [mapM ?f hs] => destruct (mapM f hs) as [bs|e] eqn:E'
    end.
    + destruct (IH bs eq_refl) as [IH1 IH2].
      destruct rows as [|r rs].
      * inversion H; subst. simpl. split; [by rewrite IH1|by constructor].
      * destruct (catMaps sch !! h) as [cm|]; [|done].
        inversion H; subst. simpl.
        split; [by rewrite IH1|]. constructor; [|done].
        simpl. f_equal. apply length_fmap.
    + destruct rows as [|r rs]; [done|].
      by destruct (catMaps sch !! h).
Qed.

Lemma tensor2d_Ok {A} (values r : list (list A)) :
  tensor2d values = Ok r <-> values <> [] /\ r = values.
Proof.
  destruct values as [|row values]; simpl; split.
  - done.
  - by intros [? _].
  - by intros [= <-].
  - by intros [_ ->].
Qed.

Lemma tensor2d_Throw {A} (values : list (list A)) (e : error) :
  tensor2d values = Throw e -> values = [] /\ exists msg, e = Error msg.
Proof.
  destruct values as [|row values]; simpl; [|done].
  intros [= <-]. split; [done|]. by eexists.
Qed.

Lemma gather_nil {A} (d : A) (arr : list A) (idxs : list nat) :
  gather d arr idxs = [] <-> idxs = [].
Proof. unfold gather. split; [apply fmap_nil_inv|by intros ->]. Qed.

Lemma tensor2d_gather {A} (arr : list (list A)) (idxs : list nat) :
  idxs <> [] -> tensor2d (gather [] arr idxs) = Ok (gather [] arr idxs).
Proof. intros H. apply tensor2d_Ok. by rewrite gather_nil. Qed.

Lemma trainOrder_nil : trainOrder_ rows sch trainFrac = [] <-> tr rows sch trainFrac = [].
Proof.
  unfold trainOrder_. rewrite <- !length_zero_iff_nil.
  by rewrite shuffleWithSeed_length.
Qed.

(** The steps of the call, one after the other. *)
Lemma buildTabularTensors_steps :
  buildTabularTensors rows sch trainFrac
  = match Xcats rows sch with
    | Throw e => Throw e
    | Ok xcats =>
        match XnumPlus rows sch trainFrac !! 0%nat with
        | None => Throw TypeError
        | Some first =>
            let st := numStats_of rows sch trainFrac first in
            let order := trainOrder_ rows sch trainFrac in
            let te := te rows sch trainFrac in
            match tensor2d (gather [] (XnumScaled rows sch trainFrac st) order) with
            | Throw e => Throw e
            | Ok XnumTrainT =>
                match tensor2d (gather [] (XnumScaled rows sch trainFrac st) te) with
                | Throw e => Throw e
                | Ok XnumTestT =>
                    Ok ({| XnumTrainArr := XnumTrainT;
                           XcatsTrainArrs := fmap (fun col => gather 0 col order) xcats;
                           yTrainArr := gather LNaN (yLog rows sch trainFrac) order;
                           XnumTestArr := XnumTestT;
                           XcatsTestArrs := fmap (fun col => gather 0 col te) xcats;
                           yTestArr := gather LNaN (yLog rows sch trainFrac) te;
                           numStats := st |},
                        set_numInputDim (length first) sch)
                end
            end
        end
    end.
Proof.
  unfold buildTabularTensors.
  destruct (Xcats rows sch) as [xcats|e]; [|done]. cbn [mbind result_bind].
  destruct (XnumPlus rows sch trainFrac !! 0%nat) as [first|]; [|done].
  cbv zeta.
  destruct (tensor2d (gather [] _ (trainOrder_ rows sch trainFrac))) as [a|e];
    [|done]. cbn [mbind result_bind].
  by destruct (tensor2d (gather [] _ (te rows sch trainFrac))) as [b|e].
Qed.

(** What a successful call returned. *)
Lemma buildTabularTensors_Ok (out : tensors) (sch' : schema) :
  buildTabularTensors rows sch trainFrac = Ok (out, sch') ->
  exists xcats first,
    Xcats rows sch = Ok xcats
    /\ XnumPlus rows sch trainFrac !! 0%nat = Some first
    /\ sch' = set_numInputDim (length first) sch
    /\ let st := numStats_of rows sch trainFrac first in
       let order := trainOrder_ rows sch trainFrac in
       let te := te rows sch trainFrac in
       out = {| XnumTrainArr := gather [] (XnumScaled rows sch trainFrac st) order;
                XcatsTrainArrs := fmap (fun col => gather 0 col order) xcats;
                yTrainArr := gather LNaN (yLog rows sch trainFrac) order;
                XnumTestArr := gather [] (XnumScaled rows sch trainFrac st) te;
                XcatsTestArrs := fmap (fun col => gather 0 col te) xcats;
                yTestArr := gather LNaN (yLog rows sch trainFrac) te;
                numStats := st |}.
Proof.
  rewrite buildTabularTensors_steps. intros H.
  destruct (Xcats rows sch) as [xcats|e]; [|done].
  destruct (XnumPlus rows sch trainFrac !! 0%nat) as [first|]; [|done].
  cbv zeta in H.
  destruct (tensor2d (gather [] _ (trainOrder_ rows sch trainFrac)))
    as [a|e] eqn:Ea; [|done].
  destruct (tensor2d (gather [] _ (te rows sch trainFrac))) as [b|e] eqn:Eb;
    [|done].
  apply tensor2d_Ok in Ea as [_ ->]. apply tensor2d_Ok in Eb as [_ ->].
  inversion H; subst. by exists xcats, first.
Qed.

(** Both partitions of a successful call keep a row. *)
Lemma buildTabularTensors_kept (out : tensors) (sch' : schema) :
  buildTabularTensors rows sch trainFrac = Ok (out, sch') ->
  tr rows sch trainFrac <> [] /\ te rows sch trainFrac <> [].
Proof.
  rewrite buildTabularTensors_steps. intros H.
  destruct (Xcats rows sch) as [xcats|e]; [|done].
  destruct (XnumPlus rows sch trainFrac !! 0%nat) as [first|]; [|done].
  cbv zeta in H.
  destruct (tensor2d (gather [] _ (trainOrder_ rows sch trainFrac)))
    as [a|e] eqn:Ea; [|done].
  destruct (tensor2d (gather [] _ (te rows sch trainFrac))) as [b|e] eqn:Eb;
    [|done].
  apply tensor2d_Ok in Ea as [Ha _]. apply tensor2d_Ok in Eb as [Hb _].
  rewrite gather_nil in Ha, Hb. by rewrite trainOrder_nil in Ha.
Qed.

Lemma buildTabularTensors_succeeds :
  (exists r, buildTabularTensors rows sch trainFrac = Ok r)
  <-> rows <> []
      /\ (forall h, h ∈ catCols sch -> is_Some (catMaps sch !! h))
      /\ tr rows sch trainFrac <> []
      /\ te rows sch trainFrac <> [].
Proof.
  split.
  - intros [[out sch'] H].
    destruct (buildTabularTensors_kept out sch' H) as [Htr Hte].
    apply buildTabularTensors_Ok in H as (xcats & first & Hx & Hf & _).
    assert (Hne : rows <> []) by (apply XnumPlus_first; by eexists).
    split; [done|]. split; [|done].
    destruct (proj1 Xcats_Ok) as [?|?]; [by eexists|done..].
  - intros (Hne & Hc & Htr & Hte).
    destruct (proj2 Xcats_Ok (or_intror Hc)) as [xcats Hx].
    destruct (proj2 XnumPlus_first Hne) as [first Hf].
    rewrite buildTabularTensors_steps, Hx, Hf. cbv zeta.
    rewrite <- trainOrder_nil in Htr.
    rewrite !tensor2d_gather by done. by eexists.
Qed.

(** A call that fails: with a [TypeError] on an empty list of rows or a
    categorical column without a code table, and otherwise with the error of
    [tf.tensor2d], when a partition keeps no row. *)
Lemma buildTabularTensors_Throw (e : error) :
  buildTabularTensors rows sch trainFrac = Throw e ->
  (e = TypeError
   /\ (rows = [] \/ exists h, h ∈ catCols sch /\ catMaps sch !! h = None))
  \/ ((exists msg, e = Error msg)
      /\ rows <> []
      /\ (forall h, h ∈ catCols sch -> is_Some (catMaps sch !! h))
      /\ (tr rows sch trainFrac = [] \/ te rows sch trainFrac = [])).
Proof.
  rewrite buildTabularTensors_steps. intros H.
  destruct (Xcats rows sch) as [xcats|e'] eqn:Ex.
  - assert (Hx : rows = [] \/ forall h, h ∈ catCols sch -> is_Some (catMaps sch !! h))
      by (apply Xcats_Ok; by eexists).
    destruct (XnumPlus rows sch trainFrac !! 0%nat) as [first|] eqn:Ef.
    + assert (Hne : rows <> []) by (apply XnumPlus_first; by eexists).
      destruct Hx as [?|Hx]; [done|]. right. cbv zeta in H.
      destruct (tensor2d (gather [] _ (trainOrder_ rows sch trainFrac)))
        as [a|e1] eqn:Ea.
      * destruct (tensor2d (gather [] _ (te rows sch trainFrac)))
          as [b|e2] eqn:Eb; [done|].
        injection H as <-. apply tensor2d_Throw in Eb as [Hb Hmsg].
        rewrite gather_nil in Hb. split; [done|]. split; [done|].
        split; [done|]. by right.
      * injection H as <-. apply tensor2d_Throw in Ea as [Ha Hmsg].
        rewrite gather_nil, trainOrder_nil in Ha. split; [done|].
        split; [done|]. split; [done|]. by left.
    + injection H as <-. left. split; [done|]. left.
      destruct (decide (rows = [])) as [?|Hne]; [done|].
      apply XnumPlus_first in Hne as [? ?]. congruence.
  - injection H as <-. left.
    assert (Hno : ~ (rows = [] \/ forall h, h ∈ catCols sch -> is_Some (catMaps sch !! h))).
    { intros Hx. apply Xcats_Ok in Hx as [? ?]. congruence. }
    assert (Hte : e' = TypeError).
    { clear -Ex. unfold Xcats in Ex. induction (catCols sch) as [|h hs IH];
        [done|]. simpl in Ex.
      destruct rows as [|r rs].
      - simpl in Ex.
        match type of Ex with
        | context [mapM ?f hs] => destruct (mapM f hs) as [bs|e0] eqn:E'
        end; [done|]. simpl in Ex. injection Ex as <-. by apply IH.
      - destruct (catMaps sch !! h) as [cm|]; [|by injection Ex as <-].
        simpl in Ex.
        match type of Ex with
        | context [mapM ?f hs] => destruct (mapM f hs) as [bs|e0] eqn:E'
        end; [done|]. simpl in Ex. injection Ex as <-. by apply IH. }
    split; [done|]. right.
    destruct (decide (Exists (fun h => catMaps sch !! h = None) (catCols sch)))
      as [Hex|Hnex].
    + apply Exists_exists in Hex as (h & Hh & Hnone). by exists h.
    + exfalso. apply Hno. right. intros h Hh.
      destruct (catMaps sch !! h) as [cm|] eqn:E; [by eexists|].
      exfalso. apply Hnex. apply Exists_exists. by exists h.
Qed.

(** The valid indices are those with a finite transformed target. *)
Lemma elem_of_valid (i : nat) :
  Z.of_nat i ∈ valid rows sch trainFrac
  <-> log_isFinite (default LNaN (yLog rows sch trainFrac !! i)) = true.
Proof.
  unfold valid. rewrite list_elem_of_filter, elem_of_lookup_imap. split.
  - intros (_ & j & v & Hjv & Hl). destruct (log_isFinite v) eqn:E; [|lia].
    apply Nat2Z.inj in Hjv as ->. by rewrite Hl.
  - intros H. split; [lia|].
    destruct (yLog rows sch trainFrac !! i) as [v|] eqn:E; [|done].
    exists i, v. simpl in H. by rewrite H.
Qed.

Lemma tr_filter :
  tr rows sch trainFrac
  = filter (fun i => log_isFinite (default LNaN (yLog rows sch trainFrac !! i)) = true)
           (trIdx rows sch trainFrac).
Proof. apply list_filter_iff. intros i. apply elem_of_valid. Qed.

Lemma te_filter :
  te rows sch trainFrac
  = filter (fun i => log_isFinite (default LNaN (yLog rows sch trainFrac !! i)) = true)
           (teIdx rows sch trainFrac).
Proof. apply list_filter_iff. intros i. apply elem_of_valid. Qed.
End shape.


(** ** Row counts *)

(** C9 — after assembly, in each partition independently, the numeric matrix
    has as many rows as the target vector has entries, and so has every
    categorical code array (one per categorical column).  The targets kept are
    exactly those of the partition's indices whose transformed target is finite,
    and every target in the result is finite. *)
Theorem C9_row_count_consistency (rows : list row) (sch : schema)
    (trainFrac : number) (out : tensors) (sch' : schema) :
  buildTabularTensors rows sch trainFrac = Ok (out, sch') ->
  let finite i :=
    log_isFinite (default LNaN (yLog rows sch trainFrac !! i)) = true in
  (length (XnumTrainArr out) = length (yTrainArr out)
   /\ Forall (fun col => length col = length (yTrainArr out)) (XcatsTrainArrs out)
   /\ length (yTrainArr out) = length (filter finite (trIdx rows sch trainFrac)))
  /\ (length (XnumTestArr out) = length (yTestArr out)
      /\ Forall (fun col => length col = length (yTestArr out)) (XcatsTestArrs out)
      /\ length (yTestArr out) = length (filter finite (teIdx rows sch trainFrac)))
  /\ length (XcatsTrainArrs out) = length (catCols sch)
  /\ length (XcatsTestArrs out) = length (catCols sch)
  /\ Forall (fun y => log_isFinite y = true) (yTrainArr out ++ yTestArr out).
Proof.
  intros H finite.
  apply buildTabularTensors_Ok in H as (xcats & first & Hx & _ & _ & ->).
  apply Xcats_shape in Hx as [Hlen _]. cbn.
  unfold gather. rewrite !length_fmap.
  assert (Horder : trainOrder_ rows sch trainFrac ≡ₚ tr rows sch trainFrac)
    by apply shuffleWithSeed_perm.
  repeat split; try done.
  - apply Forall_fmap, Forall_forall. intros col _. simpl. by rewrite length_fmap.
  - by rewrite Horder, tr_filter.
  - apply Forall_fmap, Forall_forall. intros col _. simpl. by rewrite length_fmap.
  - by rewrite te_filter.
  - apply Forall_app. split; apply Forall_fmap, Forall_forall; intros i Hi; simpl.
    + rewrite Horder, tr_filter in Hi. by apply list_elem_of_filter in Hi as [Hi _].
    + rewrite te_filter in Hi. by apply list_elem_of_filter in Hi as [Hi _].
Qed.

Lemma demo_inputs_accepted :
  demo_rows <> []
  /\ (forall h, h ∈ catCols demo_schema -> is_Some (catMaps demo_schema !! h))
  /\ tr demo_rows demo_schema (Fin (4 # 5)) <> []
  /\ te demo_rows demo_schema (Fin (4 # 5)) <> [].
Proof.
  split; [discriminate|]. split.
  - intros h ->%list_elem_of_singleton. vm_compute. by eexists.
  - split; vm_compute; discriminate.
Qed.

Lemma C9_row_count_consistency_witness :
  exists out sch',
    buildTabularTensors demo_rows demo_schema (Fin (4 # 5)) = Ok (out, sch')
    /\ (length (XnumTrainArr out) = length (yTrainArr out)
        /\ length (yTrainArr out) = 4%nat)
    /\ (length (XnumTestArr out) = length (yTestArr out)
        /\ length (yTestArr out) = 2%nat).
Proof.
  destruct (proj2 (buildTabularTensors_succeeds demo_rows demo_schema (Fin (4 # 5)))
              demo_inputs_accepted) as [[out sch'] E].
  exists out, sch'. split; [exact E|].
  destruct (C9_row_count_consistency _ _ _ _ _ E)
    as ((H1 & _ & H2) & (H3 & _ & H4) & _).
  split; (split; [assumption|]).
  - etrans; [exact H2|]. vm_compute. reflexivity.
  - etrans; [exact H4|]. vm_compute. reflexivity.
Defined.

(** ** Configuration errors *)

Lemma push_char_nonempty (c : ascii) (lines : list (list ascii)) :
  push_char c lines <> [].
Proof. by destruct lines. Qed.

Lemma split_lines_nonempty (l : list ascii) : split_lines l <> [].
Proof.
  destruct l as [|c l]; simpl; [done|].
  destruct (decide (c = "010"%char)); [done|].
  destruct l as [|c' l]; [apply push_char_nonempty|].
  destruct (bool_decide (c = "013"%char /\ c' = "010"%char)); [done|].
  apply push_char_nonempty.
Qed.

Lemma parseCarsCSV_header (text : string) :
  if bool_decide ("price" ∈ header_of text)
  then exists rows, parseCarsCSV text = Ok rows
  else parseCarsCSV text = Throw (Error "Column 'price' not found").
Proof.
  unfold parseCarsCSV.
  pose proof (split_lines_nonempty (trim (list_ascii_of_string text))) as Hne.
  destruct (split_lines (trim (list_ascii_of_string text))) as [|first lines];
    [done|].
  destruct (bool_decide ("price" ∈ header_of text)); [by eexists|done].
Qed.

(** Without the key column every row falls into the one group ["__NA__"]. *)
Lemma groups_of_absent_key (rows : list row) (key : string) :
  rows <> [] ->
  (forall r, r ∈ rows -> r !! key = None) ->
  groups_of rows key = [("__NA__", seq 0 (length rows))].
Proof.
  intros Hne Habs. unfold groups_of.
  assert (Hfold : forall (l : list (nat * row)) (acc : list nat),
             (forall e, e ∈ l -> e.2 !! key = None) ->
             foldl (fun groups '(i, r) => group_push groups (key_or_NA (r !! key)) i)
                   [("__NA__", acc)] l
             = [("__NA__", acc ++ l.*1)]).
  { induction l as [|[i r] l IH]; intros acc Hl; simpl.
    - by rewrite app_nil_r.
    - pose proof (Hl (i, r) ltac:(left)) as Hr. simpl in Hr. rewrite Hr. simpl.
      rewrite IH by (intros e He; apply Hl; by right).
      by rewrite <- app_assoc. }
  destruct rows as [|r rows]; [done|].
  change (imap pair (r :: rows)) with ((0%nat, r) :: imap (pair ∘ S) rows).
  simpl. rewrite (Habs r) by left. simpl.
  rewrite Hfold.
  - simpl. do 3 f_equal.
    change (imap (pair ∘ S) rows) with (imap (fun i x => (S i, x)) rows).
    rewrite (imap_pair_fst S). by rewrite fmap_S_seq.
  - intros [i r'] [j [y [Heq Hl]]]%elem_of_lookup_imap. simpl in *.
    inversion Heq; subst. apply Habs. right. by eapply list_elem_of_lookup_2.
Qed.

(** Rows without the target column: no target is finite, no row is kept, and
    the call fails. *)
Lemma pricesRaw_absent (rows : list row) :
  (forall r, r ∈ rows -> r !! "price" = None) ->
  Forall (fun v => v = NaN) (pricesRaw rows).
Proof.
  intros Habs. unfold pricesRaw. apply Forall_fmap, Forall_forall.
  intros r Hr. simpl. by rewrite (Habs r Hr).
Qed.

Lemma tr_absent_target (rows : list row) (sch : schema) (trainFrac : number) :
  (forall r, r ∈ rows -> r !! "price" = None) ->
  tr rows sch trainFrac = [].
Proof.
  intros Habs. rewrite tr_filter.
  induction (trIdx rows sch trainFrac) as [|i l IH]; [done|].
  rewrite filter_cons_False; [done|].
  unfold yLog, pricesClipped. cbv zeta. rewrite !list_lookup_fmap.
  destruct (pricesRaw rows !! i) as [v|] eqn:E; [|done].
  pose proof (pricesRaw_absent rows Habs) as Hall.
  rewrite Forall_lookup in Hall. rewrite (Hall i v E). done.
Qed.

(** C8, as the code has it — a missing target column is an error in both
    places: [parseCarsCSV] throws "Column 'price' not found" exactly when the
    header has no [price] cell, and on rows without a [price] cell
    [buildTabularTensors] finds no finite target, keeps no row and fails.  A
    missing stratification key is no error (all rows form the single group
    ["__NA__"]), nor are fewer training rows than K (the five folds are made
    whatever the number of training rows is): the call returns exactly when
    there is a row, every categorical column has its code table, and each
    partition keeps a row with a finite transformed target.  It fails with a
    [TypeError] without rows or without a code table, and with the error of
    [tf.tensor2d] when a partition keeps no row. *)
Theorem C8_configuration_errors :
  (forall text : string,
      "price" ∉ header_of text ->
      parseCarsCSV text = Throw (Error "Column 'price' not found"))
  /\ (forall text : string,
         "price" ∈ header_of text -> exists rows, parseCarsCSV text = Ok rows)
  /\ (forall (rows : list row) (sch : schema) (trainFrac : number),
         (forall r, r ∈ rows -> r !! "price" = None) ->
         exists e, buildTabularTensors rows sch trainFrac = Throw e)
  /\ (forall (rows : list row) (sch : schema) (trainFrac : number),
         (exists r, buildTabularTensors rows sch trainFrac = Ok r)
         <-> rows <> []
             /\ (forall h, h ∈ catCols sch -> is_Some (catMaps sch !! h))
             /\ tr rows sch trainFrac <> []
             /\ te rows sch trainFrac <> [])
  /\ (forall (rows : list row) (sch : schema) (trainFrac : number) (e : error),
         buildTabularTensors rows sch trainFrac = Throw e ->
         (e = TypeError
          /\ (rows = [] \/ exists h, h ∈ catCols sch /\ catMaps sch !! h = None))
         \/ ((exists msg, e = Error msg)
             /\ rows <> []
             /\ (forall h, h ∈ catCols sch -> is_Some (catMaps sch !! h))
             /\ (tr rows sch trainFrac = [] \/ te rows sch trainFrac = [])))
  /\ (forall (rows : list row) (key : string),
         rows <> [] -> (forall r, r ∈ rows -> r !! key = None) ->
         groups_of rows key = [("__NA__", seq 0 (length rows))])
  /\ (forall (rows : list row) (sch : schema) (trainFrac : number),
         length (folds rows sch trainFrac) = K).
Proof.
  split; [|split; [|split; [|split; [|split; [|split]]]]].
  - intros text H. pose proof (parseCarsCSV_header text) as Hp.
    by rewrite bool_decide_eq_false_2 in Hp.
  - intros text H. pose proof (parseCarsCSV_header text) as Hp.
    by rewrite bool_decide_eq_true_2 in Hp.
  - intros rows sch trainFrac Habs.
    destruct (buildTabularTensors rows sch trainFrac) as [[out sch']|e] eqn:E;
      [|by exists e].
    apply buildTabularTensors_kept in E as [Htr _].
    by rewrite (tr_absent_target rows sch trainFrac Habs) in Htr.
  - apply buildTabularTensors_succeeds.
  - apply buildTabularTensors_Throw.
  - apply groups_of_absent_key.
  - intros rows sch trainFrac. unfold folds, deal.
    generalize (imap pair (shuffleWithSeed (trIdx rows sch trainFrac)
                             (kfold (seeds_of sch)))).
    intros l. assert (H : length (replicate K ([] : list nat)) = K)
      by apply length_replicate.
    revert H. generalize (replicate K ([] : list nat)).
    induction l as [|[k i] l IH]; intros arr H; simpl; [done|].
    apply IH. by rewrite length_alter.
Qed.

Lemma C8_configuration_errors_witness :
  ("price" ∉ header_of no_price_text)
  /\ parseCarsCSV no_price_text = Throw (Error "Column 'price' not found")
  /\ exists e, buildTabularTensors no_price_rows plain_schema (Fin (4 # 5)) = Throw e.
Proof.
  assert (H : "price" ∉ header_of no_price_text).
  { assert (Hh : header_of no_price_text = ["make"; "cost"]) by (by vm_compute).
    rewrite Hh. intros Hin.
    repeat (apply elem_of_cons in Hin as [Hin|Hin]; [discriminate|]).
    inversion Hin. }
  split; [exact H|]. split.
  - apply (proj1 C8_configuration_errors no_price_text H).
  - apply (proj1 (proj2 (proj2 C8_configuration_errors))).
    intros r Hr. unfold no_price_rows in Hr.
    repeat (apply elem_of_cons in Hr as [->|Hr]; [by vm_compute|]).
    by apply elem_of_nil in Hr.
Defined.

(** C8, as stated, fails: on two rows that have no [make] column, one of which
    becomes the only training row (fewer than K = 5), the pipeline returns its
    arrays. *)
Lemma C8_counterexample :
  (forall r, r ∈ no_make_rows -> r !! "make" = None)
  /\ trIdx no_make_rows plain_schema (Fin (4 # 5)) = [1%nat]
  /\ (length (trIdx no_make_rows plain_schema (Fin (4 # 5))) < K)%nat
  /\ exists out sch',
       buildTabularTensors no_make_rows plain_schema (Fin (4 # 5)) = Ok (out, sch')
       /\ yTrainArr out = [Log1p 20] /\ yTestArr out = [Log1p 20].
Proof.
  split.
  { intros r Hr. unfold no_make_rows in Hr.
    repeat (apply elem_of_cons in Hr as [->|Hr]; [by vm_compute|]).
    by apply elem_of_nil in Hr. }
  split; [by vm_compute|]. split; [vm_compute; lia|].
  eexists _, _. vm_compute. done.
Qed.

(** ** Output ordering *)

(** C7, as the code has it — the training arrays follow one permutation, drawn
    with the [trainOrder] seed, of the training indices that have a finite
    transformed target.  The test arrays follow the test list of the splitter,
    restricted to the indices with a finite transformed target and not
    permuted again: group after group in the order the makes first appear, and
    inside a group the shuffled indices behind the cut. *)
Theorem C7_output_ordering (rows : list row) (sch : schema)
    (trainFrac : number) (out : tensors) (sch' : schema) :
  buildTabularTensors rows sch trainFrac = Ok (out, sch') ->
  let finite i :=
    log_isFinite (default LNaN (yLog rows sch trainFrac !! i)) = true in
  let tr := filter finite (trIdx rows sch trainFrac) in
  let te := filter finite (teIdx rows sch trainFrac) in
  let order := shuffleWithSeed tr (trainOrder (seeds_of sch)) in
  let scaled := XnumScaled rows sch trainFrac (numStats out) in
  order ≡ₚ tr
  /\ XnumTrainArr out = gather [] scaled order
  /\ yTrainArr out = gather LNaN (yLog rows sch trainFrac) order
  /\ XnumTestArr out = gather [] scaled te
  /\ yTestArr out = gather LNaN (yLog rows sch trainFrac) te
  /\ (exists xcats,
        Xcats rows sch = Ok xcats
        /\ XcatsTrainArrs out = (fun col => gather 0 col order) <$> xcats
        /\ XcatsTestArrs out = (fun col => gather 0 col te) <$> xcats)
  /\ teIdx rows sch trainFrac
     = concat (test_parts trainFrac (split (seeds_of sch))
                          (groups_of rows "make").*2).
Proof.
  intros H finite tr0 te0 order scaled.
  apply buildTabularTensors_Ok in H as (xcats & first & Hx & _ & _ & ->).
  subst order scaled tr0 te0 finite. cbn.
  unfold trainOrder_. rewrite <- tr_filter, <- te_filter.
  split; [apply shuffleWithSeed_perm|].
  repeat (split; [reflexivity|]).
  split; [by exists xcats|].
  apply stratifiedSplit_parts.
Qed.

Lemma interleaved_inputs_accepted :
  interleaved_rows <> []
  /\ (forall h, h ∈ catCols demo_schema -> is_Some (catMaps demo_schema !! h))
  /\ tr interleaved_rows demo_schema (Fin (4 # 5)) <> []
  /\ te interleaved_rows demo_schema (Fin (4 # 5)) <> [].
Proof.
  split; [discriminate|]. split.
  - intros h ->%list_elem_of_singleton. vm_compute. by eexists.
  - split; vm_compute; discriminate.
Qed.

Lemma C7_output_ordering_witness :
  exists out sch',
    buildTabularTensors interleaved_rows demo_schema (Fin (4 # 5)) = Ok (out, sch')
    /\ yTestArr out
       = gather LNaN (yLog interleaved_rows demo_schema (Fin (4 # 5)))
           (filter (fun i =>
                      log_isFinite
                        (default LNaN
                           (yLog interleaved_rows demo_schema (Fin (4 # 5)) !! i))
                      = true)
                   (teIdx interleaved_rows demo_schema (Fin (4 # 5)))).
Proof.
  destruct (proj2 (buildTabularTensors_succeeds interleaved_rows demo_schema
                     (Fin (4 # 5))) interleaved_inputs_accepted)
    as [[out sch'] E].
  exists out, sch'. split; [exact E|].
  apply (C7_output_ordering _ _ _ _ _ E).
Defined.

(** C7, as stated, fails: with the makes A A B B B A the splitter's test list
    is [5; 4] (row 5 of make A before row 4 of make B), and the test arrays
    come in that order, not in ascending row order. *)
Lemma C7_counterexample :
  teIdx interleaved_rows demo_schema (Fin (4 # 5)) = [5; 4]%nat
  /\ te interleaved_rows demo_schema (Fin (4 # 5)) = [5; 4]%nat
  /\ Xcats interleaved_rows demo_schema = Ok [[1; 1; 2; 2; 2; 1]]
  /\ exists out sch',
       buildTabularTensors interleaved_rows demo_schema (Fin (4 # 5))
       = Ok (out, sch')
       /\ XcatsTestArrs out = [[1; 2]]
       /\ XcatsTestArrs out <> [gather 0 [1; 1; 2; 2; 2; 1] [4; 5]%nat].
Proof.
  split; [by vm_compute|]. split; [by vm_compute|]. split; [by vm_compute|].
  eexists _, _. vm_compute. done.
Qed.

(** ** Finite numbers *)

Lemma finite_Fin (x : number) : finite x <-> exists q, x = Fin q.
Proof.
  unfold finite. destruct x; simpl; split; try done; try (by eexists);
    by intros [? ?].
Qed.

Lemma Qred_inject_Z (z : Z) : Qred (inject_Z z) = inject_Z z.
Proof.
  unfold Qred, inject_Z. simpl.
  pose proof (Z.ggcd_gcd z 1) as Hg.
  pose proof (Z.ggcd_correct_divisors z 1) as Hd.
  destruct (Z.ggcd z 1) as [g [n d]]. simpl in *.
  rewrite Z.gcd_1_r in Hg. subst g. destruct Hd as [Hn Hd].
  rewrite Z.mul_1_l in Hn, Hd. by subst.
Qed.

Lemma fin_inject_Z (q : Q) (z : Z) : (q == inject_Z z)%Q -> fin q = Fin (inject_Z z).
Proof. intros H. rewrite (fin_eq _ _ H). unfold fin. by rewrite Qred_inject_Z. Qed.

Lemma sum_finite (l : list number) (a : number) :
  finite a -> Forall finite l -> finite (foldl num_add a l).
Proof.
  revert a. induction l as [|x l IH]; intros a Ha Hl; simpl; [done|].
  inversion Hl; subst. apply IH; [|done].
  apply finite_Fin in Ha as [qa ->]. by apply finite_Fin in H1 as [qx ->].
Qed.

Lemma max_1_length (n : nat) :
  Math_max (Fin 1) (num_of_nat n) = Fin (inject_Z (Z.max 1 (Z.of_nat n))).
Proof.
  unfold Math_max, num_of_nat.
  destruct (Qle_bool 1 (inject_Z (Z.of_nat n))) eqn:E.
  - apply Qle_bool_iff in E. change 1%Q with (inject_Z 1) in E.
    rewrite <- Zle_Qle in E. by rewrite Z.max_r.
  - assert (~ (1 <= Z.of_nat n)).
    { intros H. rewrite Zle_Qle in H. apply Qle_bool_iff in H.
      change (inject_Z 1) with 1%Q in H. congruence. }
    rewrite Z.max_l by lia. done.
Qed.

Lemma num_div_finite (a b : Q) : ~ (b == 0)%Q -> num_div (Fin a) (Fin b) = fin (a / b).
Proof.
  intros Hb. unfold num_div.
  destruct (Qeq_bool b 0) eqn:E; [|done]. by apply Qeq_bool_iff in E.
Qed.

(** ** The global mean and the unknown entries *)

Lemma lookup_foldl_insert {V} (g : string -> V) (l : list string) (c : string)
    (obj : gmap string V) :
  foldl (fun obj c => <[c := g c]> obj) obj l !! c
  = if decide (c ∈ l) then Some (g c) else obj !! c.
Proof.
  revert obj. induction l as [|c' l IH]; intros obj; simpl.
  - done.
  - rewrite IH. destruct (decide (c ∈ l)) as [Hin|Hnin].
    + by rewrite decide_True by (by right).
    + destruct (decide (c = c')) as [->|Hne].
      * rewrite lookup_insert_eq. by rewrite decide_True by left.
      * rewrite lookup_insert_ne by done.
        rewrite decide_False; [done|]. by intros [?|?]%elem_of_cons.
Qed.

Section global_mean.
Context (rows : list row) (sch : schema) (trainFrac : number).

Lemma trainPrices_finite : Forall finite (trainPrices rows sch trainFrac).
Proof.
  unfold trainPrices. cbv zeta. apply Forall_forall. intros x Hx.
  apply list_elem_of_filter in Hx as [Hx _]. by apply Is_true_true in Hx.
Qed.

Lemma globalMean_finite : finite (globalMean rows sch trainFrac).
Proof.
  unfold globalMean. cbv zeta. rewrite max_1_length.
  pose proof (sum_finite (trainPrices rows sch trainFrac) (Fin 0) eq_refl
                trainPrices_finite) as [q Hq]%finite_Fin.
  rewrite Hq, num_div_finite; [done|].
  intros H. apply (proj1 (inject_Z_injective _ 0)) in H. lia.
Qed.

Lemma encMapsByFold_lookup (c : string) :
  encMapsByFold rows sch trainFrac !! c
  = if decide (c ∈ encCols)
    then Some ((fun f => encoding_map rows sch trainFrac c (trF rows sch trainFrac f))
                 <$> seq 0 K)
    else None.
Proof.
  unfold encMapsByFold.
  rewrite (lookup_foldl_insert
             (fun c => (fun f => encoding_map rows sch trainFrac c
                                   (trF rows sch trainFrac f)) <$> seq 0 K)).
  by rewrite lookup_empty.
Qed.

Lemma fullMaps_lookup (c : string) :
  fullMaps rows sch trainFrac !! c
  = if decide (c ∈ encCols)
    then Some (encoding_map rows sch trainFrac c (trIdx rows sch trainFrac))
    else None.
Proof.
  unfold fullMaps. cbv zeta.
  rewrite (lookup_foldl_insert
             (fun c => encoding_map rows sch trainFrac c (trIdx rows sch trainFrac))).
  by rewrite lookup_empty.
Qed.



Lemma trF_subseteq (f : nat) :
  trF rows sch trainFrac f ⊆ trIdx rows sch trainFrac.
Proof. unfold trF. cbv zeta. intros i Hi. by apply list_elem_of_filter in Hi as []. Qed.
End global_mean.




(** ** What the fitted statistics depend on *)

Section leakage.
Context (rows1 rows2 : list row) (sch : schema) (trainFrac : number).
Hypothesis same_split :
  stratifiedSplit rows1 trainFrac (split (seeds_of sch)) "make"
  = stratifiedSplit rows2 trainFrac (split (seeds_of sch)) "make".
Hypothesis same_train :
  forall i, i ∈ trIdx rows1 sch trainFrac -> rows1 !! i = rows2 !! i.

Lemma same_trIdx : trIdx rows1 sch trainFrac = trIdx rows2 sch trainFrac.
Proof. unfold trIdx. by rewrite same_split. Qed.

Lemma same_teIdx : teIdx rows1 sch trainFrac = teIdx rows2 sch trainFrac.
Proof. unfold teIdx. by rewrite same_split. Qed.

Lemma same_price (i : nat) :
  i ∈ trIdx rows1 sch trainFrac -> pricesRaw rows1 !! i = pricesRaw rows2 !! i.
Proof.
  intros Hi. unfold pricesRaw. rewrite !list_lookup_fmap. by rewrite same_train.
Qed.

Lemma same_category (i : nat) (c : string) :
  i ∈ trIdx rows1 sch trainFrac -> category rows1 i c = category rows2 i c.
Proof. intros Hi. unfold category. by rewrite same_train. Qed.

Lemma same_trainPrices :
  trainPrices rows1 sch trainFrac = trainPrices rows2 sch trainFrac.
Proof.
  unfold trainPrices. cbv zeta. rewrite <- same_trIdx. f_equal.
  apply list_fmap_ext. intros j i Hi. rewrite same_price; [done|].
  by eapply list_elem_of_lookup_2.
Qed.

Lemma same_pLo : pLo rows1 sch trainFrac = pLo rows2 sch trainFrac.
Proof. unfold pLo. by rewrite same_trainPrices. Qed.

Lemma same_pHi : pHi rows1 sch trainFrac = pHi rows2 sch trainFrac.
Proof. unfold pHi. by rewrite same_trainPrices. Qed.

Lemma same_globalMean :
  globalMean rows1 sch trainFrac = globalMean rows2 sch trainFrac.
Proof. unfold globalMean. by rewrite same_trainPrices. Qed.

Lemma same_folds : folds rows1 sch trainFrac = folds rows2 sch trainFrac.
Proof. unfold folds. by rewrite same_trIdx. Qed.

Lemma same_foldOf : foldOf rows1 sch trainFrac = foldOf rows2 sch trainFrac.
Proof. unfold foldOf. by rewrite same_folds. Qed.

Lemma same_trF (f : nat) : trF rows1 sch trainFrac f = trF rows2 sch trainFrac f.
Proof. unfold trF. by rewrite same_foldOf, same_trIdx. Qed.

Lemma same_accumulate (c : string) (idxs : list nat) :
  idxs ⊆ trIdx rows1 sch trainFrac ->
  accumulate rows1 c idxs = accumulate rows2 c idxs.
Proof.
  unfold accumulate. cbv zeta.
  generalize (([], []) : list (string * number) * list (string * number)).
  induction idxs as [|i idxs IH]; intros [sums counts] Hsub; simpl; [done|].
  assert (Hi : i ∈ trIdx rows1 sch trainFrac) by (apply Hsub; left).
  rewrite <- (same_price i Hi), <- (same_category i c Hi).
  apply IH. intros j Hj. apply Hsub. by right.
Qed.

Lemma same_encoding_map (c : string) (idxs : list nat) :
  idxs ⊆ trIdx rows1 sch trainFrac ->
  encoding_map rows1 sch trainFrac c idxs = encoding_map rows2 sch trainFrac c idxs.
Proof.
  intros Hsub. unfold encoding_map.
  by rewrite same_globalMean, (same_accumulate c idxs Hsub).
Qed.

Lemma same_encMapsByFold :
  encMapsByFold rows1 sch trainFrac = encMapsByFold rows2 sch trainFrac.
Proof.
  apply map_eq. intros c. rewrite !encMapsByFold_lookup.
  destruct (decide (c ∈ encCols)); [|done]. f_equal.
  apply list_fmap_ext. intros j f _.
  rewrite <- same_trF. apply same_encoding_map, trF_subseteq.
Qed.

Lemma same_fullMaps :
  fullMaps rows1 sch trainFrac = fullMaps rows2 sch trainFrac.
Proof.
  apply map_eq. intros c. rewrite !fullMaps_lookup.
  destruct (decide (c ∈ encCols)); [|done]. f_equal.
  rewrite <- same_trIdx. by apply same_encoding_map.
Qed.

Lemma same_encValue (i : nat) (c : string) :
  i ∈ trIdx rows1 sch trainFrac ->
  encValue rows1 (foldOf rows1 sch trainFrac) (encMapsByFold rows1 sch trainFrac)
    (fullMaps rows1 sch trainFrac) i c
  = encValue rows2 (foldOf rows2 sch trainFrac) (encMapsByFold rows2 sch trainFrac)
      (fullMaps rows2 sch trainFrac) i c.
Proof.
  intros Hi. unfold encValue.
  by rewrite same_foldOf, same_encMapsByFold, same_fullMaps, (same_category i c Hi).
Qed.
End leakage.


Lemma imap_index {A B} (g : nat -> B) (l : list A) :
  imap (fun j _ => g j) l = g <$> seq 0 (length l).
Proof.
  revert g. induction l as [|x l IH]; intros g; [done|].
  simpl. f_equal. rewrite <- fmap_S_seq, <- list_fmap_compose.
  apply (IH (g ∘ S)).
Qed.

Section matrices.
Context (rows : list row) (sch : schema) (trainFrac : number).

Lemma Xnum_row_length (i : nat) (r : list number) :
  Xnum rows sch !! i = Some r -> length r = length (numCols sch).
Proof.
  unfold Xnum, rawNum. cbv zeta. rewrite !list_lookup_fmap.
  destruct (rows !! i) as [x|]; [|done]. simpl. intros [= <-].
  by rewrite length_imap, length_fmap.
Qed.

Lemma XnumPlus_lookup (i : nat) :
  XnumPlus rows sch trainFrac !! i
  = (fun r => r ++ ((fun c =>
                       to_number
                         (encValue rows (foldOf rows sch trainFrac)
                            (encMapsByFold rows sch trainFrac)
                            (fullMaps rows sch trainFrac) i c)) <$> encCols))
    <$> Xnum rows sch !! i.
Proof. unfold XnumPlus. cbv zeta. by rewrite list_lookup_imap. Qed.

Lemma XnumPlus_row_length (i : nat) (r : list number) :
  XnumPlus rows sch trainFrac !! i = Some r ->
  length r = (length (numCols sch) + length encCols)%nat.
Proof.
  rewrite XnumPlus_lookup.
  destruct (Xnum rows sch !! i) as [x|] eqn:E; [|done]. simpl. intros [= <-].
  rewrite length_app, length_fmap. by rewrite (Xnum_row_length i x E).
Qed.

Lemma numStats_of_columns (first : list number) :
  numStats_of rows sch trainFrac first
  = (fun j => robustStats ((fun r => to_number (r !! j))
                             <$> trainNum rows sch trainFrac))
    <$> seq 0 (length first).
Proof. unfold numStats_of. cbv zeta. apply imap_index. Qed.
End matrices.

Section leakage_stats.
Context (rows1 rows2 : list row) (sch : schema) (trainFrac : number).
Hypothesis same_split :
  stratifiedSplit rows1 trainFrac (split (seeds_of sch)) "make"
  = stratifiedSplit rows2 trainFrac (split (seeds_of sch)) "make".
Hypothesis same_train :
  forall i, i ∈ trIdx rows1 sch trainFrac -> rows1 !! i = rows2 !! i.

Lemma same_rawNum (i : nat) :
  i ∈ trIdx rows1 sch trainFrac -> rawNum rows1 sch !! i = rawNum rows2 sch !! i.
Proof.
  intros Hi. unfold rawNum. rewrite !list_lookup_fmap. by rewrite same_train.
Qed.

Lemma same_Xnum (i : nat) :
  medians rows1 sch = medians rows2 sch ->
  i ∈ trIdx rows1 sch trainFrac -> Xnum rows1 sch !! i = Xnum rows2 sch !! i.
Proof.
  intros Hmed Hi. unfold Xnum. cbv zeta. rewrite !list_lookup_fmap.
  by rewrite same_rawNum, Hmed.
Qed.

(** The encoded cells of a training row. *)
Lemma same_encoded_cells (i : nat) :
  i ∈ trIdx rows1 sch trainFrac ->
  drop (length (numCols sch)) (default [] (XnumPlus rows1 sch trainFrac !! i))
  = drop (length (numCols sch)) (default [] (XnumPlus rows2 sch trainFrac !! i)).
Proof.
  intros Hi. rewrite !XnumPlus_lookup.
  pose proof (Xnum_row_length rows1 sch i) as H1.
  pose proof (Xnum_row_length rows2 sch i) as H2.
  assert (Hsome : is_Some (Xnum rows1 sch !! i) <-> is_Some (Xnum rows2 sch !! i)).
  { unfold Xnum, rawNum. cbv zeta. rewrite !list_lookup_fmap, !fmap_is_Some.
    by rewrite same_train. }
  destruct (Xnum rows1 sch !! i) as [r1|], (Xnum rows2 sch !! i) as [r2|]; simpl.
  - rewrite !drop_app_length' by (symmetry; auto).
    apply list_fmap_ext. intros j c _.
    by rewrite (same_encValue rows1 rows2 sch trainFrac same_split same_train i c Hi).
  - destruct Hsome as [Hs _]. by destruct Hs.
  - destruct Hsome as [_ Hs]. by destruct Hs.
  - done.
Qed.

Lemma same_trainNum :
  medians rows1 sch = medians rows2 sch ->
  trainNum rows1 sch trainFrac = trainNum rows2 sch trainFrac.
Proof.
  intros Hmed. unfold trainNum. cbv zeta.
  rewrite <- (same_trIdx rows1 rows2 sch trainFrac same_split).
  apply list_fmap_ext. intros j i Hi%list_elem_of_lookup_2.
  rewrite !XnumPlus_lookup, (same_Xnum i Hmed Hi).
  destruct (Xnum rows2 sch !! i) as [r|]; [|done]. simpl. f_equal.
  apply list_fmap_ext. intros k c _.
  by rewrite (same_encValue rows1 rows2 sch trainFrac same_split same_train i c Hi).
Qed.

Lemma same_encoded_columns (j : nat) :
  (length (numCols sch) <= j)%nat ->
  (fun r : list number => to_number (r !! j)) <$> trainNum rows1 sch trainFrac
  = (fun r : list number => to_number (r !! j)) <$> trainNum rows2 sch trainFrac.
Proof.
  intros Hj. unfold trainNum. cbv zeta.
  rewrite <- (same_trIdx rows1 rows2 sch trainFrac same_split).
  rewrite <- !list_fmap_compose.
  apply list_fmap_ext. intros k i Hi%list_elem_of_lookup_2. simpl.
  pose proof (same_encoded_cells i Hi) as Hd.
  replace j with (length (numCols sch) + (j - length (numCols sch)))%nat by lia.
  rewrite <- !lookup_drop. by rewrite Hd.
Qed.
End leakage_stats.

(** C1, as the code has it — take two inputs with the same split that agree on
    every row of the train partition (the test rows may differ).  The
    winsorization bounds, the global mean, the fold encoding maps and the full
    maps are the same for both, and so are the scaling stats of the
    target-encoded columns.  The imputation medians are taken over all rows,
    test rows included, and reach the scaling stats of the base numeric columns
    through the imputed cells of training rows: those stats are the same for
    both inputs whenever the medians are. *)
Theorem C1_leakage_invariant (rows1 rows2 : list row) (sch : schema)
    (trainFrac : number) (out1 out2 : tensors) (sch1 sch2 : schema) :
  stratifiedSplit rows1 trainFrac (split (seeds_of sch)) "make"
  = stratifiedSplit rows2 trainFrac (split (seeds_of sch)) "make" ->
  (forall i, i ∈ trIdx rows1 sch trainFrac -> rows1 !! i = rows2 !! i) ->
  buildTabularTensors rows1 sch trainFrac = Ok (out1, sch1) ->
  buildTabularTensors rows2 sch trainFrac = Ok (out2, sch2) ->
  pLo rows1 sch trainFrac = pLo rows2 sch trainFrac
  /\ pHi rows1 sch trainFrac = pHi rows2 sch trainFrac
  /\ globalMean rows1 sch trainFrac = globalMean rows2 sch trainFrac
  /\ encMapsByFold rows1 sch trainFrac = encMapsByFold rows2 sch trainFrac
  /\ fullMaps rows1 sch trainFrac = fullMaps rows2 sch trainFrac
  /\ length (numStats out1) = (length (numCols sch) + length encCols)%nat
  /\ length (numStats out2) = (length (numCols sch) + length encCols)%nat
  /\ drop (length (numCols sch)) (numStats out1)
     = drop (length (numCols sch)) (numStats out2)
  /\ (medians rows1 sch = medians rows2 sch -> numStats out1 = numStats out2).
Proof.
  intros Hsplit Htrain H1 H2.
  apply buildTabularTensors_Ok in H1 as (xcats1 & first1 & _ & Hf1 & _ & ->).
  apply buildTabularTensors_Ok in H2 as (xcats2 & first2 & _ & Hf2 & _ & ->).
  apply XnumPlus_row_length in Hf1, Hf2. cbn [numStats].
  rewrite !numStats_of_columns, Hf1, Hf2, !length_fmap, !length_seq.
  split; [by apply same_pLo|]. split; [by apply same_pHi|].
  split; [by apply same_globalMean|]. split; [by apply same_encMapsByFold|].
  split; [by apply same_fullMaps|]. split; [done|]. split; [done|]. split.
  - rewrite <- !fmap_drop. apply list_fmap_ext.
    intros k j Hj. f_equal.
    apply same_encoded_columns; [done..|].
    rewrite lookup_drop in Hj. apply lookup_seq in Hj as [-> _]. lia.
  - intros Hmed. by rewrite (same_trainNum rows1 rows2 sch trainFrac Hsplit Htrain Hmed).
Qed.

Lemma leak_inputs_accepted :
  (leak_rows1 <> []
   /\ (forall h, h ∈ catCols plain_schema -> is_Some (catMaps plain_schema !! h))
   /\ tr leak_rows1 plain_schema (Fin (4 # 5)) <> []
   /\ te leak_rows1 plain_schema (Fin (4 # 5)) <> [])
  /\ (leak_rows2 <> []
      /\ (forall h, h ∈ catCols plain_schema -> is_Some (catMaps plain_schema !! h))
      /\ tr leak_rows2 plain_schema (Fin (4 # 5)) <> []
      /\ te leak_rows2 plain_schema (Fin (4 # 5)) <> []).
Proof.
  split; (split; [discriminate|]);
    (split; [intros h Hh; by apply elem_of_nil in Hh|]);
    split; vm_compute; discriminate.
Qed.

Lemma leak_inputs_agree :
  stratifiedSplit leak_rows1 (Fin (4 # 5)) (split (seeds_of plain_schema)) "make"
  = stratifiedSplit leak_rows2 (Fin (4 # 5)) (split (seeds_of plain_schema)) "make"
  /\ forall i, i ∈ trIdx leak_rows1 plain_schema (Fin (4 # 5)) ->
               leak_rows1 !! i = leak_rows2 !! i.
Proof.
  split; [by vm_compute|].
  intros i Hi.
  assert (Htr : trIdx leak_rows1 plain_schema (Fin (4 # 5)) = [1; 0]%nat)
    by (by vm_compute).
  rewrite Htr in Hi.
  apply elem_of_cons in Hi as [->|Hi]; [reflexivity|].
  apply elem_of_cons in Hi as [->|Hi]; [reflexivity|].
  inversion Hi.
Qed.

Lemma C1_leakage_invariant_witness :
  exists out1 out2 sch1 sch2,
    buildTabularTensors leak_rows1 plain_schema (Fin (4 # 5)) = Ok (out1, sch1)
    /\ buildTabularTensors leak_rows2 plain_schema (Fin (4 # 5)) = Ok (out2, sch2)
    /\ pLo leak_rows1 plain_schema (Fin (4 # 5))
       = pLo leak_rows2 plain_schema (Fin (4 # 5))
    /\ drop 1 (numStats out1) = drop 1 (numStats out2).
Proof.
  destruct leak_inputs_accepted as [Ha1 Ha2].
  destruct (proj2 (buildTabularTensors_succeeds _ _ (Fin (4 # 5))) Ha1)
    as [[out1 sch1] E1].
  destruct (proj2 (buildTabularTensors_succeeds _ _ (Fin (4 # 5))) Ha2)
    as [[out2 sch2] E2].
  destruct leak_inputs_agree as [Hs Ht].
  exists out1, out2, sch1, sch2.
  split; [exact E1|]. split; [exact E2|].
  destruct (C1_leakage_invariant _ _ _ _ _ _ _ _ Hs Ht E1 E2)
    as (H1 & _ & _ & _ & _ & _ & _ & H2 & _).
  split; [exact H1 | exact H2].
Defined.

(** C1, as stated, fails: the two inputs have the same split, train rows 1 and
    0, and differ only in the [hp] cell of the test row 2; yet the imputation
    median of [hp] is 2 for one and 4 for the other, and with it the scaling
    stats of the [hp] column differ (training row 0 has no [hp] value and is
    imputed). *)
Lemma C1_counterexample :
  stratifiedSplit leak_rows1 (Fin (4 # 5)) 42 "make"
  = {| train := [1; 0]%nat; test := [2%nat] |}
  /\ stratifiedSplit leak_rows2 (Fin (4 # 5)) 42 "make"
     = {| train := [1; 0]%nat; test := [2%nat] |}
  /\ leak_rows1 !! 0%nat = leak_rows2 !! 0%nat
  /\ leak_rows1 !! 1%nat = leak_rows2 !! 1%nat
  /\ medians leak_rows1 plain_schema = [Fin 2]
  /\ medians leak_rows2 plain_schema = [Fin 4]
  /\ exists out1 out2 sch1 sch2,
       buildTabularTensors leak_rows1 plain_schema (Fin (4 # 5)) = Ok (out1, sch1)
       /\ buildTabularTensors leak_rows2 plain_schema (Fin (4 # 5)) = Ok (out2, sch2)
       /\ numStats out1 !! 0%nat
          = Some {| median := Fin (5 # 2); scale := Fin (7413 # 10000) |}
       /\ numStats out2 !! 0%nat
          = Some {| median := Fin (7 # 2); scale := Fin (7413 # 10000) |}.
Proof.
  split; [by vm_compute|]. split; [by vm_compute|].
  split; [reflexivity|]. split; [reflexivity|].
  split; [by vm_compute|]. split; [by vm_compute|].
  eexists _, _, _, _. vm_compute. done.
Qed.


(** ** Maps in insertion order *)

Lemma Map_get_set_eq {V} (m : list (string * V)) (k : string) (v : V) :
  Map_get (Map_set m k v) k = Some v.
Proof.
  induction m as [|[k' v'] m IH]; simpl.
  - by rewrite decide_True.
  - destruct (decide (k = k')) as [->|Hne]; simpl.
    + by rewrite decide_True.
    + by rewrite decide_False.
Qed.

Lemma Map_get_set_ne {V} (m : list (string * V)) (k k' : string) (v : V) :
  k <> k' -> Map_get (Map_set m k v) k' = Map_get m k'.
Proof.
  intros Hne. induction m as [|[k0 v0] m IH]; simpl.
  - by rewrite decide_False.
  - destruct (decide (k = k0)) as [->|Hne0]; simpl.
    + by rewrite !decide_False by done.
    + by rewrite IH.
Qed.

Lemma Map_get_None {V} (m : list (string * V)) (k : string) :
  k ∉ m.*1 -> Map_get m k = None.
Proof.
  induction m as [|[k' v'] m IH]; csimpl; [done|].
  intros Hnin. rewrite not_elem_of_cons in Hnin. destruct Hnin as [Hne Hnin].
  rewrite decide_False by done. by apply IH.
Qed.

Lemma Map_set_keys {V} (m : list (string * V)) (k : string) (v : V) :
  (Map_set m k v).*1 = if decide (k ∈ m.*1) then m.*1 else m.*1 ++ [k].
Proof.
  induction m as [|[k' v'] m IH]; csimpl; [done|].
  destruct (decide (k = k')) as [->|Hne]; csimpl.
  - by rewrite decide_True by left.
  - rewrite IH. destruct (decide (k ∈ m.*1)) as [Hin|Hnin].
    + by rewrite decide_True by (by right).
    + rewrite decide_False; [done|]. by intros [?|?]%elem_of_cons.
Qed.

Lemma Map_set_NoDup {V} (m : list (string * V)) (k : string) (v : V) :
  NoDup m.*1 -> NoDup (Map_set m k v).*1.
Proof.
  intros Hnd. rewrite Map_set_keys. destruct (decide (k ∈ m.*1)); [done|].
  apply NoDup_app. split; [done|]. split; [|apply NoDup_singleton].
  intros x Hx ->%list_elem_of_singleton. done.
Qed.

(** The object filled from a [Map] holds one entry per key of the [Map]. *)
Lemma lookup_foldl_Map {V W} (h : string -> V -> W) (l : list (string * V))
    (init : gmap string W) (k : string) :
  NoDup l.*1 ->
  foldl (fun m '(k, v) => <[k := h k v]> m) init l !! k
  = match Map_get l k with Some v => Some (h k v) | None => init !! k end.
Proof.
  revert init. induction l as [|[k' v'] l IH]; intros init Hnd; simpl; [done|].
  inversion Hnd as [|? ? Hnin Hnd']; subst. rewrite IH by done.
  destruct (decide (k = k')) as [->|Hne].
  - rewrite (Map_get_None l k' Hnin). by rewrite lookup_insert_eq.
  - destruct (Map_get l k); [done|]. by rewrite lookup_insert_ne.
Qed.

(** ** Sums and counts per category *)

Lemma num_or_zero_add (s : number) (y : number) :
  finite s -> finite y -> num_add (num_or s (Fin 0)) y = num_add s y.
Proof.
  intros [q ->]%finite_Fin [qy ->]%finite_Fin. unfold num_or.
  destruct (Qeq_bool q 0) eqn:E; [|done].
  apply Qeq_bool_iff in E. simpl. apply fin_eq. by rewrite E.
Qed.

Lemma count_step (n : nat) :
  num_add (num_or (num_of_nat n) (Fin 0)) (Fin 1) = num_of_nat (S n).
Proof.
  rewrite num_or_zero_add by done. unfold num_of_nat, num_add.
  apply fin_inject_Z. rewrite Nat2Z.inj_succ, <- Z.add_1_r, inject_Z_plus.
  reflexivity.
Qed.

Section sums_and_counts.
Context (rows : list row) (c : string).

Lemma accumulate_snoc (idxs : list nat) (i : nat) :
  accumulate rows c (idxs ++ [i])
  = let '(sums, counts) := accumulate rows c idxs in
    let key := category rows i c in
    if Number_isFinite (price rows i) then
      (Map_set sums key
         (num_add (num_or (to_number (Map_get sums key)) (Fin 0)) (price rows i)),
       Map_set counts key
         (num_add (num_or (to_number (Map_get counts key)) (Fin 0)) (Fin 1)))
    else (sums, counts).
Proof.
  unfold accumulate, price. cbv zeta. rewrite foldl_snoc.
  by destruct (foldl _ _ _).
Qed.

Lemma rows_of_category_snoc (k : string) (idxs : list nat) (i : nat) :
  rows_of_category rows c k (idxs ++ [i])
  = rows_of_category rows c k idxs
    ++ (if decide (finite (price rows i) /\ category rows i c = k) then [i] else []).
Proof.
  unfold rows_of_category. by rewrite filter_app.
Qed.

Lemma rows_of_category_finite (k : string) (idxs : list nat) :
  Forall finite (price rows <$> rows_of_category rows c k idxs).
Proof.
  apply Forall_fmap, Forall_forall. intros i Hi.
  by apply list_elem_of_filter in Hi as [[Hi _] _].
Qed.


Lemma sum_of_finite (k : string) (idxs : list nat) :
  finite (sum_of rows c k idxs).
Proof. apply sum_finite; [done|apply rows_of_category_finite]. Qed.

Lemma accumulate_spec (idxs : list nat) :
  NoDup (accumulate rows c idxs).1.*1
  /\ forall k,
       Map_get (accumulate rows c idxs).1 k
       = (if decide (rows_of_category rows c k idxs = []) then None
          else Some (sum_of rows c k idxs))
       /\ Map_get (accumulate rows c idxs).2 k
          = (if decide (rows_of_category rows c k idxs = []) then None
             else Some (num_of_nat (length (rows_of_category rows c k idxs)))).
Proof.
  induction idxs as [|i idxs IH] using rev_ind.
  { split; [apply NoDup_nil_2|]. intros k. done. }
  rewrite accumulate_snoc. destruct IH as [IHnd IH].
  destruct (accumulate rows c idxs) as [sums counts]. cbn [fst snd] in *.
  cbv zeta. unfold sum_of.
  destruct (Number_isFinite (price rows i)) eqn:Efin; cbn [fst snd].
  - split; [by apply Map_set_NoDup|]. intros k.
    rewrite rows_of_category_snoc.
    destruct (decide (finite (price rows i) /\ category rows i c = k))
      as [[_ <-]|Hn].
    + destruct (IH (category rows i c)) as [IHs IHc].
      pose proof (sum_of_finite (category rows i c) idxs) as Hfin.
      unfold sum_of in IHs, Hfin.
      set (l := rows_of_category rows c (category rows i c) idxs) in *.
      rewrite !Map_get_set_eq, IHs, IHc.
      rewrite !(decide_False (P := l ++ [i] = [])) by (by destruct l).
      rewrite fmap_app, foldl_app, length_app, Nat.add_1_r.
      change (foldl num_add ?a (price rows <$> [i]))
        with (num_add a (price rows i)).
      destruct (decide (l = [])) as [->|Hne].
      * split; reflexivity.
      * split; f_equal.
        -- by apply num_or_zero_add.
        -- apply count_step.
    + assert (Hne : category rows i c <> k) by (intros ?; by apply Hn).
      rewrite app_nil_r, !Map_get_set_ne by done. apply IH.
  - split; [done|]. intros k. rewrite rows_of_category_snoc.
    destruct (decide (finite (price rows i) /\ category rows i c = k))
      as [[H _]|Hn]; [unfold finite in H; congruence|].
    rewrite app_nil_r. apply IH.
Qed.
End sums_and_counts.

(** ** The encoding maps *)

Lemma num_or_count (n : nat) :
  n <> 0%nat -> num_or (num_of_nat n) (Fin 0) = num_of_nat n.
Proof.
  intros Hn. unfold num_or, num_of_nat.
  destruct (Qeq_bool (inject_Z (Z.of_nat n)) 0) eqn:E; [|done].
  apply Qeq_bool_iff in E. apply (proj1 (inject_Z_injective _ 0)) in E. lia.
Qed.

Lemma smoothed_finite (s g : number) (n : nat) :
  finite s -> finite g -> finite (smoothed s (num_of_nat n) g (Fin 10)).
Proof.
  intros [qs ->]%finite_Fin [qg ->]%finite_Fin.
  unfold smoothed, num_of_nat, num_mul, num_add, fin.
  rewrite num_div_finite; [done|].
  rewrite Qred_correct. intros H.
  assert (H0 : (0 <= inject_Z (Z.of_nat n))%Q) by (rewrite <- (Zle_Qle 0); lia).
  lra.
Qed.

Section encoding.
Context (rows : list row) (sch : schema) (trainFrac : number).

Lemma encoding_map_lookup (c : string) (idxs : list nat) (k : string) :
  encoding_map rows sch trainFrac c idxs !! k
  = if decide (rows_of_category rows c k idxs = [])
    then (if decide (k = "__UNK__") then Some (globalMean rows sch trainFrac)
          else None)
    else Some (smoothed (sum_of rows c k idxs)
                        (num_of_nat (length (rows_of_category rows c k idxs)))
                        (globalMean rows sch trainFrac) (Fin 10)).
Proof.
  unfold encoding_map. cbv zeta.
  destruct (accumulate_spec rows c idxs) as [Hnd Hspec].
  destruct (accumulate rows c idxs) as [sums counts]. cbn [fst snd] in *.
  rewrite (lookup_foldl_Map
             (fun k sum =>
                smoothed sum (num_or (to_number (Map_get counts k)) (Fin 0))
                         (globalMean rows sch trainFrac) (Fin 10))) by done.
  destruct (Hspec k) as [-> ->].
  destruct (decide (rows_of_category rows c k idxs = [])) as [E|E].
  - rewrite lookup_singleton.
    destruct (decide ("__UNK__" = k)) as [<-|Hne].
    + by rewrite decide_True.
    + by rewrite decide_False.
  - cbn [to_number]. rewrite num_or_count; [done|].
    by destruct (rows_of_category rows c k idxs).
Qed.

Lemma encoding_map_finite (c : string) (idxs : list nat) (k : string) (v : number) :
  encoding_map rows sch trainFrac c idxs !! k = Some v -> finite v.
Proof.
  rewrite encoding_map_lookup.
  destruct (decide (rows_of_category rows c k idxs = [])).
  - destruct (decide (k = "__UNK__")); [|done]. intros [= <-].
    apply globalMean_finite.
  - intros [= <-]. apply smoothed_finite; [apply sum_of_finite|].
    apply globalMean_finite.
Qed.

Lemma encoding_map_unknown (c : string) (idxs : list nat) :
  is_Some (encoding_map rows sch trainFrac c idxs !! "__UNK__").
Proof.
  rewrite encoding_map_lookup.
  destruct (decide (rows_of_category rows c "__UNK__" idxs = [])); [|done].
  by rewrite decide_True.
Qed.

Lemma encoding_map_value (c : string) (idxs : list nat) (key : string) :
  exists q,
    nullish (encoding_map rows sch trainFrac c idxs !! key)
            (encoding_map rows sch trainFrac c idxs !! "__UNK__") = Some (Fin q).
Proof.
  destruct (encoding_map rows sch trainFrac c idxs !! key) as [v|] eqn:E; simpl.
  - apply encoding_map_finite in E. apply finite_Fin in E as [q ->]. by exists q.
  - destruct (encoding_map_unknown c idxs) as [v Hv]. rewrite Hv.
    apply encoding_map_finite in Hv. apply finite_Fin in Hv as [q ->]. by exists q.
Qed.
End encoding.

(** ** Folds *)

Lemma elem_of_concat {A} (x : A) (ls : list (list A)) :
  x ∈ concat ls <-> exists l, x ∈ l /\ l ∈ ls.
Proof.
  induction ls as [|l ls IH]; simpl.
  - split; [by intros ?%elem_of_nil|]. by intros (l & _ & ?%elem_of_nil).
  - rewrite elem_of_app, IH. split.
    + intros [H|(l' & H1 & H2)]; [exists l; split; [done|left]|].
      exists l'. split; [done|by right].
    + intros (l' & H1 & [->|H2]%elem_of_cons); [by left|]. right. by exists l'.
Qed.

Lemma imap_pair_snd {A} (l : list A) : (imap pair l).*2 = l.
Proof.
  assert (H : forall (g : nat -> nat), (imap (fun i x => (g i, x)) l).*2 = l).
  { induction l as [|x l IH]; intros g; [done|].
    csimpl. f_equal. apply (IH (g ∘ S)). }
  apply (H id).
Qed.

Lemma alter_push_perm (arr : list (list nat)) (j i : nat) :
  (j < length arr)%nat ->
  concat (alter (fun a => a ++ [i]) j arr) ≡ₚ i :: concat arr.
Proof.
  revert j. induction arr as [|a arr IH]; intros j Hj; simpl in *; [lia|].
  destruct j as [|j]; simpl.
  - rewrite <- app_assoc. simpl. by rewrite <- Permutation_middle.
  - change (list_alter ?f j arr) with (alter f j arr).
    rewrite IH by lia. by rewrite <- Permutation_middle.
Qed.

Lemma deal_fold (l : list (nat * nat)) (arr : list (list nat)) :
  length arr = K ->
  let arr' := foldl (fun arr '(k, i) => alter (fun a => a ++ [i]) (k mod K)%nat arr)
                    arr l in
  length arr' = K /\ concat arr' ≡ₚ concat arr ++ l.*2.
Proof.
  revert arr. induction l as [|[k i] l IH]; intros arr Hlen; simpl.
  - by rewrite app_nil_r.
  - destruct (IH (alter (fun a => a ++ [i]) (k mod K)%nat arr)) as [IH1 IH2].
    { by rewrite length_alter. }
    split; [done|]. rewrite IH2, alter_push_perm.
    + by rewrite <- Permutation_middle.
    + rewrite Hlen. apply Nat.mod_upper_bound. by vm_compute.
Qed.

Lemma deal_perm (s : list nat) : length (deal s) = K /\ concat (deal s) ≡ₚ s.
Proof.
  unfold deal.
  destruct (deal_fold (imap pair s) (replicate K [])) as [H1 H2].
  { apply length_replicate. }
  split; [done|]. rewrite H2, imap_pair_snd.
  assert (Hnil : concat (replicate K ([] : list nat)) = []).
  { generalize K. induction n; simpl; done. }
  by rewrite Hnil.
Qed.

Lemma lookup_foldl_assign (f : nat) (a : list nat) (m : gmap nat nat) (j : nat) :
  foldl (fun m i => <[i := f]> m) m a !! j
  = if decide (j ∈ a) then Some f else m !! j.
Proof.
  revert m. induction a as [|i a IH]; intros m; simpl; [done|].
  rewrite IH. destruct (decide (j ∈ a)) as [Hin|Hnin].
  - by rewrite decide_True by (by right).
  - destruct (decide (j = i)) as [->|Hne].
    + rewrite lookup_insert_eq. by rewrite decide_True by left.
    + rewrite lookup_insert_ne by done.
      rewrite decide_False; [done|]. by intros [?|?]%elem_of_cons.
Qed.

Lemma foldOf_fold (l : list (nat * list nat)) (m : gmap nat nat) (j : nat) :
  let m' := foldl (fun m '(f, a) => foldl (fun m i => <[i := f]> m) m a) m l in
  (forall f, m' !! j = Some f ->
             m !! j = Some f \/ exists a, (f, a) ∈ l /\ j ∈ a)
  /\ (is_Some (m !! j) \/ (exists f a, (f, a) ∈ l /\ j ∈ a) -> is_Some (m' !! j)).
Proof.
  revert m. induction l as [|[f0 a0] l IH]; intros m; simpl.
  - split; [by left|]. intros [H|(f & a & H & _)]; [done|]. inversion H.
  - destruct (IH (foldl (fun m i => <[i := f0]> m) m a0)) as [IH1 IH2].
    split.
    + intros f Hf. apply IH1 in Hf as [Hf|(a & Ha & Hj)].
      * rewrite lookup_foldl_assign in Hf.
        destruct (decide (j ∈ a0)) as [Hin|Hnin]; [|by left].
        injection Hf as <-. right. exists a0. split; [left|done].
      * right. exists a. split; [by right|done].
    + intros H. apply IH2. rewrite lookup_foldl_assign.
      destruct (decide (j ∈ a0)) as [Hin|Hnin]; [by left|].
      destruct H as [H|(f & a & [Heq|H]%elem_of_cons & Hj)].
      * by left.
      * injection Heq as -> ->. done.
      * right. by exists f, a.
Qed.

Section folds.
Context (rows : list row) (sch : schema) (trainFrac : number).

Lemma folds_perm :
  length (folds rows sch trainFrac) = K
  /\ concat (folds rows sch trainFrac) ≡ₚ trIdx rows sch trainFrac.
Proof.
  unfold folds.
  destruct (deal_perm (shuffleWithSeed (trIdx rows sch trainFrac)
                         (kfold (seeds_of sch)))) as [H1 H2].
  split; [done|]. by rewrite H2, shuffleWithSeed_perm.
Qed.

Lemma foldOf_Some (i f : nat) :
  foldOf rows sch trainFrac !! i = Some f ->
  (f < K)%nat /\ exists a, folds rows sch trainFrac !! f = Some a /\ i ∈ a.
Proof.
  unfold foldOf. intros H.
  destruct (foldOf_fold (imap pair (folds rows sch trainFrac)) ∅ i) as [H1 _].
  apply H1 in H as [H|(a & Ha & Hi)]; [by rewrite lookup_empty in H|].
  apply elem_of_lookup_imap in Ha as (f' & a' & [= -> ->] & Hl).
  split; [|by exists a'].
  apply lookup_lt_Some in Hl. by rewrite (proj1 folds_perm) in Hl.
Qed.

Lemma foldOf_train (i : nat) :
  i ∈ trIdx rows sch trainFrac -> is_Some (foldOf rows sch trainFrac !! i).
Proof.
  intros Hi. rewrite <- (proj2 folds_perm) in Hi.
  apply elem_of_concat in Hi as (a & Hi & Ha).
  apply list_elem_of_lookup in Ha as [f Hf].
  unfold foldOf.
  destruct (foldOf_fold (imap pair (folds rows sch trainFrac)) ∅ i) as [_ H2].
  apply H2. right. exists f, a. split; [|done].
  apply elem_of_lookup_imap. by exists f, a.
Qed.

Lemma elem_of_trF (f j : nat) :
  j ∈ trF rows sch trainFrac f
  <-> j ∈ trIdx rows sch trainFrac /\ foldOf rows sch trainFrac !! j <> Some f.
Proof. unfold trF. cbv zeta. rewrite list_elem_of_filter. tauto. Qed.

Lemma encMapsByFold_fold (c : string) (f : nat) :
  c ∈ encCols -> (f < K)%nat ->
  encMapsByFold rows sch trainFrac !! c ≫= (fun maps => maps !! f)
  = Some (encoding_map rows sch trainFrac c (trF rows sch trainFrac f)).
Proof.
  intros Hc Hf. rewrite encMapsByFold_lookup, decide_True by done. simpl.
  rewrite list_lookup_fmap, lookup_seq_lt by done. done.
Qed.

(** Every encoded cell is a finite number. *)
Lemma encValue_finite (i : nat) (c : string) :
  c ∈ encCols ->
  exists q,
    encValue rows (foldOf rows sch trainFrac) (encMapsByFold rows sch trainFrac)
      (fullMaps rows sch trainFrac) i c = Some (Fin q).
Proof.
  intros Hc. unfold encValue. cbv zeta.
  destruct (foldOf rows sch trainFrac !! i) as [f|] eqn:E.
  - apply foldOf_Some in E as [Hf _].
    rewrite (encMapsByFold_fold c f Hc Hf). simpl. apply encoding_map_value.
  - rewrite fullMaps_lookup, decide_True by done. simpl. apply encoding_map_value.
Qed.
End folds.

(** ** Out-of-fold target encoding *)

Lemma plain_NA : plain "__NA__".
Proof. apply (bool_decide_unpack _). vm_compute. exact I. Qed.

(** The category of a row index in a column of plain values. *)
Lemma plain_category (rows : list row) (c : string) (i : nat) :
  plain_column rows c -> plain (category rows i c).
Proof.
  intros Hplain. unfold category.
  destruct (rows !! i) as [r|] eqn:E; [|apply plain_NA].
  unfold plain_column in Hplain. rewrite Forall_lookup in Hplain.
  apply (Hplain i r E).
Qed.

(** C2, as the code has it — a training row [i] is dealt into one fold [f];
    for an encoded column [c] the fold-[f] map is fit on the training rows
    whose fold is not [f] (row [i] is not among them).  A category with such
    rows of finite raw target has the entry
    [(sum + 10 * globalMean) / (count + 10)] of their sum and count; the map
    has no other entry except ["__UNK__"], which is [globalMean] when no
    fitting row has that category.  The encoded cell of row [i] is the lookup
    of its category in this map, falling back to the ["__UNK__"] entry.
    [globalMean] is the mean over all training rows, row [i] included.  All
    this for a column whose values are plain keys: a map is a plain object,
    and a value such as ["constructor"] or ["__proto__"] reads or writes what
    the object inherits. *)
Theorem C2_out_of_fold_encoding (rows : list row) (sch : schema)
    (trainFrac : number) (i : nat) (c : string) :
  i ∈ trIdx rows sch trainFrac -> c ∈ encCols -> plain_column rows c ->
  let gm := globalMean rows sch trainFrac in
  let enc := encValue rows (foldOf rows sch trainFrac)
               (encMapsByFold rows sch trainFrac) (fullMaps rows sch trainFrac) in
  exists (f : nat) (m : gmap string number),
    foldOf rows sch trainFrac !! i = Some f
    /\ (f < K)%nat
    /\ (exists a, folds rows sch trainFrac !! f = Some a /\ i ∈ a)
    /\ encMapsByFold rows sch trainFrac !! c ≫= (fun maps => maps !! f) = Some m
    /\ m = encoding_map rows sch trainFrac c (trF rows sch trainFrac f)
    /\ (forall j, j ∈ trF rows sch trainFrac f
                  <-> j ∈ trIdx rows sch trainFrac
                      /\ foldOf rows sch trainFrac !! j <> Some f)
    /\ (i ∉ trF rows sch trainFrac f)
    /\ (forall k,
          plain k ->
          let fitting := rows_of_category rows c k (trF rows sch trainFrac f) in
          m !! k
          = if decide (fitting = [])
            then (if decide (k = "__UNK__") then Some gm else None)
            else Some (smoothed (foldl num_add (Fin 0) (price rows <$> fitting))
                                (num_of_nat (length fitting)) gm (Fin 10)))
    /\ plain (category rows i c)
    /\ enc i c = nullish (m !! category rows i c) (m !! "__UNK__")
    /\ (forall pos, encCols !! pos = Some c ->
          XnumPlus rows sch trainFrac !! i
            ≫= (fun r => r !! (length (numCols sch) + pos)%nat)
          = Some (to_number (enc i c)))
    /\ gm = num_div (foldl num_add (Fin 0) (trainPrices rows sch trainFrac))
              (Math_max (Fin 1)
                 (num_of_nat (length (trainPrices rows sch trainFrac)))).
Proof.
  intros Hi Hc Hplain gm enc.
  destruct (foldOf_train rows sch trainFrac i Hi) as [f Hf].
  destruct (foldOf_Some rows sch trainFrac i f Hf) as [HfK Hfold].
  exists f, (encoding_map rows sch trainFrac c (trF rows sch trainFrac f)).
  split; [done|]. split; [done|]. split; [done|].
  split; [by apply encMapsByFold_fold|]. split; [done|].
  split; [apply elem_of_trF|].
  split; [rewrite elem_of_trF; by intros [_ H]|].
  split; [intros k _; apply encoding_map_lookup|].
  split; [by apply plain_category|].
  assert (Henc : enc i c
                 = nullish (encoding_map rows sch trainFrac c
                              (trF rows sch trainFrac f) !! category rows i c)
                           (encoding_map rows sch trainFrac c
                              (trF rows sch trainFrac f) !! "__UNK__")).
  { subst enc. unfold encValue. cbv zeta.
    by rewrite Hf, (encMapsByFold_fold rows sch trainFrac c f Hc HfK). }
  split; [done|]. split; [|done].
  intros pos Hpos. rewrite XnumPlus_lookup.
  assert (Hrow : is_Some (Xnum rows sch !! i)).
  { apply lookup_lt_is_Some. rewrite length_Xnum.
    pose proof (stratifiedSplit_perm rows trainFrac (split (seeds_of sch)) "make")
      as Hperm.
    assert (Hin : i ∈ seq 0 (length rows)).
    { rewrite <- Hperm. apply elem_of_app. by left. }
    apply elem_of_seq in Hin. lia. }
  destruct Hrow as [r Hr]. rewrite Hr. simpl.
  rewrite lookup_app_r by (rewrite (Xnum_row_length rows sch i r Hr); lia).
  rewrite (Xnum_row_length rows sch i r Hr).
  replace (length (numCols sch) + pos - length (numCols sch))%nat with pos by lia.
  by rewrite list_lookup_fmap, Hpos.
Qed.

Lemma C2_out_of_fold_encoding_witness :
  exists (f : nat) (m : gmap string number),
    foldOf demo_rows demo_schema (Fin (4 # 5)) !! 1%nat = Some f
    /\ encMapsByFold demo_rows demo_schema (Fin (4 # 5)) !! "make"
         ≫= (fun maps => maps !! f) = Some m
    /\ 1%nat ∉ trF demo_rows demo_schema (Fin (4 # 5)) f.
Proof.
  assert (Hi : 1%nat ∈ trIdx demo_rows demo_schema (Fin (4 # 5)))
    by (vm_compute; left).
  assert (Hc : "make" ∈ encCols) by (vm_compute; left).
  assert (Hp : plain_column demo_rows "make")
    by (apply (bool_decide_unpack _); vm_compute; exact I).
  destruct (C2_out_of_fold_encoding demo_rows demo_schema (Fin (4 # 5)) 1
              "make" Hi Hc Hp)
    as (f & m & H1 & _ & _ & H2 & _ & _ & H3 & _).
  exists f, m. split; [exact H1|]. split; [exact H2 | exact H3].
Defined.

(** C2, as stated, fails in its last clause: row 1 is the only training row of
    both inputs, which differ in nothing but the target of that row; its
    encoded cell is 20 for one input and 30 for the other, as its fold's map
    holds only the unknown entry, the global mean, which is row 1's own
    target. *)
Lemma C2_counterexample :
  trIdx own_target_rows1 bare_schema (Fin (4 # 5)) = [1%nat]
  /\ trIdx own_target_rows2 bare_schema (Fin (4 # 5)) = [1%nat]
  /\ foldOf own_target_rows1 bare_schema (Fin (4 # 5)) !! 1%nat = Some 0%nat
  /\ foldOf own_target_rows2 bare_schema (Fin (4 # 5)) !! 1%nat = Some 0%nat
  /\ own_target_rows1 !! 0%nat = own_target_rows2 !! 0%nat
  /\ (delete "price" <$> (own_target_rows1 !! 1%nat))
     = (delete "price" <$> (own_target_rows2 !! 1%nat))
  /\ price own_target_rows1 1 = Fin 20
  /\ price own_target_rows2 1 = Fin 30
  /\ encValue own_target_rows1
       (foldOf own_target_rows1 bare_schema (Fin (4 # 5)))
       (encMapsByFold own_target_rows1 bare_schema (Fin (4 # 5)))
       (fullMaps own_target_rows1 bare_schema (Fin (4 # 5))) 1 "make"
     = Some (Fin 20)
  /\ encValue own_target_rows2
       (foldOf own_target_rows2 bare_schema (Fin (4 # 5)))
       (encMapsByFold own_target_rows2 bare_schema (Fin (4 # 5)))
       (fullMaps own_target_rows2 bare_schema (Fin (4 # 5))) 1 "make"
     = Some (Fin 30).
Proof.
  repeat (split; [by vm_compute|]). by vm_compute.
Qed.

(** ** The middle of a sorted array *)


Lemma robustStats_middle (arr : list number) :
  robustStats arr
  = let s := js_sort by_value arr in
    let m := middle s in
    {| median := m;
       scale := num_or (num_mul (Fin (7413 # 5000))
                          (middle (js_sort by_value
                                     ((fun x => Math_abs (num_sub x m)) <$> s))))
                       (Fin 1) |}.
Proof.
  unfold robustStats, middle. cbv zeta.
  by rewrite !js_sort_length, !length_fmap, !js_sort_length.
Qed.

Lemma column_median_middle (column : list number) :
  column_median column
  = let vals := js_sort by_value (filter (fun x => Number_isFinite x) column) in
    if Z.of_nat (length vals) =? 0 then Fin 0 else middle vals.
Proof. reflexivity. Qed.

Lemma at_index_lookup {A} (s : list A) (k : nat) :
  at_index s (Z.of_nat k) = s !! k.
Proof.
  unfold at_index. destruct (Z.ltb_spec (Z.of_nat k) 0); [lia|].
  by rewrite Nat2Z.id.
Qed.


(** The two positions the middle reads lie inside a non-empty array. *)
Lemma middle_positions (n : nat) :
  (0 < n)%nat ->
  let len := Z.of_nat n in
  exists k : nat,
    len / 2 = Z.of_nat k /\ (k < n)%nat
    /\ ((len mod 2 =? 1) = false ->
        exists k' : nat, len / 2 - 1 = Z.of_nat k' /\ (k' < n)%nat).
Proof.
  intros Hn len. exists (Z.to_nat (len / 2)).
  assert (H2 : 0 <= len / 2 < len).
  { split; [apply Z.div_pos; lia|]. apply Z.div_lt; lia. }
  split; [lia|]. split; [lia|].
  intros Heven. apply Z.eqb_neq in Heven.
  exists (Z.to_nat (len / 2 - 1)).
  assert (len mod 2 = 0) by (pose proof (Z.mod_pos_bound len 2); lia).
  assert (len = 2 * (len / 2)) by (rewrite (Z.div_mod len 2) at 1; lia).
  lia.
Qed.

(** A property all elements have and sums of halves keep holds of the
    middle. *)
Lemma middle_ind (P : number -> Prop) (s : list number) :
  (forall x y, P x -> P y -> P (num_div (num_add x y) (Fin 2))) ->
  Forall P s -> s <> [] -> P (middle s).
Proof.
  intros Havg Hs Hne. unfold middle. cbv zeta.
  assert (Hn : (0 < length s)%nat) by (destruct s; [done|simpl; lia]).
  destruct (middle_positions (length s) Hn) as (k & -> & Hk & Heven).
  rewrite Forall_lookup in Hs.
  destruct (lookup_lt_is_Some_2 s k Hk) as [x Hx].
  destruct (Z.of_nat (length s) mod 2 =? 1) eqn:E.
  - rewrite at_index_lookup, Hx. simpl. by eapply Hs.
  - destruct (Heven eq_refl) as (k' & -> & Hk').
    destruct (lookup_lt_is_Some_2 s k' Hk') as [y Hy].
    rewrite !at_index_lookup, Hx, Hy. simpl.
    apply Havg; by eapply Hs.
Qed.

Lemma half_sum_finite (x y : number) :
  finite x -> finite y -> finite (num_div (num_add x y) (Fin 2)).
Proof. by intros [a ->]%finite_Fin [b ->]%finite_Fin. Qed.

Lemma middle_finite (s : list number) :
  Forall finite s -> s <> [] -> finite (middle s).
Proof. apply middle_ind. apply half_sum_finite. Qed.


Lemma middle_nonneg (s : list number) :
  Forall nonneg s -> s <> [] -> nonneg (middle s).
Proof.
  apply middle_ind. intros x y (a & -> & Ha) (b & -> & Hb).
  eexists. split; [reflexivity|].
  rewrite Qred_correct, Qred_correct. apply Qle_shift_div_l; [reflexivity|]. lra.
Qed.


Lemma js_sort_Forall {A} (P : A -> Prop) (cmp : A -> A -> number) (l : list A) :
  Forall P l -> Forall P (js_sort cmp l).
Proof. intros H. by rewrite js_sort_perm. Qed.

Lemma js_sort_nonempty {A} (cmp : A -> A -> number) (l : list A) :
  l <> [] -> js_sort cmp l <> [].
Proof.
  intros Hne Hnil. apply (f_equal length) in Hnil.
  rewrite js_sort_length in Hnil. by destruct l.
Qed.

Lemma column_median_finite (column : list number) :
  finite (column_median column).
Proof.
  rewrite column_median_middle. cbv zeta.
  set (vals := js_sort by_value (filter (fun x => Number_isFinite x) column)).
  destruct (Z.eqb_spec (Z.of_nat (length vals)) 0) as [|Hne]; [done|].
  apply middle_finite.
  - apply js_sort_Forall, Forall_forall. intros x Hx.
    apply list_elem_of_filter in Hx as [Hx _]. by apply Is_true_true in Hx.
  - intros Hnil. by rewrite Hnil in Hne.
Qed.

(** ** Sorting commutes with an increasing map *)



(** ** The scaling transform *)


Lemma num_pos_by_value (a b : Q) :
  num_pos (by_value (Fin a) (Fin b)) = true <-> (b < a)%Q.
Proof.
  unfold by_value, num_sub, fin, num_pos.
  rewrite negb_true_iff, <- not_true_iff_false, Qle_bool_iff, Qred_correct.
  split; intros H; lra.
Qed.

Lemma scale_by_finite (mu sigma a : Q) :
  (0 < sigma)%Q ->
  scale_by {| median := Fin mu; scale := Fin sigma |} (Fin a)
  = fin (Qred (a - mu) / sigma).
Proof.
  intros Hs. unfold scale_by. cbn [median scale num_sub]. unfold fin at 1.
  apply num_div_finite. lra.
Qed.




(** ** Robust statistics of a finite column *)

Lemma absdev_nonneg (m x : number) :
  finite m -> finite x -> nonneg (Math_abs (num_sub x m)).
Proof.
  intros [qm ->]%finite_Fin [qx ->]%finite_Fin.
  eexists. split; [reflexivity|]. rewrite Qred_correct. apply Qabs_nonneg.
Qed.

Lemma robustStats_finite (arr : list number) :
  Forall finite arr -> arr <> [] ->
  exists mu sigma,
    robustStats arr = {| median := Fin mu; scale := Fin sigma |}
    /\ middle (js_sort by_value arr) = Fin mu
    /\ (0 < sigma)%Q.
Proof.
  intros Hfin Hne. rewrite robustStats_middle. cbv zeta.
  set (s := js_sort by_value arr).
  assert (Hs : Forall finite s) by by apply js_sort_Forall.
  assert (Hsne : s <> []) by by apply js_sort_nonempty.
  destruct (proj1 (finite_Fin _) (middle_finite s Hs Hsne)) as [mu Hmu].
  rewrite Hmu.
  set (absDev := js_sort by_value ((fun x => Math_abs (num_sub x (Fin mu))) <$> s)).
  assert (Hmad : nonneg (middle absDev)).
  { apply middle_nonneg.
    - apply js_sort_Forall, Forall_fmap. eapply Forall_impl; [exact Hs|].
      intros x Hx. by apply absdev_nonneg.
    - apply js_sort_nonempty. by destruct s. }
  destruct Hmad as (m & -> & Hm). cbn [num_mul]. unfold fin, num_or.
  destruct (Qeq_bool (Qred ((7413 # 5000) * m)) 0) eqn:E.
  - exists mu, 1%Q. split; [done|]. split; [done|]. lra.
  - exists mu, (Qred ((7413 # 5000) * m)). split; [done|]. split; [done|].
    apply Qeq_bool_neq in E. rewrite Qred_correct in *. lra.
Qed.



(** ** Sorting numbers in ascending order *)

Lemma num_le_refl (x : number) : finite x -> num_le x x.
Proof. intros [q ->]%finite_Fin. simpl. lra. Qed.

Lemma num_le_trans (x y z : number) : num_le x y -> num_le y z -> num_le x z.
Proof. destruct x, y, z; simpl; try done. intros. lra. Qed.

Lemma num_pos_false (a b : Q) :
  num_pos (by_value (Fin a) (Fin b)) = false <-> (a <= b)%Q.
Proof.
  rewrite <- not_true_iff_false, num_pos_by_value. split; intros; lra.
Qed.

(** A comparator that decides an order [R] on the elements of [P] sorts
    them by [R]. *)
Section sorting.
Context {A : Type} (cmp : A -> A -> number) (R : A -> A -> Prop) (P : A -> Prop).
Hypothesis R_trans : forall a b c, R a b -> R b c -> R a c.
Hypothesis cmp_pos : forall a b, P a -> P b -> num_pos (cmp a b) = true -> R b a.
Hypothesis cmp_neg : forall a b, P a -> P b -> num_pos (cmp a b) = false -> R a b.

Lemma sort_insert_ordered (x : A) (l : list A) :
  P x -> Forall P l -> StronglySorted R l ->
  StronglySorted R (sort_insert cmp x l).
Proof.
  intros Hx Hfin Hs.
  induction Hs as [|y l Hsl IH Hy]; cbn [sort_insert].
  - repeat constructor.
  - inversion Hfin as [|? ? Hyf Hlf]; subst.
    destruct (num_pos (cmp x y)) eqn:E.
    + apply cmp_pos in E; [|done..]. constructor; [by apply IH|].
      rewrite sort_insert_perm. by constructor.
    + apply cmp_neg in E; [|done..]. constructor; [by constructor|].
      constructor; [done|]. eapply Forall_impl; [exact Hy|].
      intros z Hz. by apply (R_trans _ y).
Qed.

Lemma js_sort_ordered (l : list A) :
  Forall P l -> StronglySorted R (js_sort cmp l).
Proof.
  induction 1 as [|x l Hx Hl IH]; simpl; [constructor|].
  apply sort_insert_ordered; [done| |done]. by apply js_sort_Forall.
Qed.
End sorting.

Lemma js_sort_sorted (l : list number) :
  Forall finite l -> StronglySorted num_le (js_sort by_value l).
Proof.
  apply js_sort_ordered.
  - apply num_le_trans.
  - intros a b [x ->]%finite_Fin [y ->]%finite_Fin E.
    apply num_pos_by_value in E. simpl. lra.
  - intros a b [x ->]%finite_Fin [y ->]%finite_Fin E.
    by apply num_pos_false in E.
Qed.

Lemma sorted_lookup_le (s : list number) (i j : nat) (x y : number) :
  StronglySorted num_le s -> Forall finite s -> (i <= j)%nat ->
  s !! i = Some x -> s !! j = Some y -> num_le x y.
Proof.
  intros Hs Hf Hij Hx Hy.
  destruct (decide (i = j)) as [->|Hne].
  - rewrite Hx in Hy. injection Hy as <-.
    apply num_le_refl. rewrite Forall_lookup in Hf. by eapply Hf.
  - assert (Hlt : (i < j)%nat) by lia. clear Hij Hne Hf.
    revert i j Hlt Hx Hy. induction Hs as [|z s Hs IH Hz]; intros i j Hlt Hx Hy.
    + by rewrite lookup_nil in Hx.
    + destruct j as [|j]; [lia|]. destruct i as [|i].
      * simpl in Hx, Hy. injection Hx as ->. rewrite Forall_lookup in Hz.
        by eapply Hz.
      * simpl in Hx, Hy. apply (IH i j); [lia|done..].
Qed.

(** ** The scaled matrix *)


Lemma train_part_nonempty (f : Q) (seed : Z) (idxs : list nat) :
  idxs <> [] -> (split_group (Fin f) seed idxs).1 <> [].
Proof.
  intros Hne. rewrite split_group_cut. cbn [fst].
  assert (Hs : length (shuffleWithSeed idxs seed) = length idxs)
    by apply shuffleWithSeed_length.
  assert (Hc : (1 <= Z.to_nat (cut_of (length idxs) f))%nat)
    by (unfold cut_of; lia).
  intros Hnil. apply (f_equal length) in Hnil.
  rewrite length_take, Hs in Hnil. destruct idxs; [done|]. simpl in *. lia.
Qed.

Section scaling.
Context (rows : list row) (sch : schema) (f : Q).
Local Abbreviation trainFrac := (Fin f).

Lemma trIdx_nonempty : rows <> [] -> trIdx rows sch trainFrac <> [].
Proof.
  intros Hne. unfold trIdx.
  rewrite (proj1 (stratifiedSplit_parts rows trainFrac (split (seeds_of sch)) "make")).
  pose proof (groups_of_perm rows "make") as Hperm.
  destruct (groups_of rows "make") as [|[k idxs] groups] eqn:E.
  - simpl in Hperm. apply Permutation_nil_l in Hperm.
    destruct rows; [done|]. discriminate.
  - assert (Hidxs : idxs <> []).
    { apply (groups_of_nonempty rows "make" k). rewrite E. left. }
    csimpl. intros Hnil. apply app_eq_nil in Hnil as [Hnil _].
    by apply (train_part_nonempty f (split (seeds_of sch)) idxs).
Qed.

Lemma trIdx_lt (i : nat) :
  i ∈ trIdx rows sch trainFrac -> (i < length rows)%nat.
Proof.
  intros Hi.
  pose proof (stratifiedSplit_perm rows trainFrac (split (seeds_of sch)) "make")
    as Hperm.
  assert (Hin : i ∈ seq 0 (length rows)).
  { rewrite <- Hperm. apply elem_of_app. by left. }
  apply elem_of_seq in Hin. lia.
Qed.

Lemma medians_lookup (j : nat) :
  (j < length (numCols sch))%nat ->
  exists q, medians rows sch !! j = Some (Fin q).
Proof.
  intros Hj. unfold medians. cbv zeta. rewrite list_lookup_imap.
  destruct (lookup_lt_is_Some_2 _ _ Hj) as [h ->]. simpl.
  match goal with
  | |- context [column_median ?col] =>
      destruct (proj1 (finite_Fin _) (column_median_finite col)) as [q ->]
  end.
  by exists q.
Qed.

Lemma Xnum_finite (i : nat) (r : list number) :
  Xnum rows sch !! i = Some r -> Forall finite r.
Proof.
  unfold Xnum, rawNum. cbv zeta. rewrite !list_lookup_fmap.
  destruct (rows !! i) as [x|]; [|done]. simpl. intros [= <-].
  apply Forall_lookup. intros j y. rewrite list_lookup_imap, list_lookup_fmap.
  destruct (numCols sch !! j) as [h|] eqn:Eh; [|done]. simpl. intros [= <-].
  destruct (Number_isFinite (numeric_cell (x !! h))) eqn:E; [done|].
  apply lookup_lt_Some in Eh.
  destruct (medians_lookup j Eh) as [q ->]. done.
Qed.

Lemma XnumPlus_finite (i : nat) (r : list number) :
  XnumPlus rows sch trainFrac !! i = Some r -> Forall finite r.
Proof.
  rewrite XnumPlus_lookup.
  destruct (Xnum rows sch !! i) as [x|] eqn:E; [|done]. simpl. intros [= <-].
  apply Forall_app. split; [by eapply Xnum_finite|].
  apply Forall_fmap, Forall_forall. intros c Hc. simpl.
  destruct (encValue_finite rows sch trainFrac i c Hc) as [q ->]. done.
Qed.

(** A training value of a column inside the matrix. *)
Lemma train_cell (i j : nat) :
  i ∈ trIdx rows sch trainFrac ->
  (j < length (numCols sch) + length encCols)%nat ->
  exists row q,
    XnumPlus rows sch trainFrac !! i = Some row /\ row !! j = Some (Fin q).
Proof.
  intros Hi Hj. apply trIdx_lt in Hi.
  rewrite <- (length_XnumPlus rows sch trainFrac) in Hi.
  destruct (lookup_lt_is_Some_2 _ _ Hi) as [row Hrow].
  pose proof (XnumPlus_row_length rows sch trainFrac i row Hrow) as Hlen.
  pose proof (XnumPlus_finite i row Hrow) as Hfin.
  rewrite <- Hlen in Hj.
  destruct (lookup_lt_is_Some_2 _ _ Hj) as [x Hx].
  rewrite Forall_lookup in Hfin.
  destruct (proj1 (finite_Fin x) (Hfin j x Hx)) as [q ->].
  by exists row, q.
Qed.

Lemma train_column_finite (j : nat) :
  (j < length (numCols sch) + length encCols)%nat ->
  Forall finite (train_column (trIdx rows sch trainFrac)
                   (XnumPlus rows sch trainFrac) j).
Proof.
  intros Hj. unfold train_column. rewrite <- list_fmap_compose.
  apply Forall_fmap, Forall_forall. intros i Hi. simpl.
  destruct (train_cell i j Hi Hj) as (row & q & -> & Hq). simpl.
  by rewrite Hq.
Qed.

Lemma train_column_nonempty (m : list (list number)) (j : nat) :
  rows <> [] -> train_column (trIdx rows sch trainFrac) m j <> [].
Proof.
  intros Hne Hnil. apply (f_equal length) in Hnil.
  unfold train_column in Hnil. rewrite !length_fmap in Hnil.
  apply (trIdx_nonempty Hne). by apply length_zero_iff_nil.
Qed.

Lemma numStats_of_lookup (first : list number) (j : nat) (s : stats) :
  numStats_of rows sch trainFrac first !! j = Some s ->
  (j < length first)%nat
  /\ s = robustStats (train_column (trIdx rows sch trainFrac)
                        (XnumPlus rows sch trainFrac) j).
Proof.
  rewrite numStats_of_columns, list_lookup_fmap.
  destruct (seq 0 (length first) !! j) as [j'|] eqn:E; [|done].
  apply lookup_seq in E as [-> Hj]. simpl. intros [= <-]. done.
Qed.

Lemma XnumScaled_cell (st : list stats) (i j : nat) (row : list number)
    (x : number) (s : stats) :
  XnumPlus rows sch trainFrac !! i = Some row -> row !! j = Some x ->
  st !! j = Some s ->
  XnumScaled rows sch trainFrac st !! i ≫= (fun r => r !! j)
  = Some (scale_by s x).
Proof.
  intros Hrow Hx Hs. unfold XnumScaled. rewrite list_lookup_fmap, Hrow. simpl.
  by rewrite list_lookup_imap, Hx, Hs.
Qed.

End scaling.




(** * Further properties of the code *)

(** ** Sorting numbers *)

(** X1 — the numeric sort of [robustStats], [quantile] and the imputer: on
    finite numbers [sort((a,b)=>a-b)] returns the same numbers rearranged in
    ascending order. *)
Theorem X1_numeric_sort_ascending (l : list number) :
  Forall finite l ->
  js_sort by_value l ≡ₚ l
  /\ StronglySorted num_le (js_sort by_value l)
  /\ forall i j x y,
       (i <= j)%nat -> js_sort by_value l !! i = Some x ->
       js_sort by_value l !! j = Some y -> num_le x y.
Proof.
  intros Hfin. split; [apply js_sort_perm|].
  pose proof (js_sort_sorted l Hfin) as Hs. split; [done|].
  intros i j x y. apply sorted_lookup_le; [done|]. by apply js_sort_Forall.
Qed.

Lemma X1_numeric_sort_ascending_witness :
  js_sort by_value [Fin 5; Fin (1 # 2); Fin 9; Fin 3]
  = [Fin (1 # 2); Fin 3; Fin 5; Fin 9]
  /\ StronglySorted num_le (js_sort by_value [Fin 5; Fin (1 # 2); Fin 9; Fin 3]).
Proof.
  split; [reflexivity|].
  apply (X1_numeric_sort_ascending [Fin 5; Fin (1 # 2); Fin 9; Fin 3]).
  repeat constructor.
Defined.

(** ** The shuffle moves positions, whatever they hold *)

Lemma keyed_fmap {A B} (g : A -> B) (arr : list A) (seed : Z) :
  keyed (g <$> arr) seed = prod_map id g <$> keyed arr seed.
Proof.
  revert seed. induction arr as [|x arr IH]; intros seed; [done|].
  rewrite fmap_cons, !keyed_cons, fmap_cons. by rewrite IH.
Qed.

Lemma sort_insert_payload {A B} (g : A -> B) (x : number * A)
    (l : list (number * A)) :
  sort_insert by_key (prod_map id g x) (prod_map id g <$> l)
  = prod_map id g <$> sort_insert by_key x l.
Proof.
  induction l as [|y l IH]; csimpl; [done|].
  change (by_key (prod_map id g x) (prod_map id g y)) with (by_key x y).
  destruct (num_pos (by_key x y)); csimpl; [|done]. by rewrite IH.
Qed.

Lemma js_sort_payload {A B} (g : A -> B) (l : list (number * A)) :
  js_sort by_key (prod_map id g <$> l) = prod_map id g <$> js_sort by_key l.
Proof.
  induction l as [|x l IH]; csimpl; [done|].
  by rewrite IH, sort_insert_payload.
Qed.

Lemma shuffleWithSeed_fmap {A B} (g : A -> B) (arr : list A) (seed : Z) :
  shuffleWithSeed (g <$> arr) seed = g <$> shuffleWithSeed arr seed.
Proof.
  unfold shuffleWithSeed. rewrite keyed_fmap, js_sort_payload.
  rewrite <- !list_fmap_compose. by apply list_fmap_ext.
Qed.

Lemma fmap_lookup_seq {A} (d : A) (arr : list A) :
  (fun p => default d (arr !! p)) <$> seq 0 (length arr) = arr.
Proof.
  apply list_eq. intros i. rewrite list_lookup_fmap.
  destruct (arr !! i) as [x|] eqn:E.
  - rewrite lookup_seq_lt by (by eapply lookup_lt_Some). simpl. by rewrite E.
  - rewrite lookup_seq_ge; [done|]. by apply lookup_ge_None.
Qed.

(** X2 — [shuffleWithSeed] returns its input rearranged (nothing lost, nothing
    repeated), and the rearrangement depends on the seed and the length only:
    it is the shuffle of the positions [0 .. length-1], applied to the array.
    Two arrays of the same length shuffled with one seed (as the groups of the
    stratified split are) are moved by the same permutation of positions. *)
Theorem X2_shuffle_by_position (A : Type) (d : A) (arr : list A) (seed : Z) :
  let positions := shuffleWithSeed (seq 0 (length arr)) seed in
  shuffleWithSeed arr seed ≡ₚ arr
  /\ positions ≡ₚ seq 0 (length arr)
  /\ shuffleWithSeed arr seed = (fun p => default d (arr !! p)) <$> positions
  /\ forall (B : Type) (g : A -> B),
       shuffleWithSeed (g <$> arr) seed = g <$> shuffleWithSeed arr seed.
Proof.
  intros positions. split; [apply shuffleWithSeed_perm|].
  split; [apply shuffleWithSeed_perm|]. split.
  - subst positions. rewrite <- shuffleWithSeed_fmap. by rewrite fmap_lookup_seq.
  - intros B g. apply shuffleWithSeed_fmap.
Qed.

(** ** The groups of the stratified split *)

Lemma group_push_Map_set (groups : list (string * list nat)) (k : string)
    (i : nat) :
  group_push groups k i
  = Map_set groups k (default [] (Map_get groups k) ++ [i]).
Proof.
  induction groups as [|[k' idxs] groups IH]; simpl; [done|].
  destruct (decide (k = k')); simpl; [done|]. by rewrite IH.
Qed.

Lemma Map_get_elem_of {V} (m : list (string * V)) (k : string) (v : V) :
  NoDup m.*1 -> Map_get m k = Some v <-> (k, v) ∈ m.
Proof.
  induction m as [|[k' v'] m IH]; csimpl; intros Hnd.
  - split; [done|]. by intros ?%elem_of_nil.
  - inversion Hnd as [|? ? Hnin Hnd']; subst.
    rewrite elem_of_cons. destruct (decide (k = k')) as [->|Hne].
    + split; [intros [= ->]; by left|].
      intros [[= ->]|Hin]; [done|]. destruct Hnin.
      apply list_elem_of_fmap. by exists (k', v).
    + rewrite IH by done. split; [by right|]. intros [[= -> _]|?]; done.
Qed.

Lemma groups_of_snoc (rows : list row) (r : row) (key : string) :
  groups_of (rows ++ [r]) key
  = group_push (groups_of rows key) (key_or_NA (r !! key)) (length rows).
Proof.
  unfold groups_of. rewrite imap_app, foldl_app. simpl.
  by rewrite Nat.add_0_r.
Qed.

Lemma category_app_l (rows rows' : list row) (i : nat) (c : string) :
  (i < length rows)%nat -> category (rows ++ rows') i c = category rows i c.
Proof. intros Hi. unfold category. by rewrite lookup_app_l. Qed.

Lemma category_snoc (rows : list row) (r : row) (c : string) :
  category (rows ++ [r]) (length rows) c = key_or_NA (r !! c).
Proof.
  unfold category. rewrite lookup_app_r by lia. by rewrite Nat.sub_diag.
Qed.

Lemma list_filter_iff_elem_of {A} (P1 P2 : A -> Prop)
    `{!forall x, Decision (P1 x), !forall x, Decision (P2 x)} (l : list A) :
  (forall x, x ∈ l -> P1 x <-> P2 x) -> filter P1 l = filter P2 l.
Proof.
  induction l as [|a l IH]; intros HPQ; [done|].
  rewrite !filter_cons, IH by (intros x Hx; apply HPQ; by right).
  destruct (decide (P1 a)) as [H1|H1], (decide (P2 a)) as [H2|H2]; try done.
  - destruct H2. apply HPQ; [left|done].
  - destruct H1. apply HPQ; [left|done].
Qed.

Lemma filter_category_snoc (rows : list row) (r : row) (key k : string) :
  filter (fun i => category (rows ++ [r]) i key = k)
         (seq 0 (length (rows ++ [r])))
  = filter (fun i => category rows i key = k) (seq 0 (length rows))
    ++ (if decide (key_or_NA (r !! key) = k) then [length rows] else []).
Proof.
  rewrite length_app. simpl. rewrite seq_app, filter_app. f_equal.
  - apply list_filter_iff_elem_of. intros i Hi%elem_of_seq.
    by rewrite category_app_l by lia.
  - simpl. rewrite filter_cons, filter_nil, category_snoc.
    by destruct (decide (key_or_NA (r !! key) = k)).
Qed.

(** The group of a key is the ascending list of the rows that have it. *)
Lemma groups_of_lookup (rows : list row) (key : string) :
  NoDup (groups_of rows key).*1
  /\ forall k,
       Map_get (groups_of rows key) k
       = let idxs := filter (fun i => category rows i key = k)
                            (seq 0 (length rows)) in
         if decide (idxs = []) then None else Some idxs.
Proof.
  induction rows as [|r rows [IHnd IH]] using rev_ind; [by split; [constructor|]|].
  rewrite groups_of_snoc, group_push_Map_set.
  split; [by apply Map_set_NoDup|]. intros k. cbv zeta.
  rewrite filter_category_snoc.
  destruct (decide (key_or_NA (r !! key) = k)) as [->|Hne].
  - rewrite Map_get_set_eq, IH. cbv zeta.
    set (idxs := filter _ _).
    destruct (decide (idxs ++ [length rows] = [])) as [[_ ?]%app_eq_nil|_];
      [done|].
    by destruct (decide (idxs = [])) as [->|].
  - rewrite Map_get_set_ne by done. rewrite app_nil_r. apply IH.
Qed.

Lemma group_push_firsts (groups : list (string * list nat)) (k : string)
    (i : nat) :
  Forall (fun e => e.2 <> []) groups ->
  firsts (group_push groups k i)
  = if decide (k ∈ groups.*1) then firsts groups else firsts groups ++ [i].
Proof.
  unfold firsts.
  induction 1 as [|[k' idxs] groups Hx Hg IH]; csimpl; [done|].
  destruct (decide (k = k')) as [->|Hne]; csimpl.
  - rewrite decide_True by left. f_equal. by destruct idxs.
  - rewrite IH. destruct (decide (k ∈ groups.*1)) as [Hin|Hnin].
    + by rewrite decide_True by (by right).
    + rewrite decide_False; [done|]. by intros [?|?]%elem_of_cons.
Qed.

Lemma sorted_snoc (l : list nat) (n : nat) :
  StronglySorted lt l -> Forall (fun i => (i < n)%nat) l ->
  StronglySorted lt (l ++ [n]).
Proof.
  induction 1 as [|x l Hs IH Hx]; intros Hn; simpl.
  - repeat constructor.
  - inversion Hn; subst. constructor; [by apply IH|].
    apply Forall_app. split; [done|]. by repeat constructor.
Qed.

Lemma groups_of_Forall (rows : list row) (key : string) :
  Forall (fun e => e.2 <> []) (groups_of rows key).
Proof.
  apply Forall_forall. intros [k idxs] Hin. by eapply groups_of_nonempty.
Qed.

Lemma groups_of_firsts (rows : list row) (key : string) :
  StronglySorted lt (firsts (groups_of rows key))
  /\ Forall (fun i => (i < length rows)%nat) (firsts (groups_of rows key)).
Proof.
  induction rows as [|r rows [IHs IHlt]] using rev_ind; [by split; constructor|].
  rewrite groups_of_snoc, group_push_firsts by apply groups_of_Forall.
  rewrite length_app. simpl.
  assert (Hlt : Forall (fun i => (i < length rows + 1)%nat)
                       (firsts (groups_of rows key))).
  { eapply Forall_impl; [exact IHlt|]. simpl. lia. }
  destruct (decide _); [done|]. split; [by apply sorted_snoc|].
  apply Forall_app. split; [done|]. repeat constructor. lia.
Qed.

(** X3 — the grouping loop of [stratifiedSplit]: the [Map] has one group per
    distinct key value (a missing cell counts as ["__NA__"]); the group of a
    key lists, in ascending order, exactly the rows with that key; no group is
    empty; and the groups stand in the order in which their keys first appear
    in the rows. *)
Theorem X3_groups_of_rows (rows : list row) (key : string) :
  let groups := groups_of rows key in
  NoDup groups.*1
  /\ (forall k, k ∈ groups.*1
                <-> exists i, (i < length rows)%nat /\ category rows i key = k)
  /\ (forall k idxs,
        (k, idxs) ∈ groups ->
        idxs <> []
        /\ idxs = filter (fun i => category rows i key = k)
                         (seq 0 (length rows)))
  /\ StronglySorted lt (firsts groups).
Proof.
  intros groups. destruct (groups_of_lookup rows key) as [Hnd Hget].
  split; [done|]. split; [|split].
  - intros k. split.
    + intros [[k' idxs] [-> Hin]]%list_elem_of_fmap. simpl.
      apply Map_get_elem_of in Hin; [|done]. rewrite Hget in Hin.
      cbv zeta in Hin. destruct (decide _) as [|Hne]; [done|].
      injection Hin as <-.
      destruct (filter _ _) as [|i l] eqn:E; [done|].
      assert (Hi : i ∈ filter (fun i => category rows i key = k')
                              (seq 0 (length rows))) by (rewrite E; left).
      apply list_elem_of_filter in Hi as [Hc Hi%elem_of_seq].
      exists i. split; [lia|done].
    + intros [i [Hi Hc]].
      destruct (Map_get groups k) as [idxs|] eqn:E.
      * apply Map_get_elem_of in E; [|done].
        apply list_elem_of_fmap. by exists (k, idxs).
      * subst groups. rewrite Hget in E. cbv zeta in E.
        destruct (decide _) as [Hnil|]; [|done].
        assert (Hin : i ∈ filter (fun i => category rows i key = k)
                                 (seq 0 (length rows))).
        { apply list_elem_of_filter. split; [done|]. apply elem_of_seq. lia. }
        rewrite Hnil in Hin. by apply elem_of_nil in Hin.
  - intros k idxs Hin. split; [by eapply groups_of_nonempty|].
    apply Map_get_elem_of in Hin; [|done]. rewrite Hget in Hin.
    cbv zeta in Hin. destruct (decide _); [done|]. by injection Hin.
  - apply groups_of_firsts.
Qed.

(** ** Train fractions outside (0,1] *)

Lemma split_group_all (frac : number) (seed : Z) (idxs : list nat) :
  idxs <> [] ->
  (exists f, frac = Fin f /\ (1 <= f)%Q) \/ frac = PInf ->
  split_group frac seed idxs = (shuffleWithSeed idxs seed, []).
Proof.
  intros Hne [[f [-> Hf]]| ->].
  - rewrite split_group_cut.
    assert (Hcut : Z.of_nat (length idxs) <= cut_of (length idxs) f).
    { unfold cut_of. etrans; [|apply Z.le_max_r].
      rewrite <- (Qfloor_Z (Z.of_nat (length idxs))) at 1.
      apply Qfloor_resp_le.
      assert (0 <= inject_Z (Z.of_nat (length idxs)))%Q
        by (rewrite <- (Zle_Qle 0); lia).
      nra. }
    rewrite take_ge, drop_ge by (rewrite shuffleWithSeed_length; lia). done.
  - unfold split_group.
    destruct (slice_cut (shuffleWithSeed idxs seed)
                (Math_max (Fin 1)
                   (Math_floor
                      (num_mul (num_of_nat (length (shuffleWithSeed idxs seed)))
                         PInf)))) as [-> ->].
    rewrite shuffleWithSeed_length.
    assert (Hmul : num_mul (num_of_nat (length idxs)) PInf = PInf).
    { destruct idxs as [|i idxs]; [done|]. reflexivity. }
    rewrite Hmul. cbn [Math_floor Math_max relative_index].
    by rewrite take_ge, drop_ge by (by rewrite shuffleWithSeed_length).
Qed.

Lemma split_group_one (frac : number) (seed : Z) (idxs : list nat) :
  (exists f, frac = Fin f /\ (f <= 0)%Q) \/ frac = NInf ->
  idxs <> [] ->
  split_group frac seed idxs
  = (take 1 (shuffleWithSeed idxs seed), drop 1 (shuffleWithSeed idxs seed)).
Proof.
  intros [[f [-> Hf]]| ->] Hne.
  - rewrite split_group_cut.
    assert (Hcut : cut_of (length idxs) f = 1).
    { unfold cut_of. apply Z.max_l.
      assert (H : (inject_Z (Z.of_nat (length idxs)) * f <= inject_Z 0)%Q).
      { assert (0 <= inject_Z (Z.of_nat (length idxs)))%Q
          by (rewrite <- (Zle_Qle 0); lia).
        change (inject_Z 0) with 0%Q. nra. }
      apply Qfloor_resp_le in H. rewrite Qfloor_Z in H. lia. }
    by rewrite Hcut.
  - unfold split_group.
    destruct (slice_cut (shuffleWithSeed idxs seed)
                (Math_max (Fin 1)
                   (Math_floor
                      (num_mul (num_of_nat (length (shuffleWithSeed idxs seed)))
                         NInf)))) as [-> ->].
    rewrite shuffleWithSeed_length.
    assert (Hmul : num_mul (num_of_nat (length idxs)) NInf = NInf).
    { destruct idxs as [|i idxs]; [done|]. reflexivity. }
    rewrite Hmul. cbn [Math_floor Math_max].
    change (Fin 1) with (Fin (inject_Z 1)).
    rewrite relative_index_int by lia.
    assert (Hlen : (1 <= length idxs)%nat)
      by (destruct idxs; [done|simpl; lia]).
    rewrite Nat.min_l; [done|]. change (Z.to_nat 1) with 1%nat. lia.
Qed.

Lemma split_group_NaN (seed : Z) (idxs : list nat) :
  split_group NaN seed idxs = ([], shuffleWithSeed idxs seed).
Proof.
  unfold split_group.
  destruct (slice_cut (shuffleWithSeed idxs seed)
              (Math_max (Fin 1)
                 (Math_floor
                    (num_mul (num_of_nat (length (shuffleWithSeed idxs seed)))
                       NaN)))) as [-> ->].
  reflexivity.
Qed.

Lemma parts_ext (frac : number) (seed : Z) (groups : list (list nat))
    (g h : list nat -> list nat) :
  (forall idxs, idxs ∈ groups -> split_group frac seed idxs = (g idxs, h idxs)) ->
  train_parts frac seed groups = g <$> groups
  /\ test_parts frac seed groups = h <$> groups.
Proof.
  intros H. unfold train_parts, test_parts.
  split; apply list_fmap_ext; intros j idxs Hin%list_elem_of_lookup_2;
    by rewrite H.
Qed.

Lemma groups_of_values_nonempty (rows : list row) (key : string)
    (idxs : list nat) :
  idxs ∈ (groups_of rows key).*2 -> idxs <> [].
Proof.
  intros [[k idxs'] [-> Hin]]%list_elem_of_fmap. by eapply groups_of_nonempty.
Qed.

Lemma concat_nil_fmap {A B} (l : list A) : concat ((fun _ => @nil B) <$> l) = [].
Proof. induction l; [done|]. done. Qed.

Lemma length_concat_take1 {A} (g : list A -> list A) (l : list (list A)) :
  (forall x, x ∈ l -> g x <> []) ->
  length (concat ((fun x => take 1 (g x)) <$> l)) = length l.
Proof.
  induction l as [|x l IH]; intros H; [done|]. csimpl.
  rewrite length_app, IH by (intros y Hy; apply H; by right).
  assert (Hx : g x <> []) by (apply H; left).
  destruct (g x); [done|]. done.
Qed.

(** X4 — what [stratifiedSplit] does with a train fraction outside (0,1].
    At 1 or above (or [Infinity]) every row goes to train and test is empty.
    At 0 or below (or [-Infinity]) the cut [max(1, ...)] is 1: every group
    gives exactly its first shuffled index to train, so train has one row per
    group.  With [NaN] (as [undefined * n] gives) the cut is [NaN]:
    [slice(0, NaN)] is empty and [slice(NaN)] is everything, so train is empty
    and every row is a test row. *)
Theorem X4_split_fraction_out_of_range (rows : list row) (seed : Z)
    (key : string) :
  let groups := (groups_of rows key).*2 in
  let shuffled := (fun idxs => shuffleWithSeed idxs seed) <$> groups in
  (forall frac,
      (exists f, frac = Fin f /\ (1 <= f)%Q) \/ frac = PInf ->
      train (stratifiedSplit rows frac seed key) = concat shuffled
      /\ test (stratifiedSplit rows frac seed key) = [])
  /\ (forall frac,
        (exists f, frac = Fin f /\ (f <= 0)%Q) \/ frac = NInf ->
        train (stratifiedSplit rows frac seed key) = concat (take 1 <$> shuffled)
        /\ test (stratifiedSplit rows frac seed key) = concat (drop 1 <$> shuffled)
        /\ length (train (stratifiedSplit rows frac seed key)) = length groups)
  /\ train (stratifiedSplit rows NaN seed key) = []
  /\ test (stratifiedSplit rows NaN seed key) = concat shuffled.
Proof.
  intros groups shuffled. split; [|split].
  - intros frac Hfrac.
    destruct (stratifiedSplit_parts rows frac seed key) as [-> ->].
    fold groups.
    destruct (parts_ext frac seed groups
                (fun idxs => shuffleWithSeed idxs seed) (fun _ => []))
      as [-> ->]; [|split; [done|apply concat_nil_fmap]].
    intros idxs Hin. apply split_group_all; [|done].
    by eapply groups_of_values_nonempty.
  - intros frac Hfrac.
    destruct (stratifiedSplit_parts rows frac seed key) as [-> ->].
    fold groups.
    destruct (parts_ext frac seed groups
                (fun idxs => take 1 (shuffleWithSeed idxs seed))
                (fun idxs => drop 1 (shuffleWithSeed idxs seed)))
      as [-> ->].
    { intros idxs Hin. apply split_group_one; [done|].
      by eapply groups_of_values_nonempty. }
    subst shuffled. rewrite <- !list_fmap_compose.
    split; [done|]. split; [done|].
    apply (length_concat_take1 (fun idxs => shuffleWithSeed idxs seed)).
    intros idxs Hin Hnil. apply (groups_of_values_nonempty rows key idxs Hin).
    apply Permutation_nil_r. by rewrite <- Hnil, shuffleWithSeed_perm.
  - destruct (stratifiedSplit_parts rows NaN seed key) as [-> ->].
    fold groups.
    destruct (parts_ext NaN seed groups
                (fun _ => []) (fun idxs => shuffleWithSeed idxs seed))
      as [-> ->]; [|split; [apply concat_nil_fmap|done]].
    intros idxs Hin. apply split_group_NaN.
Qed.

(** ** Folds are dealt round robin *)

Lemma K_eq : K = 5%nat.
Proof. by vm_compute. Qed.

Lemma deal_snoc (s : list nat) (i : nat) :
  deal (s ++ [i]) = alter (fun a => a ++ [i]) (length s mod K)%nat (deal s).
Proof.
  unfold deal. rewrite imap_app, foldl_app. simpl. by rewrite Nat.add_0_r.
Qed.

(** Fold [f] holds the elements at the positions [f], [f+K], [f+2K], ... *)
Lemma deal_lookup (s : list nat) (f : nat) :
  (f < K)%nat ->
  deal s !! f
  = Some ((filter (fun e : nat * nat => (e.1 mod K)%nat = f) (imap pair s)).*2).
Proof.
  intros Hf. induction s as [|i s IH] using rev_ind.
  - unfold deal. simpl. by rewrite lookup_replicate_2.
  - rewrite deal_snoc, imap_app, filter_app, fmap_app. simpl.
    rewrite Nat.add_0_r, filter_cons, filter_nil. simpl.
    destruct (decide ((length s mod K)%nat = f)) as [Heq|Hne].
    + rewrite Heq, list_lookup_alter_eq, IH. done.
    + rewrite list_lookup_alter_ne by done. by rewrite IH, app_nil_r.
Qed.

Lemma filter_imap_pair_length (s : list nat) (f : nat) :
  length (filter (fun e : nat * nat => (e.1 mod K)%nat = f) (imap pair s))
  = length (filter (fun p => (p mod K)%nat = f) (seq 0 (length s))).
Proof.
  induction s as [|i s IH] using rev_ind; [done|].
  rewrite imap_app, length_app, Nat.add_1_r, seq_S, !filter_app, !length_app, IH.
  simpl. rewrite Nat.add_0_r, !filter_cons, !filter_nil. simpl.
  by destruct (decide _).
Qed.

Lemma count_residue (n f : nat) :
  (f < 5)%nat ->
  length (filter (fun p => (p mod 5)%nat = f) (seq 0 n)) = ((n + 4 - f) / 5)%nat.
Proof.
  intros Hf. induction n as [|n IH].
  - rewrite Nat.div_small by lia. done.
  - rewrite seq_S, filter_app, length_app, IH.
    change (0 + n)%nat with n. rewrite filter_cons, filter_nil.
    pose proof (Nat.div_mod_eq n 5) as Hn.
    pose proof (Nat.mod_upper_bound n 5 ltac:(lia)) as Hm.
    pose proof (Nat.div_mod_eq (n + 4 - f) 5) as H1.
    pose proof (Nat.mod_upper_bound (n + 4 - f) 5 ltac:(lia)) as H1m.
    pose proof (Nat.div_mod_eq (S n + 4 - f) 5) as H2.
    pose proof (Nat.mod_upper_bound (S n + 4 - f) 5 ltac:(lia)) as H2m.
    destruct (decide ((n mod 5)%nat = f)); cbn [length]; lia.
Qed.

Lemma trIdx_teIdx_NoDup (rows : list row) (sch : schema) (trainFrac : number) :
  NoDup (trIdx rows sch trainFrac ++ teIdx rows sch trainFrac).
Proof.
  unfold trIdx, teIdx. rewrite stratifiedSplit_perm. apply NoDup_seq.
Qed.

Lemma elem_of_deal (s : list nat) (f i : nat) (a : list nat) :
  (f < K)%nat -> deal s !! f = Some a ->
  i ∈ a <-> exists p, s !! p = Some i /\ (p mod K)%nat = f.
Proof.
  intros Hf Ha. rewrite deal_lookup in Ha by done. injection Ha as <-.
  rewrite list_elem_of_fmap. split.
  - intros [[p i'] [-> [Hp Hin]%list_elem_of_filter]]. simpl in *.
    apply elem_of_lookup_imap in Hin as (p' & i'' & [= -> ->] & Hl).
    by exists p'.
  - intros [p [Hl Hp]]. exists (p, i). split; [done|].
    apply list_elem_of_filter. split; [done|].
    apply elem_of_lookup_imap. by exists p, i.
Qed.

Lemma foldOf_None (rows : list row) (sch : schema) (trainFrac : number)
    (i : nat) :
  i ∉ trIdx rows sch trainFrac -> foldOf rows sch trainFrac !! i = None.
Proof.
  intros Hi. destruct (foldOf rows sch trainFrac !! i) as [f|] eqn:E; [|done].
  apply foldOf_Some in E as [_ [a [Ha Hin]]]. destruct Hi.
  rewrite <- (proj2 (folds_perm rows sch trainFrac)).
  apply elem_of_concat. exists a. split; [done|].
  by eapply list_elem_of_lookup_2.
Qed.

(** X5 — the K-fold assignment: the training indices are shuffled with the
    [kfold] seed and dealt round robin, so the index at position [p] of the
    shuffle is in fold [p mod 5]; a row outside the train partition is in no
    fold.  Fold [f] holds [ceil((n - f) / 5)] of the [n] training rows, so
    two folds differ in size by at most one (and a fold is empty when there
    are fewer than five training rows). *)
Theorem X5_folds_round_robin (rows : list row) (sch : schema)
    (trainFrac : number) :
  let trIdx := trIdx rows sch trainFrac in
  let folds := folds rows sch trainFrac in
  let foldOf := foldOf rows sch trainFrac in
  let s := shuffleWithSeed trIdx (kfold (seeds_of sch)) in
  (forall p i, s !! p = Some i -> foldOf !! i = Some (p mod 5)%nat)
  /\ (forall i, i ∉ trIdx -> foldOf !! i = None)
  /\ (forall f, (f < 5)%nat ->
        exists a, folds !! f = Some a
                  /\ (forall i, i ∈ a
                                <-> exists p, s !! p = Some i /\ (p mod 5)%nat = f)
                  /\ length a = ((length trIdx + 4 - f) / 5)%nat)
  /\ (forall f g a b,
        folds !! f = Some a -> folds !! g = Some b ->
        (length a <= length b + 1)%nat).
Proof.
  intros tr fs fo s.
  assert (Hnd : NoDup s).
  { subst s. rewrite shuffleWithSeed_perm.
    exact (proj1 (proj1 (NoDup_app _ _) (trIdx_teIdx_NoDup rows sch trainFrac))). }
  assert (Hfold : forall f, (f < 5)%nat ->
            exists a, fs !! f = Some a
              /\ (forall i, i ∈ a
                            <-> exists p, s !! p = Some i /\ (p mod 5)%nat = f)
              /\ length a = ((length tr + 4 - f) / 5)%nat).
  { intros f Hf. rewrite <- K_eq in Hf.
    eexists. split; [apply (deal_lookup s f Hf)|]. split.
    - intros i. rewrite <- K_eq. apply (elem_of_deal s f i); [done|].
      by apply deal_lookup.
    - rewrite length_fmap, filter_imap_pair_length, K_eq.
      rewrite count_residue by (by rewrite <- K_eq).
      subst s. by rewrite shuffleWithSeed_length. }
  split; [|split; [|split]].
  - intros p i Hp.
    assert (Hin : i ∈ tr).
    { rewrite <- (shuffleWithSeed_perm tr (kfold (seeds_of sch))).
      by eapply list_elem_of_lookup_2. }
    destruct (foldOf_train rows sch trainFrac i Hin) as [f Hf].
    subst fo. rewrite Hf. f_equal.
    apply foldOf_Some in Hf as [HfK [a [Ha Hia]]].
    rewrite (elem_of_deal s f i a HfK Ha) in Hia.
    destruct Hia as [p' [Hp' Hmod]].
    rewrite (NoDup_lookup s p p' i Hnd Hp Hp'). by rewrite <- K_eq.
  - apply foldOf_None.
  - exact Hfold.
  - intros f g a b Ha Hb.
    assert (Hf : (f < 5)%nat).
    { apply lookup_lt_Some in Ha. subst fs.
      rewrite (proj1 (folds_perm rows sch trainFrac)), K_eq in Ha. done. }
    assert (Hg : (g < 5)%nat).
    { apply lookup_lt_Some in Hb. subst fs.
      rewrite (proj1 (folds_perm rows sch trainFrac)), K_eq in Hb. done. }
    destruct (Hfold f Hf) as [a' [Ha' [_ Hla]]].
    destruct (Hfold g Hg) as [b' [Hb' [_ Hlb]]].
    rewrite Ha in Ha'. injection Ha' as <-.
    rewrite Hb in Hb'. injection Hb' as <-.
    rewrite Hla, Hlb.
    pose proof (Nat.div_mod_eq (length tr + 4 - f) 5) as H1.
    pose proof (Nat.mod_upper_bound (length tr + 4 - f) 5 ltac:(lia)) as H1m.
    pose proof (Nat.div_mod_eq (length tr + 4 - g) 5) as H2.
    pose proof (Nat.mod_upper_bound (length tr + 4 - g) 5 ltac:(lia)) as H2m.
    lia.
Qed.

(** ** Encoding the test rows *)

Lemma teIdx_not_train (rows : list row) (sch : schema) (trainFrac : number)
    (i : nat) :
  i ∈ teIdx rows sch trainFrac -> i ∉ trIdx rows sch trainFrac.
Proof.
  intros Hte Htr.
  pose proof (trIdx_teIdx_NoDup rows sch trainFrac) as Hnd.
  apply NoDup_app in Hnd as (_ & Hdis & _). by apply (Hdis i).
Qed.

(** X6 — a test row is encoded with the full map of the column, fit on all
    training rows and on no test row: its cell is
    [(sum + 10 * globalMean) / (count + 10)] over the training rows of its
    category that have a finite raw target.  When there is no such training
    row (a category seen in the test partition only) the cell is the
    ["__UNK__"] entry: [globalMean], unless training rows carry the literal
    category ["__UNK__"], whose smoothed mean is then used.  This for a
    column whose values are plain keys of an object. *)
Theorem X6_test_rows_use_full_maps (rows : list row) (sch : schema)
    (trainFrac : number) (i : nat) (c : string) :
  i ∈ teIdx rows sch trainFrac -> c ∈ encCols -> plain_column rows c ->
  let trIdx := trIdx rows sch trainFrac in
  let gm := globalMean rows sch trainFrac in
  let m := encoding_map rows sch trainFrac c trIdx in
  let fitting k := rows_of_category rows c k trIdx in
  let entry k :=
    smoothed (sum_of rows c k trIdx) (num_of_nat (length (fitting k))) gm
             (Fin 10) in
  foldOf rows sch trainFrac !! i = None
  /\ fullMaps rows sch trainFrac !! c = Some m
  /\ encValue rows (foldOf rows sch trainFrac) (encMapsByFold rows sch trainFrac)
       (fullMaps rows sch trainFrac) i c
     = nullish (m !! category rows i c) (m !! "__UNK__")
  /\ encValue rows (foldOf rows sch trainFrac) (encMapsByFold rows sch trainFrac)
       (fullMaps rows sch trainFrac) i c
     = Some (if decide (fitting (category rows i c) = [])
             then (if decide (fitting "__UNK__" = []) then gm
                   else entry "__UNK__")
             else entry (category rows i c))
  /\ (forall k j, j ∈ fitting k -> j ∈ trIdx /\ j <> i).
Proof.
  intros Hte Hc _ tr gm m fitting entry.
  pose proof (teIdx_not_train rows sch trainFrac i Hte) as Hntr.
  pose proof (foldOf_None rows sch trainFrac i Hntr) as Hfold.
  assert (Hfull : fullMaps rows sch trainFrac !! c = Some m)
    by (by rewrite fullMaps_lookup, decide_True).
  assert (Henc : encValue rows (foldOf rows sch trainFrac)
                   (encMapsByFold rows sch trainFrac)
                   (fullMaps rows sch trainFrac) i c
                 = nullish (m !! category rows i c) (m !! "__UNK__")).
  { unfold encValue. cbv zeta. by rewrite Hfold, Hfull. }
  split; [done|]. split; [done|]. split; [done|]. split.
  - rewrite Henc. subst m.
    rewrite (encoding_map_lookup rows sch trainFrac c tr (category rows i c)).
    fold (fitting (category rows i c)).
    destruct (decide (fitting (category rows i c) = [])) as [Hnil|Hne];
      [|reflexivity].
    destruct (decide (category rows i c = "__UNK__")) as [Heq|Hneq].
    + rewrite <- Heq, Hnil. by rewrite decide_True.
    + cbn [nullish].
      rewrite (encoding_map_lookup rows sch trainFrac c tr "__UNK__").
      fold (fitting "__UNK__").
      destruct (decide (fitting "__UNK__" = [])); [|reflexivity].
      by rewrite decide_True.
  - intros k j [_ Hj]%list_elem_of_filter. split; [done|]. by intros ->.
Qed.

Lemma X6_test_rows_use_full_maps_witness :
  2%nat ∈ teIdx demo_rows demo_schema (Fin (4 # 5))
  /\ foldOf demo_rows demo_schema (Fin (4 # 5)) !! 2%nat = None
  /\ fullMaps demo_rows demo_schema (Fin (4 # 5)) !! "make"
     = Some (encoding_map demo_rows demo_schema (Fin (4 # 5)) "make"
               (trIdx demo_rows demo_schema (Fin (4 # 5)))).
Proof.
  assert (Hi : 2%nat ∈ teIdx demo_rows demo_schema (Fin (4 # 5)))
    by (vm_compute; left).
  assert (Hc : "make" ∈ encCols) by (vm_compute; left).
  assert (Hp : plain_column demo_rows "make")
    by (apply (bool_decide_unpack _); vm_compute; exact I).
  destruct (X6_test_rows_use_full_maps demo_rows demo_schema (Fin (4 # 5)) 2
              "make" Hi Hc Hp) as (H1 & H2 & _).
  split; [exact Hi|]. split; [exact H1 | exact H2].
Defined.

(** ** Median imputation *)







(** ** The width of the numeric output *)

Lemma length_encCols : length encCols = 7%nat.
Proof. by vm_compute. Qed.

Lemma teIdx_lt (rows : list row) (sch : schema) (trainFrac : number) (i : nat) :
  i ∈ teIdx rows sch trainFrac -> (i < length rows)%nat.
Proof.
  intros Hi.
  assert (H : i ∈ trIdx rows sch trainFrac ++ teIdx rows sch trainFrac)
    by (apply elem_of_app; by right).
  unfold trIdx, teIdx in H. rewrite stratifiedSplit_perm in H.
  apply elem_of_seq in H. lia.
Qed.

(** A scaled row of a row index: as long as the matrix row, finite cells. *)
Lemma XnumScaled_row (rows : list row) (sch : schema) (f : Q)
    (first : list number) (i : nat) :
  XnumPlus rows sch (Fin f) !! 0%nat = Some first ->
  (i < length rows)%nat ->
  exists row,
    XnumScaled rows sch (Fin f) (numStats_of rows sch (Fin f) first) !! i
    = Some row
    /\ length row = (length (numCols sch) + 7)%nat
    /\ Forall finite row.
Proof.
  intros Hfirst Hi.
  assert (Hrows : rows <> []) by (destruct rows; [simpl in Hi; lia|done]).
  destruct (lookup_lt_is_Some_2 (XnumPlus rows sch (Fin f)) i) as [r Hr];
    [by rewrite length_XnumPlus|].
  pose proof (XnumPlus_row_length rows sch (Fin f) i r Hr) as Hlen.
  pose proof (XnumPlus_row_length rows sch (Fin f) 0 first Hfirst) as Hlen0.
  pose proof (XnumPlus_finite rows sch f i r Hr) as Hfin.
  destruct (lookup_lt_is_Some_2
              (XnumScaled rows sch (Fin f) (numStats_of rows sch (Fin f) first))
              i) as [row Hrow].
  { unfold XnumScaled. by rewrite length_fmap, length_XnumPlus. }
  assert (Hlrow : length row = length r).
  { unfold XnumScaled in Hrow. rewrite list_lookup_fmap, Hr in Hrow.
    injection Hrow as <-. by rewrite length_imap. }
  exists row. split; [done|]. split; [by rewrite Hlrow, Hlen, length_encCols|].
  apply Forall_lookup. intros j y Hy.
  assert (Hj : (j < length r)%nat) by (apply lookup_lt_Some in Hy; lia).
  destruct (lookup_lt_is_Some_2 r j Hj) as [x Ex].
  destruct (lookup_lt_is_Some_2 (numStats_of rows sch (Fin f) first) j)
    as [s Hs].
  { rewrite numStats_of_columns, length_fmap, length_seq. lia. }
  pose proof (XnumScaled_cell rows sch f _ i j r x s Hr Ex Hs) as Hcell.
  rewrite Hrow in Hcell. simpl in Hcell. rewrite Hy in Hcell.
  injection Hcell as ->.
  apply numStats_of_lookup in Hs as [_ ->].
  destruct (robustStats_finite
              (train_column (trIdx rows sch (Fin f))
                 (XnumPlus rows sch (Fin f)) j))
    as (mu & sigma & -> & _ & Hsigma).
  { apply train_column_finite. lia. }
  { by apply train_column_nonempty. }
  rewrite Forall_lookup in Hfin.
  destruct (proj1 (finite_Fin x) (Hfin j x Ex)) as [a ->].
  by rewrite scale_by_finite.
Qed.

(** The rows of the numeric output: of the full width, with finite cells. *)
Lemma numeric_output_rows (rows : list row) (sch : schema) (f : Q)
    (out : tensors) (sch' : schema) :
  buildTabularTensors rows sch (Fin f) = Ok (out, sch') ->
  Forall (fun row => length row = (length (numCols sch) + 7)%nat
                     /\ Forall finite row)
         (XnumTrainArr out ++ XnumTestArr out).
Proof.
  intros H.
  apply buildTabularTensors_Ok in H as (xcats & first & _ & Hfirst & -> & ->).
  cbn [XnumTrainArr XnumTestArr].
  assert (Hrow : forall i, (i < length rows)%nat ->
            let row := default []
              (XnumScaled rows sch (Fin f) (numStats_of rows sch (Fin f) first)
                 !! i) in
            length row = (length (numCols sch) + 7)%nat /\ Forall finite row).
  { intros i Hi.
    destruct (XnumScaled_row rows sch f first i Hfirst Hi)
      as (row & -> & Hl & Hf). by split. }
  apply Forall_app. split; apply Forall_fmap, Forall_forall; intros i Hi;
    apply Hrow.
  - unfold trainOrder_ in Hi. rewrite shuffleWithSeed_perm, tr_filter in Hi.
    apply list_elem_of_filter in Hi as [_ Hi]. by eapply trIdx_lt.
  - rewrite te_filter in Hi.
    apply list_elem_of_filter in Hi as [_ Hi]. by eapply teIdx_lt.
Qed.

(** X8 — on success the one field written to the schema, [numInputDim], is
    the number of numeric columns plus the seven target-encoded columns, and
    the other fields are untouched.  There is one scaling entry per such
    column, and every row of the train and test matrices has exactly that
    many cells. *)
Theorem X8_numeric_width (rows : list row) (sch : schema)
    (f : Q) (out : tensors) (sch' : schema) :
  buildTabularTensors rows sch (Fin f) = Ok (out, sch') ->
  let width := (length (numCols sch) + 7)%nat in
  numInputDim sch' = Some width
  /\ (numCols sch' = numCols sch /\ catCols sch' = catCols sch
      /\ catMaps sch' = catMaps sch /\ __seeds sch' = __seeds sch)
  /\ length (numStats out) = width
  /\ Forall (fun row => length row = width)
            (XnumTrainArr out ++ XnumTestArr out).
Proof.
  intros H width.
  pose proof (numeric_output_rows rows sch f out sch' H) as Hrows.
  apply buildTabularTensors_Ok in H as (xcats & first & _ & Hfirst & -> & ->).
  pose proof (XnumPlus_row_length rows sch (Fin f) 0 first Hfirst) as Hlen0.
  rewrite length_encCols in Hlen0.
  cbn [numInputDim numCols catCols catMaps __seeds set_numInputDim numStats].
  split; [by rewrite Hlen0|]. split; [done|]. split.
  - by rewrite numStats_of_columns, length_fmap, length_seq.
  - eapply Forall_impl; [exact Hrows|]. by intros row [? _].
Qed.

Lemma X8_numeric_width_witness :
  exists out sch',
    buildTabularTensors demo_rows demo_schema (Fin (4 # 5)) = Ok (out, sch')
    /\ numInputDim sch' = Some 8%nat
    /\ length (numStats out) = 8%nat.
Proof.
  destruct (proj2 (buildTabularTensors_succeeds demo_rows demo_schema (Fin (4 # 5)))
              demo_inputs_accepted) as [[out sch'] E].
  exists out, sch'. split; [exact E|].
  destruct (X8_numeric_width _ _ _ _ _ E) as (H1 & _ & H2 & _).
  split; [exact H1 | exact H2].
Defined.

(** ** No finite training target *)

Lemma quantile_nil (q : number) : quantile [] q = NaN.
Proof.
  unfold quantile. cbn [js_sort length].
  destruct (at_number [] (Math_floor (num_mul (num_sub (num_of_nat 0) (Fin 1)) q)))
    as [x|] eqn:E; [|done].
  unfold at_number in E.
  destruct (Math_floor _) as [k| | |]; try done.
  destruct (Qeq_bool _ _); [|done].
  unfold at_index in E. destruct (_ <? 0); [done|].
  by rewrite lookup_nil in E.
Qed.

Lemma clip_NaN (v : number) : clip v NaN NaN = NaN.
Proof. reflexivity. Qed.

Lemma yLog_no_target (rows : list row) (sch : schema) (trainFrac : number)
    (i : nat) :
  trainPrices rows sch trainFrac = [] ->
  default LNaN (yLog rows sch trainFrac !! i) = LNaN.
Proof.
  intros Hnil. unfold yLog, pricesClipped, pLo, pHi. cbv zeta.
  rewrite Hnil, !quantile_nil, !list_lookup_fmap.
  destruct (pricesRaw rows !! i) as [v|]; [|done]. simpl.
  by destruct (Number_isFinite v).
Qed.

Lemma filter_nil_all {A} (P : A -> Prop) `{!forall x, Decision (P x)}
    (l : list A) :
  (forall x, x ∈ l -> ~ P x) -> filter P l = [].
Proof.
  induction l as [|x l IH]; intros Hall; [done|].
  rewrite filter_cons_False by (apply Hall; left).
  apply IH. intros y Hy. apply Hall. by right.
Qed.

(** X9 — when no training row has a finite raw target (every training price
    is missing or not a number, or the train fraction is NaN so that no row
    trains), the winsorization bounds are NaN, every transformed target is
    NaN, and no row is kept, test rows with a valid price included: on rows
    and a schema that are otherwise in order the call ends in the error of
    [tf.tensor2d] on the empty training matrix. *)
Theorem X9_no_training_target (rows : list row) (sch : schema)
    (trainFrac : number) :
  rows <> [] ->
  (forall h, h ∈ catCols sch -> is_Some (catMaps sch !! h)) ->
  trainPrices rows sch trainFrac = [] ->
  (pLo rows sch trainFrac = NaN /\ pHi rows sch trainFrac = NaN)
  /\ Forall (fun y => y = LNaN) (yLog rows sch trainFrac)
  /\ (tr rows sch trainFrac = [] /\ te rows sch trainFrac = [])
  /\ exists msg, buildTabularTensors rows sch trainFrac = Throw (Error msg).
Proof.
  intros Hne Hcat Hnil.
  assert (Htr : tr rows sch trainFrac = []).
  { rewrite tr_filter. apply filter_nil_all. intros i _.
    by rewrite (yLog_no_target rows sch trainFrac i Hnil). }
  assert (Hte : te rows sch trainFrac = []).
  { rewrite te_filter. apply filter_nil_all. intros i _.
    by rewrite (yLog_no_target rows sch trainFrac i Hnil). }
  split; [|split; [|split; [done|]]].
  - unfold pLo, pHi. by rewrite Hnil, !quantile_nil.
  - apply Forall_lookup. intros i y Hy.
    pose proof (yLog_no_target rows sch trainFrac i Hnil) as Hi.
    by rewrite Hy in Hi.
  - destruct (buildTabularTensors rows sch trainFrac) as [[out sch']|e] eqn:E.
    + apply buildTabularTensors_kept in E as [E _]. by rewrite Htr in E.
    + apply buildTabularTensors_Throw in E
        as [[_ [E|(h & Hh & E)]]|[[msg ->] _]].
      * done.
      * destruct (Hcat h Hh) as [cm Hcm]. congruence.
      * by exists msg.
Qed.

Lemma X9_no_training_target_witness :
  teIdx demo_rows demo_schema NaN = [1; 3; 0; 2; 5; 4]%nat
  /\ price demo_rows 0 = Fin 10000
  /\ te demo_rows demo_schema NaN = []
  /\ exists msg, buildTabularTensors demo_rows demo_schema NaN = Throw (Error msg).
Proof.
  assert (Hnil : trainPrices demo_rows demo_schema NaN = [])
    by (vm_compute; reflexivity).
  destruct demo_inputs_accepted as (Hne & Hcat & _).
  destruct (X9_no_training_target demo_rows demo_schema NaN Hne Hcat Hnil)
    as (_ & _ & [_ H1] & H2).
  split; [vm_compute; reflexivity|]. split; [vm_compute; reflexivity|].
  split; [exact H1 | exact H2].
Defined.

(** ** Quantiles *)













(** ** Winsorizing the target *)




(** ** The rows of the CSV reader *)

Lemma trim_start_head (l : list ascii) :
  match trim_start l with
  | [] => True
  | c :: _ => is_space c = false
  end.
Proof.
  induction l as [|c l IH]; simpl; [done|].
  destruct (is_space c) eqn:E; [done|]. done.
Qed.

Lemma trim_start_suffix (l : list ascii) : exists p, l = p ++ trim_start l.
Proof.
  induction l as [|c l [p IH]]; simpl; [by exists []|].
  destruct (is_space c); [|by exists []].
  exists (c :: p). simpl. by rewrite <- IH.
Qed.

Lemma trim_start_id (l : list ascii) :
  match l with [] => True | c :: _ => is_space c = false end ->
  trim_start l = l.
Proof. destruct l as [|c l]; simpl; [done|]. by intros ->. Qed.

Lemma trim_idemp (l : list ascii) : trim (trim l) = trim l.
Proof.
  unfold trim. set (m := trim_start (rev (trim_start l))).
  assert (Hm : trim_start m = m) by (apply trim_start_id, trim_start_head).
  assert (Hr : trim_start (rev m) = rev m).
  { apply trim_start_id.
    destruct (trim_start_suffix (rev (trim_start l))) as [p Hp]. fold m in Hp.
    assert (Hl : trim_start l = rev m ++ rev p).
    { rewrite <- (rev_involutive (trim_start l)), Hp. apply rev_app_distr. }
    pose proof (trim_start_head l) as Hh. rewrite Hl in Hh.
    by destruct (rev m). }
  by rewrite Hr, rev_involutive, Hm.
Qed.

Lemma cells_of_trimmed (sep : ascii) (line : list ascii) (j : nat) :
  trimmed (default "" (cells_of sep line !! j)).
Proof.
  unfold cells_of. rewrite list_lookup_fmap.
  destruct (split_on sep line !! j) as [s|]; simpl; [|done].
  unfold trimmed. by rewrite list_ascii_of_string_of_list_ascii, trim_idemp.
Qed.

(** The object a line becomes: one key per header cell, the cell of the last
    column with that name. *)
Lemma row_of_cells (cells header : list string) (h : string) :
  let obj := foldl (fun (obj : row) '(i, h) => <[h := default "" (cells !! i)]> obj)
                   ∅ (imap pair header) in
  (is_Some (obj !! h) <-> h ∈ header)
  /\ (forall j, header !! j = Some h ->
                (forall j', (j < j')%nat -> header !! j' <> Some h) ->
                obj !! h = Some (default "" (cells !! j)))
  /\ (forall v, obj !! h = Some v -> exists j, v = default "" (cells !! j)).
Proof.
  induction header as [|h0 header IH] using rev_ind.
  - simpl. split; [|split].
    + rewrite lookup_empty. split; [by intros [? ?]|by intros ?%elem_of_nil].
    + intros j Hj. by rewrite lookup_nil in Hj.
    + intros v. by rewrite lookup_empty.
  - cbv zeta in *. rewrite imap_app, foldl_app. simpl. rewrite Nat.add_0_r.
    destruct IH as (IH1 & IH2 & IH3).
    destruct (decide (h = h0)) as [->|Hne].
    + rewrite lookup_insert_eq. split; [|split].
      * split; [intros _; apply elem_of_app; right; left|by eexists].
      * intros j Hj Hlast. f_equal. f_equal. f_equal.
        apply lookup_lt_Some in Hj as Hlt. rewrite length_app in Hlt.
        simpl in Hlt. destruct (decide (j = length header)) as [->|Hnj]; [done|].
        destruct (Hlast (length header)); [lia|].
        rewrite lookup_app_r by lia. by rewrite Nat.sub_diag.
      * intros v [= <-]. by eexists.
    + rewrite lookup_insert_ne by done. split; [|split].
      * rewrite IH1, elem_of_app, list_elem_of_singleton. tauto.
      * intros j Hj Hlast.
        assert (Hlt : (j < length header)%nat).
        { apply lookup_lt_Some in Hj as Hlt. rewrite length_app in Hlt.
          simpl in Hlt. destruct (decide (j = length header)) as [->|Hnj]; [|lia].
          rewrite lookup_app_r in Hj by lia. rewrite Nat.sub_diag in Hj.
          by injection Hj as ->. }
        rewrite lookup_app_l in Hj by done. apply IH2; [done|].
        intros j' Hj' Hh. apply (Hlast j' Hj').
        apply lookup_lt_Some in Hh as Hlt'. by rewrite lookup_app_l.
      * exact IH3.
Qed.

(** X12 — the rows [parseCarsCSV] returns: one row per line after the header
    line, in order; a row has exactly the header cells as keys; the value of
    a key is the trimmed cell of the line at that key's column (the last such
    column when a name repeats), and the empty string when the line is too
    short; so every value is free of surrounding white space.  This for a
    header without a cell ["__proto__"], the one name an assignment does not
    store under. *)
Theorem X12_parsed_rows (text : string) (rows : list row) :
  parseCarsCSV text = Ok rows ->
  "__proto__" ∉ header_of text ->
  let header := header_of text in
  let sep := separator (list_ascii_of_string text) in
  let lines := tail (split_lines (trim (list_ascii_of_string text))) in
  "price" ∈ header
  /\ length rows = length lines
  /\ forall i r,
       rows !! i = Some r ->
       exists line,
         lines !! i = Some line
         /\ (forall h, is_Some (r !! h) <-> h ∈ header)
         /\ (forall j h,
               header !! j = Some h ->
               (forall j', (j < j')%nat -> header !! j' <> Some h) ->
               r !! h = Some (default "" (cells_of sep line !! j)))
         /\ (forall h v, r !! h = Some v -> trimmed v).
Proof.
  intros H _ header sep lines. unfold parseCarsCSV in H. subst lines.
  destruct (split_lines (trim (list_ascii_of_string text))) as [|first lines];
    [done|].
  destruct (bool_decide ("price" ∈ header_of text)) eqn:E; [|done].
  apply bool_decide_eq_true in E. injection H as <-.
  split; [done|]. split; [by rewrite length_fmap|].
  intros i r Hr. rewrite list_lookup_fmap in Hr. cbn [tail].
  destruct (lines !! i) as [line|]; [|done]. injection Hr as <-.
  exists line. split; [done|].
  fold header sep. split; [|split].
  - intros h. apply (row_of_cells (cells_of sep line) header h).
  - intros j h. apply (row_of_cells (cells_of sep line) header h).
  - intros h v Hv.
    apply (row_of_cells (cells_of sep line) header h) in Hv as [j ->].
    apply cells_of_trimmed.
Qed.

Lemma parseCarsCSV_accepts (text : string) :
  "price" ∈ header_of text -> exists rows, parseCarsCSV text = Ok rows.
Proof.
  intros Hp. pose proof (parseCarsCSV_header text) as H.
  by rewrite bool_decide_eq_true_2 in H.
Qed.

Lemma X12_parsed_rows_witness :
  exists rows,
    parseCarsCSV short_line_text = Ok rows
    /\ "price" ∈ header_of short_line_text
    /\ length rows = 2%nat.
Proof.
  assert (Hp : "price" ∈ header_of short_line_text)
    by (apply (bool_decide_eq_true_1 ("price" ∈ header_of short_line_text));
        vm_compute; reflexivity).
  destruct (parseCarsCSV_accepts short_line_text Hp) as [rows E].
  exists rows. split; [exact E|].
  assert (Hplain : "__proto__" ∉ header_of short_line_text)
    by (apply (bool_decide_unpack _); vm_compute; exact I).
  destruct (X12_parsed_rows short_line_text rows E Hplain) as (H1 & H2 & _).
  split; [exact H1|]. etrans; [exact H2|]. vm_compute. reflexivity.
Defined.

(** ** The order of strings *)

Lemma ascii_compare_refl (a : ascii) : Ascii.compare a a = Eq.
Proof. unfold Ascii.compare. apply N.compare_refl. Qed.

Lemma ascii_compare_lt_trans (a b c : ascii) :
  Ascii.compare a b = Lt -> Ascii.compare b c = Lt -> Ascii.compare a c = Lt.
Proof. unfold Ascii.compare. rewrite !N.compare_lt_iff. lia. Qed.

Lemma string_compare_lt_trans (a b c : string) :
  String.compare a b = Lt -> String.compare b c = Lt -> String.compare a c = Lt.
Proof.
  revert b c. induction a as [|x a IH]; intros [|y b] [|z c]; simpl; try done.
  destruct (Ascii.compare x y) eqn:Exy, (Ascii.compare y z) eqn:Eyz; try done.
  - apply Ascii.compare_eq_iff in Exy, Eyz. subst.
    rewrite ascii_compare_refl. apply IH.
  - apply Ascii.compare_eq_iff in Exy. subst. by rewrite Eyz.
  - apply Ascii.compare_eq_iff in Eyz. subst. by rewrite Exy.
  - by rewrite (ascii_compare_lt_trans x y z).
Qed.

Lemma string_le_trans (a b c : string) :
  string_le a b -> string_le b c -> string_le a c.
Proof.
  unfold string_le, String.leb. intros Hab Hbc.
  destruct (String.compare a b) eqn:Eab; [| |done].
  - apply String.compare_eq_iff in Eab. by subst.
  - destruct (String.compare b c) eqn:Ebc; [| |done].
    + apply String.compare_eq_iff in Ebc. subst. by rewrite Eab.
    + by rewrite (string_compare_lt_trans a b c).
Qed.

#[global] Instance string_le_antisym : AntiSymm eq string_le.
Proof. intros a b. apply String.leb_antisym. Qed.

Lemma default_compare_pos (a b : string) :
  num_pos (default_compare a b) = true -> string_le b a.
Proof.
  unfold default_compare, string_le, String.ltb, String.leb.
  rewrite (String.compare_antisym a b).
  by destruct (String.compare b a).
Qed.

Lemma default_compare_neg (a b : string) :
  num_pos (default_compare a b) = false -> string_le a b.
Proof.
  unfold default_compare, string_le, String.ltb, String.leb.
  rewrite (String.compare_antisym b a).
  by destruct (String.compare a b).
Qed.

Lemma js_sort_strings (l : list string) :
  StronglySorted string_le (js_sort default_compare l).
Proof.
  apply (js_sort_ordered default_compare string_le (fun _ => True)).
  - apply string_le_trans.
  - intros a b _ _. apply default_compare_pos.
  - intros a b _ _. apply default_compare_neg.
  - by apply Forall_forall.
Qed.

(** ** The schema analyzer *)

Lemma count_cells_spec (rows : list row) (h : string) :
  count_cells rows h
  = (length rows, length (filter (fun r : row => isNumeric (r !! h)) rows)).
Proof.
  unfold count_cells.
  assert (H : forall cnt num,
            foldl (fun '(cnt, num) (r : row) =>
                     ((cnt + 1)%nat,
                      if isNumeric (r !! h) then (num + 1)%nat else num))
                  (cnt, num) rows
            = ((cnt + length rows)%nat,
               (num + length (filter (fun r : row => isNumeric (r !! h)) rows))%nat)).
  { induction rows as [|r rows IH]; intros cnt num; simpl.
    - by rewrite !Nat.add_0_r.
    - rewrite IH, filter_cons. f_equal; [lia|].
      destruct (isNumeric (r !! h)); simpl; lia. }
  apply (H 0%nat 0%nat).
Qed.

Lemma share_test (cnt num : nat) :
  (0 < cnt)%nat ->
  num_ge (num_div (num_of_nat num) (num_of_nat cnt)) (Fin (4 # 5)) = true
  <-> (4 * cnt <= 5 * num)%nat.
Proof.
  intros Hcnt. unfold num_of_nat.
  assert (Hc : (0 < inject_Z (Z.of_nat cnt))%Q)
    by (rewrite <- (Zlt_Qlt 0); lia).
  rewrite num_div_finite by lra. unfold fin, num_ge.
  rewrite Qle_bool_iff, Qred_correct.
  set (c := inject_Z (Z.of_nat cnt)) in *. set (n := inject_Z (Z.of_nat num)).
  assert (Hx : (n / c * c == n)%Q) by (field; lra).
  assert (Hiff : (4 * c <= 5 * n)%Q <-> (4 * cnt <= 5 * num)%nat).
  { subst c n. change 4%Q with (inject_Z 4). change 5%Q with (inject_Z 5).
    rewrite <- !inject_Z_mult, <- Zle_Qle. lia. }
  rewrite <- Hiff. set (x := (n / c)%Q) in *.
  assert (H45 : (4 # 5 == 4 / 5)%Q) by reflexivity.
  split; intros H.
  - assert (H1 : ((4 # 5) * c <= x * c)%Q) by nra. rewrite Hx in H1. lra.
  - assert (H1 : ((4 # 5) * c <= x * c)%Q) by (rewrite Hx; lra). nra.
Qed.

Lemma classify_fold (headers : list string) (rows : list row)
    (targetName : string) (acc : list string * list string) :
  rows <> [] ->
  foldl (fun '(numCols, catCols) h =>
           if decide (h = targetName) then (numCols, catCols)
           else
             let '(cnt, num) := count_cells rows h in
             if num_ge (num_div (num_of_nat num) (num_of_nat cnt))
                       (Fin (4 # 5))
             then (numCols ++ [h], catCols)
             else (numCols, catCols ++ [h]))
        acc headers
  = (acc.1 ++ filter (fun h => h <> targetName /\ mostly_numeric rows h) headers,
     acc.2 ++ filter (fun h => h <> targetName /\ ~ mostly_numeric rows h) headers).
Proof.
  intros Hne. revert acc.
  induction headers as [|h headers IH]; intros [nc cc]; cbn [foldl fst snd].
  - by rewrite !app_nil_r.
  - rewrite !filter_cons. destruct (decide (h = targetName)) as [->|Hh].
    + rewrite IH. cbn [fst snd].
      rewrite decide_False by (by intros [? _]).
      by rewrite decide_False by (by intros [? _]).
    + rewrite count_cells_spec.
      assert (Hlen : (0 < length rows)%nat) by (destruct rows; [done|simpl; lia]).
      destruct (num_ge _ _) eqn:E.
      * apply (share_test _ _ Hlen) in E. rewrite IH. cbn [fst snd].
        rewrite decide_True by done.
        rewrite decide_False by (intros [_ Hn]; by apply Hn).
        by rewrite <- app_assoc.
      * assert (Hn : ~ mostly_numeric rows h).
        { intros Hm. apply (share_test _ _ Hlen) in Hm. congruence. }
        rewrite IH. cbn [fst snd].
        rewrite decide_False by (by intros [_ ?]).
        rewrite decide_True by done. by rewrite <- app_assoc.
Qed.

Lemma classify_spec (headers : list string) (rows : list row)
    (targetName : string) :
  rows <> [] ->
  classify headers rows targetName
  = (filter (fun h => h <> targetName /\ mostly_numeric rows h) headers,
     filter (fun h => h <> targetName /\ ~ mostly_numeric rows h) headers).
Proof. intros Hne. unfold classify. by rewrite classify_fold. Qed.

Lemma Set_add_fold {A} (g : A -> string) (l : list A) (set : list string) :
  NoDup set ->
  let set' := foldl (fun set r => Set_add set (g r)) set l in
  NoDup set' /\ forall v, v ∈ set' <-> v ∈ set \/ exists r, r ∈ l /\ g r = v.
Proof.
  revert set. induction l as [|r l IH]; intros set Hnd; simpl.
  - split; [done|]. intros v. split; [by left|].
    intros [?|(r & Hr & _)]; [done|]. by apply elem_of_nil in Hr.
  - assert (Hnd' : NoDup (Set_add set (g r))).
    { unfold Set_add. destruct (decide (g r ∈ set)); [done|].
      apply NoDup_app. split; [done|]. split; [|apply NoDup_singleton].
      by intros x Hx ->%list_elem_of_singleton. }
    destruct (IH _ Hnd') as [IH1 IH2]. split; [done|].
    intros v. rewrite IH2. unfold Set_add.
    destruct (decide (g r ∈ set)) as [Hin|Hnin].
    + split.
      * intros [?|(r' & Hr' & Hg)]; [by left|].
        right. exists r'. split; [by right|done].
      * intros [?|(r' & [->|Hr']%elem_of_cons & Hg)]; [by left| |].
        -- left. by rewrite <- Hg.
        -- right. by exists r'.
    + rewrite elem_of_app, list_elem_of_singleton. split.
      * intros [[?| ->]|(r' & Hr' & Hg)]; [by left| |].
        -- right. exists r. split; [left|done].
        -- right. exists r'. split; [by right|done].
      * intros [?|(r' & [->|Hr']%elem_of_cons & Hg)]; [by left; left| |].
        -- left. by right.
        -- right. by exists r'.
Qed.

(** The codes [arr.forEach((v,i) => map[v] = i+1)] assigns. *)
Lemma codes_lookup (arr : list string) (init : gmap string Z) (v : string) :
  NoDup arr ->
  let map := foldl (fun (map : gmap string Z) '(i, v) =>
                      <[v := Z.of_nat i + 1]> map)
                   init (imap pair arr) in
  (forall i, arr !! i = Some v -> map !! v = Some (Z.of_nat i + 1))
  /\ (v ∉ arr -> map !! v = init !! v).
Proof.
  induction arr as [|x arr IH] using rev_ind; intros Hnd.
  - simpl. split; [|done]. intros i Hi. by rewrite lookup_nil in Hi.
  - apply NoDup_app in Hnd as (Hnd & Hdis & _).
    assert (Hx : x ∉ arr) by (intros Hin; apply (Hdis x Hin); left).
    destruct (IH Hnd) as [IH1 IH2]. cbv zeta in *.
    rewrite imap_app, foldl_app. simpl. rewrite Nat.add_0_r.
    destruct (decide (v = x)) as [->|Hne].
    + rewrite lookup_insert_eq. split.
      * intros i Hi. apply lookup_lt_Some in Hi as Hlt.
        rewrite length_app in Hlt. simpl in Hlt.
        destruct (decide (i = length arr)) as [->|Hni]; [done|].
        rewrite lookup_app_l in Hi by lia.
        destruct Hx. by eapply list_elem_of_lookup_2.
      * intros Hnin. destruct Hnin. apply elem_of_app. right. left.
    + rewrite lookup_insert_ne by done. split.
      * intros i Hi.
        assert (Hlt : (i < length arr)%nat).
        { apply lookup_lt_Some in Hi as Hlt. rewrite length_app in Hlt.
          simpl in Hlt. destruct (decide (i = length arr)) as [->|Hni]; [|lia].
          rewrite lookup_app_r in Hi by lia. rewrite Nat.sub_diag in Hi.
          by injection Hi as ->. }
        rewrite lookup_app_l in Hi by done. by apply IH1.
      * intros Hnin. apply IH2. intros Hin. apply Hnin, elem_of_app. by left.
Qed.

(** The values of a categorical column, sorted: the array the codes follow. *)
Lemma catMap_of_spec (rows : list row) (h : string) :
  exists arr,
    NoDup arr
    /\ (forall v, v ∈ arr <-> exists r, r ∈ rows /\ key_or_NA (r !! h) = v)
    /\ cat_size (catMap_of rows h) = Z.of_nat (length arr) + 1
    /\ (forall i v, arr !! i = Some v ->
                    cat_map (catMap_of rows h) !! v = Some (Z.of_nat i + 1))
    /\ (forall v, v ∉ arr ->
                  cat_map (catMap_of rows h) !! v
                  = if decide (v = "__UNK__") then Some 0 else None)
    /\ StronglySorted string_le arr.
Proof.
  unfold catMap_of. cbv zeta. cbn [cat_map cat_size].
  set (set := foldl (fun set (r : row) => Set_add set (key_or_NA (r !! h))) [] rows).
  destruct (Set_add_fold (fun r : row => key_or_NA (r !! h)) rows [] (NoDup_nil_2))
    as [Hnd Hin]. fold set in Hnd, Hin.
  set (arr := js_sort default_compare set).
  assert (Hperm : arr ≡ₚ set) by apply js_sort_perm.
  assert (Hnd' : NoDup arr) by (by rewrite Hperm).
  exists arr. split; [done|]. split; [|split; [done|split; [|split]]].
  - intros v. rewrite Hperm, Hin. split; [|by right].
    intros [?%elem_of_nil|?]; done.
  - intros i v. by apply codes_lookup.
  - intros v Hv. rewrite (proj2 (codes_lookup arr _ v Hnd') Hv).
    destruct (decide (v = "__UNK__")) as [->|Hne].
    + by rewrite lookup_singleton_eq.
    + by rewrite lookup_singleton_ne.
  - apply js_sort_strings.
Qed.

Lemma catMap_of_perm (rows rows' : list row) (h : string) :
  rows ≡ₚ rows' -> catMap_of rows h = catMap_of rows' h.
Proof.
  intros Hperm. unfold catMap_of. cbv zeta.
  set (key := fun r : row => key_or_NA (r !! h)).
  destruct (Set_add_fold key rows [] (NoDup_nil_2)) as [Hnd Hin].
  destruct (Set_add_fold key rows' [] (NoDup_nil_2)) as [Hnd' Hin'].
  cbv zeta in Hnd, Hin, Hnd', Hin'.
  set (set := foldl (fun set (r : row) => Set_add set (key r)) [] rows) in *.
  set (set' := foldl (fun set (r : row) => Set_add set (key r)) [] rows') in *.
  assert (Hsets : set ≡ₚ set').
  { apply NoDup_Permutation; [done..|]. intros v. rewrite Hin, Hin'.
    by setoid_rewrite Hperm. }
  assert (Harr : js_sort default_compare set = js_sort default_compare set').
  { apply (StronglySorted_unique string_le); [apply js_sort_strings..|].
    by rewrite !js_sort_perm. }
  subst set set' key. cbv beta in Harr. by rewrite Harr.
Qed.

Lemma mostly_numeric_perm (rows rows' : list row) (h : string) :
  rows ≡ₚ rows' -> mostly_numeric rows h <-> mostly_numeric rows' h.
Proof. intros Hperm. unfold mostly_numeric. by rewrite Hperm. Qed.

Lemma catMaps_lookup (rows : list row) (catCols : list string) (h : string) :
  foldl (fun (catMaps : gmap string catMap) h => <[h := catMap_of rows h]> catMaps)
        ∅ catCols !! h
  = if decide (h ∈ catCols) then Some (catMap_of rows h) else None.
Proof. by rewrite (lookup_foldl_insert (catMap_of rows)), lookup_empty. Qed.

Lemma analyzeColumns_Ok (headers : list string) (rows : list row)
    (targetName : string) :
  rows <> [] ->
  let catCols := filter (fun h => h <> targetName /\ ~ mostly_numeric rows h)
                        headers in
  analyzeColumns headers rows targetName
  = Ok {| numCols := filter (fun h => h <> targetName /\ mostly_numeric rows h)
                            headers;
          catCols := catCols;
          catMaps := foldl (fun catMaps h => <[h := catMap_of rows h]> catMaps)
                           ∅ catCols;
          __seeds := None; numInputDim := None |}.
Proof.
  intros Hne catCols. unfold analyzeColumns.
  destruct rows as [|r rows]; [done|]. by rewrite classify_spec.
Qed.

Lemma code_in_range (rows : list row) (h v : string) (code : Z) :
  cat_map (catMap_of rows h) !! v = Some code ->
  0 <= code < cat_size (catMap_of rows h).
Proof.
  destruct (catMap_of_spec rows h) as (arr & Hnd & Hin & Hsize & Hcode & Hunk & _).
  intros Hv. rewrite Hsize.
  destruct (decide (v ∈ arr)) as [[i Hi]%list_elem_of_lookup|Hnin].
  - rewrite (Hcode i v Hi) in Hv. injection Hv as <-.
    apply lookup_lt_Some in Hi. lia.
  - rewrite (Hunk v Hnin) in Hv. destruct (decide (v = "__UNK__")); [|done].
    injection Hv as <-. lia.
Qed.

Lemma observed_code (rows : list row) (h : string) (r : row) :
  r ∈ rows ->
  exists code,
    cat_map (catMap_of rows h) !! key_or_NA (r !! h) = Some code
    /\ 1 <= code < cat_size (catMap_of rows h).
Proof.
  destruct (catMap_of_spec rows h) as (arr & Hnd & Hin & Hsize & Hcode & _).
  intros Hr.
  assert (Hv : key_or_NA (r !! h) ∈ arr) by (apply Hin; by exists r).
  apply list_elem_of_lookup in Hv as [i Hi].
  exists (Z.of_nat i + 1). split; [by apply Hcode|].
  apply lookup_lt_Some in Hi. lia.
Qed.

(** X13 — [analyzeColumns]: an empty list of rows is a [TypeError].
    Otherwise the headers other than the target are split, in header order,
    into the numeric columns (at least 80% of the cells parse as numbers) and
    the categorical columns (all others); the target is in neither list.
    Every categorical column, and no other key, has a code table: the distinct
    values of the column (a missing, empty or ["?"] cell counts as
    ["__NA__"]) in ascending string order get the codes 1, 2, ... in that
    order, [size] is their number plus one, and ["__UNK__"] keeps code 0
    unless it occurs as a value.  So every code of the table lies in
    [[0, size)], and every value that occurs in the rows has a code in
    [[1, size)].  This for headers and cells that are plain keys of an
    object. *)
Theorem X13_analyzeColumns_schema (headers : list string) (rows : list row)
    (targetName : string) :
  Forall plain headers -> Forall (plain_column rows) headers ->
  (rows = [] -> analyzeColumns headers rows targetName = Throw TypeError)
  /\ (rows <> [] ->
      exists sch,
        analyzeColumns headers rows targetName = Ok sch
        /\ numCols sch
           = filter (fun h => h <> targetName /\ mostly_numeric rows h) headers
        /\ catCols sch
           = filter (fun h => h <> targetName /\ ~ mostly_numeric rows h) headers
        /\ (targetName ∉ numCols sch ++ catCols sch)
        /\ (forall h, h ∈ headers -> h <> targetName ->
                      (h ∈ numCols sch <-> h ∉ catCols sch))
        /\ (__seeds sch = None /\ numInputDim sch = None)
        /\ (forall h, is_Some (catMaps sch !! h) <-> h ∈ catCols sch)
        /\ forall h cm,
             catMaps sch !! h = Some cm ->
             cm = catMap_of rows h
             /\ (exists arr,
                    NoDup arr /\ StronglySorted string_le arr
                    /\ (forall v, v ∈ arr
                                  <-> exists r, r ∈ rows /\ key_or_NA (r !! h) = v)
                    /\ cat_size cm = Z.of_nat (length arr) + 1
                    /\ (forall i v, arr !! i = Some v ->
                                    cat_map cm !! v = Some (Z.of_nat i + 1))
                    /\ (forall v, plain v -> v ∉ arr ->
                                  cat_map cm !! v
                                  = if decide (v = "__UNK__") then Some 0
                                    else None))
             /\ (forall v code, cat_map cm !! v = Some code ->
                                0 <= code < cat_size cm)
             /\ (forall r, r ∈ rows ->
                           exists code,
                             cat_map cm !! key_or_NA (r !! h) = Some code
                             /\ 1 <= code < cat_size cm)).
Proof.
  intros _ _.
  split; [by intros ->|]. intros Hne.
  eexists. split; [by apply analyzeColumns_Ok|]. cbn [numCols catCols catMaps
    __seeds numInputDim].
  split; [done|]. split; [done|]. split.
  { rewrite elem_of_app, !list_elem_of_filter. intros [[[? _] _]|[[? _] _]]; done. }
  split.
  { intros h Hh Hht. rewrite !list_elem_of_filter.
    destruct (decide (mostly_numeric rows h)); tauto. }
  split; [done|]. split.
  { intros h. rewrite catMaps_lookup.
    destruct (decide _); split; try done; try (by eexists); by intros [? ?]. }
  intros h cm. rewrite catMaps_lookup. destruct (decide _); [|done].
  intros [= <-]. split; [done|]. split; [|split].
  - destruct (catMap_of_spec rows h) as (arr & H1 & H2 & H3 & H4 & H5 & H6).
    exists arr. repeat (split; [done|]). intros v _. apply H5.
  - intros v code. apply code_in_range.
  - intros r. apply observed_code.
Qed.

Lemma X13_analyzeColumns_schema_witness :
  exists sch,
    analyzeColumns demo_headers demo_rows "price" = Ok sch
    /\ numCols sch = ["hp"] /\ catCols sch = ["make"].
Proof.
  assert (Hh : Forall plain demo_headers)
    by (apply (bool_decide_unpack _); vm_compute; exact I).
  assert (Hc : Forall (plain_column demo_rows) demo_headers)
    by (apply (bool_decide_unpack _); vm_compute; exact I).
  destruct (X13_analyzeColumns_schema demo_headers demo_rows "price" Hh Hc)
    as [_ H].
  destruct H as (sch & E & Hnum & Hcat & _); [discriminate|].
  exists sch. split; [exact E|].
  split; [etrans; [exact Hnum|]|etrans; [exact Hcat|]]; vm_compute; reflexivity.
Defined.

(** X14 — the schema does not depend on the order of the rows: reordering
    the rows leaves the numeric and categorical columns and every code table
    as they were (the codes follow the sorted values, not the order in which
    the values are met). *)
Theorem X14_schema_independent_of_row_order (headers : list string)
    (rows rows' : list row) (targetName : string) :
  rows ≡ₚ rows' ->
  analyzeColumns headers rows targetName
  = analyzeColumns headers rows' targetName.
Proof.
  intros Hperm.
  destruct (decide (rows = [])) as [->|Hne].
  { apply Permutation_nil_l in Hperm. by subst. }
  assert (Hne' : rows' <> []).
  { intros ->. by apply Permutation_nil_r in Hperm. }
  rewrite !analyzeColumns_Ok by done. cbv zeta.
  assert (Hnum : filter (fun h => h <> targetName /\ mostly_numeric rows h) headers
                 = filter (fun h => h <> targetName /\ mostly_numeric rows' h)
                          headers).
  { apply list_filter_iff. intros h. by rewrite (mostly_numeric_perm rows rows'). }
  assert (Hcat : filter (fun h => h <> targetName /\ ~ mostly_numeric rows h) headers
                 = filter (fun h => h <> targetName /\ ~ mostly_numeric rows' h)
                          headers).
  { apply list_filter_iff. intros h. by rewrite (mostly_numeric_perm rows rows'). }
  rewrite Hnum, Hcat. do 2 f_equal.
  apply map_eq. intros h. rewrite !catMaps_lookup.
  by rewrite (catMap_of_perm rows rows').
Qed.

Lemma X14_schema_independent_of_row_order_witness :
  analyzeColumns demo_headers demo_rows "price"
  = analyzeColumns demo_headers (reverse demo_rows) "price".
Proof.
  apply (X14_schema_independent_of_row_order demo_headers demo_rows
           (reverse demo_rows) "price").
  symmetry. apply reverse_Permutation.
Defined.

(** ** From the analyzer to the tensors *)

Lemma mapM_lookup {A B} (f : A -> result B) (l : list A) (bs : list B)
    (j : nat) (a : A) :
  mapM f l = Ok bs -> l !! j = Some a ->
  exists b, bs !! j = Some b /\ f a = Ok b.
Proof.
  revert bs j. induction l as [|x l IH]; intros bs j H Hj; [done|].
  simpl in H. destruct (f x) as [b|e] eqn:Ex; [|done]. simpl in H.
  destruct (mapM f l) as [bs'|e] eqn:El; [|done]. simpl in H.
  injection H as <-. destruct j as [|j].
  - injection Hj as <-. by exists b.
  - simpl in Hj. by apply (IH bs' j).
Qed.

(** A column of codes: the code of every row's value, 0 for a value the
    table does not hold. *)
Lemma Xcats_lookup (rows : list row) (sch : schema) (xcats : list (list Z))
    (j : nat) (h : string) (cm : catMap) :
  Xcats rows sch = Ok xcats -> rows <> [] ->
  catCols sch !! j = Some h -> catMaps sch !! h = Some cm ->
  xcats !! j
  = Some ((fun r : row => default 0 (cat_map cm !! key_or_NA (r !! h))) <$> rows).
Proof.
  intros HX Hne Hh Hcm. unfold Xcats in HX.
  destruct (mapM_lookup _ _ _ j h HX Hh) as (col & Hcol & Hf).
  destruct rows as [|r rows]; [done|]. rewrite Hcm in Hf.
  injection Hf as <-. done.
Qed.

(** X15 — the flow of the application: the schema [analyzeColumns] derives
    from a list of rows, with the application's seeds, has a code table for
    every categorical column, so that [buildTabularTensors] on the same rows
    never fails with a [TypeError]: it returns, or it ends in the error of
    [tf.tensor2d] when a partition keeps no row.  The target column is not
    among the numeric features, and when the call returns every categorical
    code that reaches the train and test arrays lies in [[1, size)] for its
    column's table: no row falls back to the unknown code 0, and no code is
    out of the range of an embedding of [size] entries.  This for headers and
    cells that are plain keys of an object. *)
Theorem X15_analyzed_schema_feeds_the_pipeline (headers : list string)
    (rows : list row) (f : Q) (sch : schema) :
  analyzeColumns headers rows "price" = Ok sch ->
  Forall plain headers -> Forall (plain_column rows) headers ->
  ("price" ∉ numCols sch)
  /\ (forall h, h ∈ catCols sch -> is_Some (catMaps sch !! h))
  /\ buildTabularTensors rows (with_seeds SEEDS sch) (Fin f) <> Throw TypeError
  /\ forall out sch',
       buildTabularTensors rows (with_seeds SEEDS sch) (Fin f) = Ok (out, sch') ->
       length (XcatsTrainArrs out) = length (catCols sch)
       /\ length (XcatsTestArrs out) = length (catCols sch)
       /\ forall j h cm,
            catCols sch !! j = Some h -> catMaps sch !! h = Some cm ->
            exists train_codes test_codes,
              XcatsTrainArrs out !! j = Some train_codes
              /\ XcatsTestArrs out !! j = Some test_codes
              /\ Forall (fun c => 1 <= c < cat_size cm)
                        (train_codes ++ test_codes).
Proof.
  intros H _ _.
  assert (Hne : rows <> []) by (intros ->; done).
  rewrite analyzeColumns_Ok in H by done. injection H as <-. cbv zeta.
  set (sch := {| numCols := _; catCols := _; catMaps := _;
                 __seeds := None; numInputDim := None |}).
  assert (Hcat : forall h, h ∈ catCols sch -> is_Some (catMaps sch !! h)).
  { cbn [catCols catMaps sch]. intros h Hh.
    rewrite catMaps_lookup. rewrite decide_True by done. by eexists. }
  split.
  { cbn [numCols sch]. rewrite list_elem_of_filter. by intros [[? _] _]. }
  split; [done|]. split.
  { intros E. apply buildTabularTensors_Throw in E
      as [[_ [E|(h & Hh & E)]]|[[msg Hmsg] _]]; [done| |done].
    destruct (Hcat h Hh) as [cm Hcm]. cbn [catMaps with_seeds] in E.
    congruence. }
  intros out sch' E.
  apply buildTabularTensors_Ok in E as (xcats & first & HX & _ & _ & ->).
  pose proof (Xcats_shape _ _ _ HX) as [Hlen _].
  cbn [XcatsTrainArrs XcatsTestArrs]. rewrite !length_fmap.
  split; [done|]. split; [done|].
  intros j h cm Hh Hcm.
  pose proof (Xcats_lookup rows (with_seeds SEEDS sch) xcats j h cm HX Hne Hh Hcm)
    as Hcol.
  rewrite !list_lookup_fmap, Hcol. cbn [fmap option_fmap option_map].
  eexists _, _. split; [done|]. split; [done|].
  assert (Hcm' : cm = catMap_of rows h).
  { cbn [catMaps with_seeds sch] in Hcm. rewrite catMaps_lookup in Hcm.
    destruct (decide _); [|done]. by injection Hcm. }
  subst cm.
  assert (Hcell : forall i, (i < length rows)%nat ->
            1 <= default 0
                   (((fun r : row =>
                        default 0
                          (cat_map (catMap_of rows h) !! key_or_NA (r !! h)))
                       <$> rows) !! i)
            < cat_size (catMap_of rows h)).
  { intros i Hi. rewrite list_lookup_fmap.
    destruct (lookup_lt_is_Some_2 rows i Hi) as [r Hr]. rewrite Hr.
    cbn [fmap option_fmap option_map default].
    destruct (observed_code rows h r) as (code & -> & Hcode);
      [by eapply list_elem_of_lookup_2|]. done. }
  apply Forall_app. split; apply Forall_fmap, Forall_forall; intros i Hi;
    apply Hcell.
  - unfold trainOrder_ in Hi. rewrite shuffleWithSeed_perm, tr_filter in Hi.
    apply list_elem_of_filter in Hi as [_ Hi]. by eapply trIdx_lt.
  - rewrite te_filter in Hi.
    apply list_elem_of_filter in Hi as [_ Hi]. by eapply teIdx_lt.
Qed.

Lemma X15_analyzed_schema_feeds_the_pipeline_witness :
  exists sch out sch',
    analyzeColumns demo_headers demo_rows "price" = Ok sch
    /\ buildTabularTensors demo_rows (with_seeds SEEDS sch) (Fin (4 # 5))
       = Ok (out, sch')
    /\ length (XcatsTrainArrs out) = length (catCols sch).
Proof.
  assert (Hne : demo_rows <> []) by discriminate.
  pose proof (analyzeColumns_Ok demo_headers demo_rows "price" Hne) as E.
  cbv zeta in E.
  assert (Hh : Forall plain demo_headers)
    by (apply (bool_decide_unpack _); vm_compute; exact I).
  assert (Hc : Forall (plain_column demo_rows) demo_headers)
    by (apply (bool_decide_unpack _); vm_compute; exact I).
  destruct (X15_analyzed_schema_feeds_the_pipeline demo_headers demo_rows
              (4 # 5) _ E Hh Hc) as (_ & Hcat & _ & Hok).
  match type of E with
  | _ = Ok ?sch0 =>
      destruct (proj2 (buildTabularTensors_succeeds demo_rows
                         (with_seeds SEEDS sch0) (Fin (4 # 5))))
        as [[out sch'] Eo]
  end.
  - split; [exact Hne|]. split; [exact Hcat|].
    split; vm_compute; discriminate.
  - eexists _, out, sch'. split; [exact E|]. split; [exact Eo|].
    apply (Hok out sch' Eo).
Defined.

(** ** The training monitor *)

Ltac nat_cases :=
  repeat match goal with
         | |- context [(?a <? ?b)%nat] => destruct (Nat.ltb_spec a b)
         | |- context [(?a <=? ?b)%nat] => destruct (Nat.leb_spec a b)
         | |- context [(?a =? ?b)%nat] => destruct (Nat.eqb_spec a b)
         end.

Lemma onEpoch_stalled (st : monitor) (v : number) :
  num_lt (num_add v (Fin (1 # 1000000))) (__best st) = false ->
  onEpoch st (Some v)
  = {| __best := __best st; __stall := S (__stall st);
       learningRate := if (S (__stall st) =? 8)%nat
                       then halved (learningRate st) else learningRate st;
       stopTraining := if (20 <? S (__stall st))%nat then true
                       else stopTraining st |}.
Proof. intros H. unfold onEpoch. by rewrite H. Qed.

Lemma epochs_plateau (st : monitor) (losses : list number) :
  Forall (fun v => num_lt (num_add v (Fin (1 # 1000000))) (__best st) = false)
         losses ->
  let n := (__stall st + length losses)%nat in
  run_epochs st (Some <$> losses)
  = {| __best := __best st; __stall := n;
       learningRate := if (__stall st <? 8)%nat && (8 <=? n)%nat
                       then halved (learningRate st) else learningRate st;
       stopTraining := stopTraining st
                       || ((20 <? n)%nat && (__stall st <? n)%nat) |}.
Proof.
  revert st. induction losses as [|v losses IH]; intros st Hall; cbv zeta.
  - destruct st as [b s lr stop]. unfold run_epochs.
    cbn [fmap list_fmap foldl __best __stall learningRate stopTraining length].
    f_equal; [lia| |].
    + nat_cases; simpl; try done; lia.
    + destruct stop; [done|]. nat_cases; simpl; try done; lia.
  - inversion Hall as [|? ? Hv Hrest]; subst.
    unfold run_epochs in *. rewrite fmap_cons. cbn [foldl].
    rewrite (onEpoch_stalled st v Hv).
    rewrite IH by done. cbv zeta.
    cbn [__best __stall learningRate stopTraining length].
    f_equal; [lia| |].
    + nat_cases; simpl; try done; lia.
    + destruct (stopTraining st); nat_cases; simpl; try done; lia.
Qed.

(** X17 — a plateau of the validation loss: over consecutive epochs none of
    which improves on the best loss by more than 1e-6 (a NaN loss never
    does), the best loss stays, the stall counter grows by one per epoch, the
    learning rate is halved exactly once, in the epoch in which the counter
    reaches 8 (and not again at 16 or later), and [stopTraining] is raised in
    the epoch in which the counter exceeds 20, that is at the 21st such epoch
    in a row. *)
Theorem X17_plateau (st : monitor) (losses : list number) :
  Forall (fun v => num_lt (num_add v (Fin (1 # 1000000))) (__best st) = false)
         losses ->
  let st' := run_epochs st (Some <$> losses) in
  let n := (__stall st + length losses)%nat in
  __best st' = __best st
  /\ __stall st' = n
  /\ learningRate st'
     = (if (__stall st <? 8)%nat && (8 <=? n)%nat
        then halved (learningRate st) else learningRate st)
  /\ stopTraining st'
     = (stopTraining st || ((20 <? n)%nat && (__stall st <? n)%nat))
  /\ num_lt (num_add NaN (Fin (1 # 1000000))) (__best st) = false.
Proof.
  intros Hall. cbv zeta. rewrite (epochs_plateau st losses Hall). done.
Qed.

Lemma X17_plateau_witness :
  stopTraining (run_epochs plateau_state (Some <$> replicate 21 (Fin 2))) = true
  /\ stopTraining (run_epochs plateau_state (Some <$> replicate 20 NaN)) = false
  /\ learningRate (run_epochs plateau_state (Some <$> replicate 21 (Fin 2)))
     = Some (Fin (3 # 10000)).
Proof.
  destruct (X17_plateau plateau_state (replicate 21 (Fin 2)))
    as (_ & _ & Hlr & Hstop & _); [repeat constructor|].
  destruct (X17_plateau plateau_state (replicate 20 NaN))
    as (_ & _ & _ & Hstop' & _); [repeat constructor|].
  split; [exact Hstop|]. split; [exact Hstop' | exact Hlr].
Defined.

Lemma num_lt_trans (a b c : number) :
  num_lt a b = true -> num_lt b c = true -> num_lt a c = true.
Proof.
  destruct a as [x| | |], b as [y| | |], c as [z| | |]; simpl; try done.
  rewrite !negb_true_iff, <- !not_true_iff_false, !Qle_bool_iff. lra.
Qed.

Lemma improvement_below (v best : number) :
  num_lt (num_add v (Fin (1 # 1000000))) best = true -> num_lt v best = true.
Proof.
  destruct v as [x| | |], best as [y| | |]; simpl; try done.
  rewrite !negb_true_iff, <- !not_true_iff_false, !Qle_bool_iff, Qred_correct.
  lra.
Qed.

Lemma onEpoch_step (st : monitor) (loss : option number) :
  (stopTraining st = true -> stopTraining (onEpoch st loss) = true)
  /\ (__stall (onEpoch st loss) <= S (__stall st))%nat
  /\ (stopTraining st = false -> (__stall st < 20)%nat ->
      stopTraining (onEpoch st loss) = false)
  /\ (__best (onEpoch st loss) = __best st
      \/ num_lt (__best (onEpoch st loss)) (__best st) = true).
Proof.
  destruct loss as [v|]; cbn [onEpoch].
  2:{ split; [done|]. split; [lia|]. split; [done|]. by left. }
  destruct (num_lt (num_add v (Fin (1 # 1000000))) (__best st)) eqn:E;
    cbn [__best __stall learningRate stopTraining].
  - split; [done|]. split; [lia|]. split; [done|].
    right. by apply improvement_below.
  - split; [|split; [lia|split; [|by left]]].
    + intros ->. by destruct (20 <? S (__stall st))%nat.
    + intros -> Hlt. by destruct (Nat.ltb_spec 20 (S (__stall st))); [lia|].
Qed.

(** X18 — what the monitor guarantees over any sequence of epochs, with
    validation losses present or not: [stopTraining], once raised, is never
    lowered; the stall counter grows by at most one per epoch, so from a
    counter of zero training is never stopped within the first 20 epochs;
    and the best loss never goes up: it stays, or is replaced by a smaller
    loss. *)
Theorem X18_monitor_invariants (st : monitor) (losses : list (option number)) :
  let st' := run_epochs st losses in
  (stopTraining st = true -> stopTraining st' = true)
  /\ (__stall st' <= __stall st + length losses)%nat
  /\ (stopTraining st = false -> (__stall st + length losses <= 20)%nat ->
      stopTraining st' = false)
  /\ (__best st' = __best st \/ num_lt (__best st') (__best st) = true).
Proof.
  cbv zeta. unfold run_epochs. revert st.
  induction losses as [|loss losses IH]; intros st; cbn [foldl length].
  - split; [done|]. split; [lia|]. split; [done|]. by left.
  - destruct (onEpoch_step st loss) as (H1 & H2 & H3 & H4).
    destruct (IH (onEpoch st loss)) as (I1 & I2 & I3 & I4).
    split; [by intros ?; apply I1, H1|]. split; [lia|]. split.
    + intros Hs Hlen. apply I3; [apply H3; [done|lia]|lia].
    + destruct I4 as [->|I4]; [done|]. right.
      destruct H4 as [<-|H4]; [done|]. by eapply num_lt_trans.
Qed.

(** ** The inputs of the model *)

Lemma ceil_sqrt_spec (n : Z) :
  1 <= n ->
  1 <= ceil_sqrt n
  /\ (ceil_sqrt n - 1) * (ceil_sqrt n - 1) < n <= ceil_sqrt n * ceil_sqrt n.
Proof.
  intros Hn. unfold ceil_sqrt.
  pose proof (Z.sqrt_spec n ltac:(lia)) as [H1 H2].
  pose proof (Z.sqrt_nonneg n) as H0.
  destruct (Z.eqb_spec (Z.sqrt n * Z.sqrt n) n) as [E|E]; nia.
Qed.

Lemma embedding_dim_spec (size : Z) :
  1 <= size ->
  exists d,
    embedding_dim size = Fin (inject_Z d)
    /\ 2 <= d <= 24
    /\ (d = 24 <-> 484 < size)
    /\ (d < 24 -> (d - 2) * (d - 2) < size <= (d - 1) * (d - 1)).
Proof.
  intros Hs. unfold embedding_dim.
  destruct (Z.ltb_spec size 0); [lia|].
  destruct (ceil_sqrt_spec size Hs) as (H1 & H2 & H3).
  exists (Z.min 24 (ceil_sqrt size + 1)). split; [done|].
  destruct (Z.min_spec 24 (ceil_sqrt size + 1)) as [[Hlt ->]|[Hle ->]].
  - split; [lia|]. split; [|lia]. split; [intros _; nia|done].
  - split; [lia|]. split; [|intros _; split; [|lia]].
    + split; [lia|]. intros Hbig. nia.
    + replace (ceil_sqrt size + 1 - 2) with (ceil_sqrt size - 1) by lia. lia.
Qed.

Lemma embedding_branches_spec (sch : schema) (cols : list string)
    (seedBase : Z) :
  (forall h, h ∈ cols -> is_Some (catMaps sch !! h)) ->
  exists embs,
    embedding_branches sch cols seedBase = Ok embs
    /\ length embs = length cols
    /\ forall j h,
         cols !! j = Some h ->
         exists cm,
           catMaps sch !! h = Some cm
           /\ embs !! j
              = Some (h, {| inputDim := cat_size cm;
                            outputDim := embedding_dim (cat_size cm);
                            seed := seedBase + Z.of_nat j |}).
Proof.
  revert seedBase. induction cols as [|h cols IH]; intros seedBase Hall.
  - exists []. split; [done|]. split; [done|]. intros j h Hj.
    by rewrite lookup_nil in Hj.
  - destruct (Hall h) as [cm Hcm]; [left|].
    destruct (IH (seedBase + 1)) as (rest & Hrest & Hlen & Hlook).
    { intros h' Hh'. apply Hall. by right. }
    eexists. cbn [embedding_branches]. rewrite Hcm, Hrest. cbn.
    split; [done|]. split; [cbn [length]; by rewrite Hlen|].
    intros [|j] h' Hj.
    + injection Hj as <-. exists cm. split; [done|]. cbn.
      by rewrite Z.add_0_r.
    + cbn in Hj. destruct (Hlook j h' Hj) as (cm' & Hcm' & Hj').
      exists cm'. split; [done|]. rewrite lookup_cons_ne_0 by done.
      cbn [pred]. rewrite Hj'. do 3 f_equal. lia.
Qed.

(** With a categorical column, and a code table for each, the inputs are
    built. *)
Lemma buildTabularModel_built (sch : schema) (initBase : Z) :
  catCols sch <> [] ->
  (forall h, h ∈ catCols sch -> is_Some (catMaps sch !! h)) ->
  exists m, buildTabularModel sch initBase = Ok m.
Proof.
  intros Hcols Hcat.
  destruct (embedding_branches_spec sch (catCols sch) initBase Hcat)
    as (embs & Hembs & Hlen & _).
  unfold buildTabularModel. rewrite Hembs. cbn [mbind result_bind].
  destruct embs as [|e embs]; [|by eexists].
  exfalso. apply Hcols. by apply length_zero_iff_nil.
Qed.

(** X19 — the model is built for the tensors the loader made.  After a
    successful [buildTabularTensors], a model [buildTabularModel] builds on
    the updated schema has a numeric input as wide as every row of the train
    and test matrices (the numeric columns plus the seven encoded ones),
    whereas on a schema the loader has not updated it would be seven columns
    narrower; and it has one embedding per categorical column, in column
    order, with [inputDim] the size of the column's code table, seeds counting
    up from [initBase], and, for a table size of at least 1, an output
    dimension [min(24, ceil(sqrt(size)) + 1)] between 2 and 24 that reaches 24
    exactly for sizes above 484.  Without a categorical column no model is
    built: the concatenation of the numeric branch alone throws. *)
Theorem X19_model_inputs_match_tensors (rows : list row) (sch : schema)
    (f : Q) (out : tensors) (sch' : schema) (initBase : Z) :
  buildTabularTensors rows sch (Fin f) = Ok (out, sch') ->
  (catCols sch = [] ->
   exists msg, buildTabularModel sch' initBase = Throw (Error msg))
  /\ (forall m,
        buildTabularModel sch' initBase = Ok m ->
        catCols sch <> []
        /\ numDim m = (length (numCols sch) + 7)%nat
        /\ Forall (fun row => length row = numDim m)
                  (XnumTrainArr out ++ XnumTestArr out)
        /\ (numInputDim sch = None ->
            forall m0, buildTabularModel sch initBase = Ok m0 ->
                       (numDim m0 + 7 = numDim m)%nat)
        /\ length (embeddings m) = length (XcatsTrainArrs out)
        /\ (forall j h,
              catCols sch !! j = Some h ->
              exists cm,
                catMaps sch !! h = Some cm
                /\ embeddings m !! j
                   = Some (h, {| inputDim := cat_size cm;
                                 outputDim := embedding_dim (cat_size cm);
                                 seed := initBase + Z.of_nat j |})))
  /\ (forall size, 1 <= size ->
        exists d, embedding_dim size = Fin (inject_Z d)
                  /\ 2 <= d <= 24 /\ (d = 24 <-> 484 < size)
                  /\ (d < 24 -> (d - 2) * (d - 2) < size <= (d - 1) * (d - 1))).
Proof.
  intros H.
  assert (Hok : exists r, buildTabularTensors rows sch (Fin f) = Ok r)
    by (by eexists).
  apply buildTabularTensors_succeeds in Hok as (Hne & Hcat & _).
  destruct (embedding_branches_spec sch (catCols sch) initBase Hcat)
    as (embs & Hembs & Hlen & Hlook).
  assert (Hrows : Forall (fun row => length row = (length (numCols sch) + 7)%nat)
                         (XnumTrainArr out ++ XnumTestArr out)).
  { eapply Forall_impl; [exact (numeric_output_rows rows sch f out sch' H)|].
    by intros row [? _]. }
  assert (Hsch : exists first,
             XnumPlus rows sch (Fin f) !! 0%nat = Some first
             /\ sch' = set_numInputDim (length first) sch).
  { apply buildTabularTensors_Ok in H as (xcats & first & _ & Hfirst & -> & _).
    by exists first. }
  destruct Hsch as (first & Hfirst & Hsch').
  pose proof (XnumPlus_row_length rows sch (Fin f) 0 first Hfirst) as Hlen0.
  rewrite length_encCols in Hlen0.
  assert (Hdim : numInputDim sch' = Some (length (numCols sch) + 7)%nat)
    by (by rewrite Hsch', <- Hlen0).
  assert (Hcc : catCols sch' = catCols sch) by (by rewrite Hsch').
  assert (Hcm : catMaps sch' = catMaps sch) by (by rewrite Hsch').
  assert (Hembs' : embedding_branches sch' (catCols sch') initBase = Ok embs).
  { rewrite Hcc. rewrite <- Hembs. clear -Hcm.
    generalize initBase. induction (catCols sch) as [|h cols IH]; intros b;
      [done|]. cbn [embedding_branches]. by rewrite Hcm, IH. }
  assert (Hnil : embs = [] <-> catCols sch = []).
  { rewrite <- !length_zero_iff_nil. by rewrite Hlen. }
  split; [|split; [|apply embedding_dim_spec]].
  - intros Hno. unfold buildTabularModel. rewrite Hembs'. cbn [mbind result_bind].
    rewrite (proj2 Hnil Hno). by eexists.
  - intros m Hm. unfold buildTabularModel in Hm. rewrite Hembs', Hdim in Hm.
    cbn [mbind result_bind default] in Hm.
    destruct embs as [|e embs0] eqn:Ee; [done|]. injection Hm as <-.
    cbn [numDim embeddings].
    split; [intros Hno; by apply Hnil in Hno|].
    split; [done|]. split; [done|]. split.
    { intros Hnone m0 Hm0. unfold buildTabularModel in Hm0.
      rewrite Hembs, Hnone in Hm0. cbn [mbind result_bind default] in Hm0.
      injection Hm0 as <-. done. }
    split; [|exact Hlook].
    apply buildTabularTensors_Ok in H as (xcats & first' & HX & _ & _ & ->).
    cbn [XcatsTrainArrs]. rewrite length_fmap, Hlen.
    by destruct (Xcats_shape _ _ _ HX) as [-> _].
Qed.

Lemma X19_model_inputs_match_tensors_witness :
  exists out sch' m,
    buildTabularTensors demo_rows demo_schema (Fin (4 # 5)) = Ok (out, sch')
    /\ buildTabularModel sch' 2000 = Ok m
    /\ numDim m = 8%nat.
Proof.
  destruct (proj2 (buildTabularTensors_succeeds demo_rows demo_schema (Fin (4 # 5)))
              demo_inputs_accepted) as [[out sch'] E].
  destruct (X19_model_inputs_match_tensors _ _ _ _ _ 2000 E)
    as (_ & Hshape & _).
  assert (Hsch : catCols sch' = ["make"] /\ catMaps sch' = catMaps demo_schema).
  { apply buildTabularTensors_Ok in E as (_ & first & _ & _ & -> & _).
    split; reflexivity. }
  destruct Hsch as [Hcols Hmaps].
  destruct (buildTabularModel_built sch' 2000) as [m Hm].
  - rewrite Hcols. discriminate.
  - intros h. rewrite Hcols, Hmaps. intros ->%list_elem_of_singleton.
    vm_compute. by eexists.
  - destruct (Hshape m Hm) as (_ & Hdim & _).
    exists out, sch', m. split; [exact E|]. split; [exact Hm | exact Hdim].
Defined.

(** ** The rows that are kept *)




(** ** Every key value trains *)

(** X21 — what the stratification guarantees: for a finite train fraction,
    every value of the key column that occurs in the rows occurs in the train
    partition: every row, and so every test row, has a training row with
    the same key value (for the pipeline: no test row has a make that no
    training row has). *)
Theorem X21_every_key_value_trains (rows : list row) (f : Q) (seed : Z)
    (key : string) (i : nat) :
  (i < length rows)%nat ->
  exists j,
    j ∈ train (stratifiedSplit rows (Fin f) seed key)
    /\ category rows j key = category rows i key.
Proof.
  intros Hi. set (k := category rows i key).
  destruct (groups_of_lookup rows key) as [Hnd Hget].
  specialize (Hget k). cbv zeta in Hget.
  set (idxs := filter (fun i => category rows i key = k) (seq 0 (length rows)))
    in Hget.
  assert (Hin : i ∈ idxs).
  { apply list_elem_of_filter. split; [done|]. apply elem_of_seq. lia. }
  destruct (decide (idxs = [])) as [Hnil|Hne];
    [rewrite Hnil in Hin; by apply elem_of_nil in Hin|].
  apply Map_get_elem_of in Hget; [|done].
  pose proof (train_part_nonempty f seed idxs Hne) as Hpart.
  destruct ((split_group (Fin f) seed idxs).1) as [|j part] eqn:E; [done|].
  exists j. split.
  - rewrite (proj1 (stratifiedSplit_parts rows (Fin f) seed key)).
    apply elem_of_concat. exists (j :: part). split; [left|].
    unfold train_parts. apply list_elem_of_fmap. exists idxs.
    split; [done|]. apply list_elem_of_fmap. by exists (k, idxs).
  - assert (Hj : j ∈ idxs).
    { rewrite <- (shuffleWithSeed_perm idxs seed),
        <- (split_group_app (Fin f) seed idxs), E.
      apply elem_of_app. left. left. }
    by apply list_elem_of_filter in Hj as [Hj _].
Qed.

Lemma X21_every_key_value_trains_witness :
  4%nat ∈ test (stratifiedSplit demo_rows (Fin (4 # 5)) 42 "make")
  /\ exists j,
       j ∈ train (stratifiedSplit demo_rows (Fin (4 # 5)) 42 "make")
       /\ category demo_rows j "make" = category demo_rows 4 "make".
Proof.
  split; [vm_compute; right; left|].
  apply (X21_every_key_value_trains demo_rows (4 # 5) 42 "make" 4).
  vm_compute. lia.
Defined.

(** ** The seeds of the application *)

(** X22 — the seeds the application passes down are the loader's defaults:
    on a schema without seeds, as [analyzeColumns] returns it, setting
    [schema.__seeds = {...SEEDS}] changes nothing in what
    [buildTabularTensors] returns, arrays and scaling statistics alike; only
    the schema carries the seeds afterwards. *)
Theorem X22_application_seeds_are_the_defaults (rows : list row)
    (sch : schema) (trainFrac : number) :
  __seeds sch = None ->
  buildTabularTensors rows (with_seeds SEEDS sch) trainFrac
  = match buildTabularTensors rows sch trainFrac with
    | Ok (out, sch') => Ok (out, with_seeds SEEDS sch')
    | Throw e => Throw e
    end.
Proof.
  intros Hs. destruct sch as [nc cc cm s d]. cbn in Hs. subst s.
  rewrite !buildTabularTensors_steps. unfold with_seeds.
  cbn [numCols catCols catMaps __seeds numInputDim].
  set (sch1 := {| numCols := nc; catCols := cc; catMaps := cm;
                  __seeds := Some SEEDS; numInputDim := d |}).
  set (sch0 := {| numCols := nc; catCols := cc; catMaps := cm;
                  __seeds := None; numInputDim := d |}).
  change (Xcats rows sch1) with (Xcats rows sch0).
  destruct (Xcats rows sch0) as [xcats|e]; [|done].
  change (XnumPlus rows sch1 trainFrac) with (XnumPlus rows sch0 trainFrac).
  destruct (XnumPlus rows sch0 trainFrac !! 0%nat) as [first|]; [|done].
  cbv zeta.
  change (numStats_of rows sch1 trainFrac first)
    with (numStats_of rows sch0 trainFrac first).
  change (XnumScaled rows sch1 trainFrac) with (XnumScaled rows sch0 trainFrac).
  change (trainOrder_ rows sch1 trainFrac) with (trainOrder_ rows sch0 trainFrac).
  change (te rows sch1 trainFrac) with (te rows sch0 trainFrac).
  change (yLog rows sch1 trainFrac) with (yLog rows sch0 trainFrac).
  destruct (tensor2d (gather [] _ (trainOrder_ rows sch0 trainFrac))) as [a|e];
    [|done].
  destruct (tensor2d (gather [] _ (te rows sch0 trainFrac))) as [b|e]; [|done].
  reflexivity.
Qed.

Lemma X22_application_seeds_are_the_defaults_witness :
  buildTabularTensors demo_rows (with_seeds SEEDS unseeded_schema) (Fin (4 # 5))
  = match buildTabularTensors demo_rows unseeded_schema (Fin (4 # 5)) with
    | Ok (out, sch') => Ok (out, with_seeds SEEDS sch')
    | Throw e => Throw e
    end.
Proof.
  apply (X22_application_seeds_are_the_defaults demo_rows unseeded_schema
           (Fin (4 # 5))).
  reflexivity.
Defined.
